(** * Reconciliation engine of the Obsidian / Google Drive sync plugin

    A shallow embedding of [performSync] and of the functions it calls
    ([validateDriveFolder], [getDriveFilesRecursive],
    [getDriveItemsRecursive], [ensureFolderPathExists], [findDriveFolder],
    [createDriveFolder], [filesHaveIdenticalContent], [handleConflict],
    [uploadFileToFolder], [downloadFile], [ensureLocalFolderExists],
    [getMimeType], [isBinaryFile], [saveSettings]), followed by the
    properties of the engine.

    The plugin is asynchronous TypeScript whose effects are HTTP calls to
    the Drive API, reads and writes of the vault, and updates of the plugin
    object ([settings], [folderIdCache]).  One run is modelled as a
    computation in a state-and-exception monad over a [World]; every call
    that leaves the plugin is appended, with its answer, to a trace, and the
    answers are supplied by an environment that may depend on the whole
    history of calls.

    What the model takes as given:
    - one run at a time: the calls of a run are not interleaved with those
      of another run or of a callback of the conflict prompt;
    - timestamps and sizes are integers ([file.stat.mtime], and the values
      that [new Date(s).getTime()] and [parseInt(s)] yield);
    - the MD5 digest is a parameter of the engine;
    - the remote folder hierarchy listed by the walker is a finite tree;
    - [saveData] either stores the settings or rejects and stores nothing;
    - an error is known by its [message], and a template literal renders
      the status of a response as its decimal numeral;
    - the status bar, the notices and the console are not part of the
      world: a run reports through its [Outcome].

    The plugin object around the engine (status bar, timers, vault
    handlers, settings tab) is embedded after the engine, as a state of
    its own. *)

From Stdlib Require Import ZArith String Ascii List Bool Lia.
From stdpp Require Import base option list gmap strings pretty.

Local Open Scope Z_scope.
Local Open Scope string_scope.

(* ===================================================================== *)
(** ** JavaScript string primitives used by the engine *)
(* ===================================================================== *)

(** A string used as a condition: only the empty string is falsy. *)
Definition truthy (s : string) : bool := negb (String.eqb s "").

(** [s.split(sep)] for a one-character separator. *)
Fixpoint split (sep : ascii) (s : string) : list string :=
  match s with
  | EmptyString => [EmptyString]
  | String c s' =>
      if Ascii.eqb c sep then EmptyString :: split sep s'
      else match split sep s' with
           | h :: t => String c h :: t
           | [] => [String c EmptyString]
           end
  end.

(** [s.includes(c)] for a one-character needle. *)
Fixpoint includes (c : ascii) (s : string) : bool :=
  match s with
  | EmptyString => false
  | String a s' => Ascii.eqb a c || includes c s'
  end.

(** [s.lastIndexOf(c)]; [None] stands for the result -1. *)
Fixpoint lastIndexOf (c : ascii) (s : string) : option nat :=
  match s with
  | EmptyString => None
  | String a s' =>
      match lastIndexOf c s' with
      | Some i => Some (S i)
      | None => if Ascii.eqb a c then Some O else None
      end
  end.

(** ASCII part of [toLowerCase]; the extensions tested by [getMimeType] are
    ASCII and no other character lower-cases to one of their letters. *)
Definition toLowerAscii (c : ascii) : ascii :=
  let n := nat_of_ascii c in
  if (Nat.leb 65 n && Nat.leb n 90)%bool then ascii_of_nat (n + 32) else c.

Fixpoint toLowerCase (s : string) : string :=
  match s with
  | EmptyString => EmptyString
  | String c s' => String (toLowerAscii c) (toLowerCase s')
  end.

(** [s.startsWith(p)]. *)
Definition startsWith (s p : string) : bool := String.prefix p s.

(** [`${a}/${b}`]. *)
Definition slashJoin (a b : string) : string := a ++ "/" ++ b.

(** [currentPath ? `${currentPath}/${segment}` : segment], the step of the
    loops that walk the segments of a path. *)
Definition extendPath (currentPath segment : string) : string :=
  if truthy currentPath then slashJoin currentPath segment else segment.

(** The expression that occurs four times in the source:
    [p.includes('/') ? p.substring(0, p.lastIndexOf('/')) : '']. *)
Definition parentFolderPath (p : string) : string :=
  if includes "/" p then
    match lastIndexOf "/" p with
    | Some i => substring 0 i p
    | None => ""
    end
  else "".

(** [getMimeType]: the extension is the last piece of [filename.split('.')],
    lower-cased. *)
Definition getMimeType (filename : string) : string :=
  let ext := toLowerCase (List.last (split "." filename) "") in
  if String.eqb ext "md" then "text/markdown"
  else if String.eqb ext "txt" then "text/plain"
  else if String.eqb ext "json" then "application/json"
  else if String.eqb ext "png" then "image/png"
  else if String.eqb ext "jpg" then "image/jpeg"
  else if String.eqb ext "jpeg" then "image/jpeg"
  else if String.eqb ext "gif" then "image/gif"
  else if String.eqb ext "svg" then "image/svg+xml"
  else if String.eqb ext "pdf" then "application/pdf"
  else if String.eqb ext "dat" then "application/octet-stream"
  else "application/octet-stream".

Definition textTypes : list string :=
  [ "text/"; "application/json"; "application/javascript"; "application/xml";
    "application/x-yaml"; "application/x-tex"; "application/x-latex" ].

(** [isBinaryFile]: not one of the text types. *)
Definition isBinaryFile (mimeType : string) : bool :=
  negb (existsb (fun type => startsWith mimeType type) textTypes).

Definition FOLDER_MIME : string := "application/vnd.google-apps.folder".

(* ===================================================================== *)
(** ** Data model *)
(* ===================================================================== *)

(** The conflict policies of [GoogleDriveSyncSettings.conflictResolution]. *)
Inductive ConflictResolution := overwrite | keep_local | keep_remote | ask.

Record GoogleDriveSyncSettings := {
  clientId : string;
  clientSecret : string;
  folderId : string;
  refreshToken : string;
  lastSyncTime : Z;
  syncInterval : Z;
  autoSync : bool;
  conflictResolution : ConflictResolution
}.

Definition DEFAULT_SETTINGS : GoogleDriveSyncSettings :=
  {| clientId := ""; clientSecret := ""; folderId := ""; refreshToken := "";
     lastSyncTime := 0; syncInterval := 15; autoSync := true;
     conflictResolution := overwrite |}.

Definition set_lastSyncTime (t : Z) (s : GoogleDriveSyncSettings) :=
  {| clientId := clientId s; clientSecret := clientSecret s;
     folderId := folderId s; refreshToken := refreshToken s;
     lastSyncTime := t; syncInterval := syncInterval s;
     autoSync := autoSync s; conflictResolution := conflictResolution s |}.

(** A vault file as Obsidian's [TFile]: [file.path], [file.name],
    [file.stat.mtime] (epoch ms) and [file.stat.size]. *)
Module TFile.
Record t := { path : string; name : string; mtime : Z; size : Z }.
End TFile.

(** A Drive file as returned by the listing, with the [path] added by the
    walker.  [modifiedTime] is the instant, in epoch ms, that
    [new Date(driveFile.modifiedTime).getTime()] yields; [size] is
    [parseInt(driveFile.size)], absent when the field is missing or not a
    number. *)
Module DriveFile.
Record t := {
  id : string; name : string; modifiedTime : Z; size : option Z;
  mimeType : string; path : string
}.
End DriveFile.

(** Answer of a [fetch]: a response with an OK status and its payload, a
    response with another status, with its [status] and [statusText], or a
    rejected promise, with the [message] of the error it rejects with. *)
Inductive Resp (A : Type) :=
| RespOk (a : A)
| RespStatus (status : Z) (statusText : string)
| NetError (message : string).
Arguments RespOk {A} a.
Arguments RespStatus {A} status statusText.
Arguments NetError {A} message.

Definition resp_ok {A} (r : Resp A) : bool :=
  match r with RespOk _ => true | _ => false end.

(** The remote store seen as a finite tree: the answer to the listing of a
    folder is a failure (a status that is not OK, or a rejected request) or
    a sequence of items, and every item carries the answer to the listing
    of its own children, which is looked at when the item is a folder. *)
Inductive Listing :=
| ListStatus (status : Z) (statusText : string)
| ListRejected (message : string)
| ListOk (items : Items)
with Items :=
| NoItems
| Item (id name mimeType : string) (modifiedTime : Z) (size : option Z)
       (children : Listing) (rest : Items).

(** Everything that crosses the boundary of the plugin during a run, with
    the answer it got.  [EvDownload] is the fetch of [downloadFile] and
    [EvCompareFetch] the fetch of [filesHaveIdenticalContent]: the same
    request, made for two purposes.  [EvUploadUpdate] is the [PATCH] on an
    existing file id and [EvUploadCreate] the multipart [POST] under a
    parent folder.  In [EvCreateFolder] the first field is the cumulative
    path the materializer is working on; the request itself carries the
    folder name and the parent id. *)
Inductive Event :=
| EvGetAccessToken (token : option string)
| EvValidateFolder (folder : string) (r : Resp (string * string))
| EvListFolder (folder : string) (ok : bool)
| EvFindFolder (folderName parentId : string) (r : Resp (list string))
| EvCreateFolder (forPath folderName parentId : string) (r : Resp string)
| EvVaultRead (path : string) (content : option string)
| EvUploadUpdate (file : TFile.t) (fileId : string) (r : Resp unit)
| EvUploadCreate (file : TFile.t) (parentFolderId : string) (r : Resp unit)
| EvDownload (driveFile : DriveFile.t) (r : Resp string)
| EvMkdir (path : string) (ok : bool)
| EvVaultWrite (path content : string) (ok : bool)
| EvCompareFetch (driveFile : DriveFile.t) (r : Resp string)
| EvDelete (driveFile : DriveFile.t) (r : Resp unit)
| EvConflictModal (path : string) (driveFile : DriveFile.t)
| EvSaveData (s : GoogleDriveSyncSettings) (ok : bool).

(** The collaborators.  Every answer may depend on the history of the calls
    made so far, so a call may succeed once and fail later.  The token
    request, the reads and writes of the vault and [saveData] answer with
    an [option] or a [bool]: when one of them is rejected, [rejection]
    gives the [message] of its error, from the history that ends with the
    rejected call. *)
Record Env := {
  getAccessToken : list Event -> option string;
  fetch_metadata : list Event -> string -> Resp (string * string);
  remote_listing : list Event -> Listing;
  fetch_find : list Event -> string -> string -> Resp (list string);
  fetch_create : list Event -> string -> string -> Resp string;
  fetch_update : list Event -> TFile.t -> string -> Resp unit;
  fetch_upload : list Event -> TFile.t -> string -> Resp unit;
  fetch_media : list Event -> DriveFile.t -> Resp string;
  fetch_delete : list Event -> DriveFile.t -> Resp unit;
  vault_getFiles : list Event -> list TFile.t;
  vault_read : list Event -> TFile.t -> option string;
  vault_write : list Event -> string -> string -> bool;
  vault_mkdir : list Event -> string -> bool;
  date_now : list Event -> Z;
  saveData : list Event -> GoogleDriveSyncSettings -> bool;
  rejection : list Event -> string
}.

(** The state a run works on: the plugin object ([settings], the
    [folderIdCache]), the settings as last written to disk ([stored]), and
    the history of calls. *)
Record World := {
  settings : GoogleDriveSyncSettings;
  stored : GoogleDriveSyncSettings;
  folderIdCache : gmap string string;
  trace : list Event
}.

(* ===================================================================== *)
(** ** The monad of a run *)
(* ===================================================================== *)

Inductive Res (A : Type) :=
| Ok (a : A)
| Throw (msg : string).
Arguments Ok {A} a.
Arguments Throw {A} msg.

Definition M (A : Type) : Type := World -> Res A * World.

Definition ret {A} (a : A) : M A := fun w => (Ok a, w).

Definition throw {A} (msg : string) : M A := fun w => (Throw msg, w).

Definition bind {A B} (m : M A) (k : A -> M B) : M B :=
  fun w =>
    match m w with
    | (Ok a, w') => k a w'
    | (Throw msg, w') => (Throw msg, w')
    end.

(** [try { m } catch (error) { h }]. *)
Definition try_catch {A} (m : M A) (h : string -> M A) : M A :=
  fun w =>
    match m w with
    | (Ok a, w') => (Ok a, w')
    | (Throw msg, w') => h msg w'
    end.

Declare Scope run_scope.
Delimit Scope run_scope with run.
Bind Scope run_scope with M.
Notation "'let*' x := m 'in' k" := (bind m (fun x => k))
  (at level 10, x pattern, m at level 100, k at level 200) : run_scope.
Local Open Scope run_scope.

(** The world after the calls [es] have been made. *)
Definition extend (w : World) (es : list Event) : World :=
  {| settings := settings w; stored := stored w;
     folderIdCache := folderIdCache w; trace := trace w ++ es |}.

Definition log (e : Event) : M unit := fun w => (Ok tt, extend w [e]).

Definition logAll (es : list Event) : M unit := fun w => (Ok tt, extend w es).

Definition history : M (list Event) := fun w => (Ok (trace w), w).

Definition getSettings : M GoogleDriveSyncSettings :=
  fun w => (Ok (settings w), w).

Definition getCache : M (gmap string string) :=
  fun w => (Ok (folderIdCache w), w).

Definition setCache (c : gmap string string) : M unit :=
  fun w => (Ok tt, {| settings := settings w; stored := stored w;
                      folderIdCache := c; trace := trace w |}).

Definition setSettings (s : GoogleDriveSyncSettings) : M unit :=
  fun w => (Ok tt, {| settings := s; stored := stored w;
                      folderIdCache := folderIdCache w; trace := trace w |}).

Definition setStored (s : GoogleDriveSyncSettings) : M unit :=
  fun w => (Ok tt, {| settings := settings w; stored := s;
                      folderIdCache := folderIdCache w; trace := trace w |}).

(** [for (const x of l) { body }] threading the loop-carried variables. *)
Fixpoint forEach {A S} (l : list A) (body : A -> S -> M S) (s : S) : M S :=
  match l with
  | [] => ret s
  | x :: l' => let* s' := body x s in forEach l' body s'
  end.

(* ===================================================================== *)
(** ** The engine *)
(* ===================================================================== *)

(** The four counters of a run. *)
Record Counters := {
  uploaded : nat; downloaded : nat; conflicts : nat; deleted : nat
}.

Definition zeroCounters : Counters :=
  {| uploaded := 0; downloaded := 0; conflicts := 0; deleted := 0 |}.

Definition incUploaded (n : Counters) : Counters :=
  {| uploaded := S (uploaded n); downloaded := downloaded n;
     conflicts := conflicts n; deleted := deleted n |}.

Definition incDownloaded (n : Counters) : Counters :=
  {| uploaded := uploaded n; downloaded := S (downloaded n);
     conflicts := conflicts n; deleted := deleted n |}.

Definition incConflicts (n : Counters) : Counters :=
  {| uploaded := uploaded n; downloaded := downloaded n;
     conflicts := S (conflicts n); deleted := deleted n |}.

Definition incDeleted (n : Counters) : Counters :=
  {| uploaded := uploaded n; downloaded := downloaded n;
     conflicts := conflicts n; deleted := S (deleted n) |}.

(** How a call of [performSync] ends: the early return when the plugin is
    not configured, the early return after a failed folder validation, the
    [catch] block of the run, or the end of the [try] block. *)
Inductive Outcome :=
| NotConfigured
| ValidationFailed (msg : string)
| SyncFailed (msg : string)
| Synced (n : Counters).

(** [new Map()] filled by [map.set(file.path, file)] in list order. *)
Definition vaultFileMapOf (vaultFiles : list TFile.t) : gmap string TFile.t :=
  foldl (fun m file => <[TFile.path file := file]> m) ∅ vaultFiles.

Definition driveFileMapOf (driveFiles : list DriveFile.t)
  : gmap string DriveFile.t :=
  foldl (fun m file => <[DriveFile.path file := file]> m) ∅ driveFiles.

(** [`${what}: ${response.status} ${response.statusText}`], the message
    of the errors thrown for a response that is not OK. *)
Definition notOk (what : string) (status : Z) (statusText : string)
  : string :=
  what ++ ": " ++ pretty status ++ " " ++ statusText.

(** The recursive remote listing, on the remote tree.  It returns the calls
    it makes and either [allFiles] extended in visiting order or the
    message of the error of the listing that failed.  [itemsLoop] is the
    [for] loop of the source function. *)
Fixpoint getDriveItemsRecursive (folder currentPath : string)
    (listing : Listing) (allFiles : list DriveFile.t) {struct listing}
  : list Event * Res (list DriveFile.t) :=
  match listing with
  | ListStatus status statusText =>
      ([EvListFolder folder false],
       Throw (notOk ("Failed to list items in folder " ++ folder) status
                statusText))
  | ListRejected message => ([EvListFolder folder false], Throw message)
  | ListOk items =>
      itemsLoop currentPath items [EvListFolder folder true] allFiles
  end
with itemsLoop (currentPath : string) (items : Items) (evs : list Event)
    (allFiles : list DriveFile.t) {struct items}
  : list Event * Res (list DriveFile.t) :=
  match items with
  | NoItems => (evs, Ok allFiles)
  | Item id name mimeType modifiedTime size children rest =>
      let itemPath := extendPath currentPath name in
      if String.eqb mimeType FOLDER_MIME then
        match getDriveItemsRecursive id itemPath children allFiles with
        | (evs', Ok allFiles') =>
            itemsLoop currentPath rest (evs ++ evs')%list allFiles'
        | (evs', Throw msg) => ((evs ++ evs')%list, Throw msg)
        end
      else
        itemsLoop currentPath rest evs
          (allFiles ++
           [ {| DriveFile.id := id; DriveFile.name := name;
                DriveFile.modifiedTime := modifiedTime;
                DriveFile.size := size;
                DriveFile.mimeType := mimeType;
                DriveFile.path := itemPath |} ])%list
  end.

Section Engine.

(** [createHash('md5').update(s).digest('hex')], from Node's [crypto]. *)
Variable md5 : string -> string.

Variable E : Env.

(** The error of a rejected token request, vault call or [saveData] is
    thrown on: its message is the one [rejection] gives for the history,
    which ends with the rejected call. *)
Definition rejected {A} : M A :=
  fun w => (Throw (rejection E (trace w)), w).

(** [auth.getAccessToken()] and the test that follows each of its four
    uses; [None] is a rejected promise. *)
Definition freshAccessToken (msg : string) : M string :=
  let* h := history in
  let tokenResponse := getAccessToken E h in
  let* _ := log (EvGetAccessToken tokenResponse) in
  match tokenResponse with
  | Some accessToken =>
      if truthy accessToken then ret accessToken else throw msg
  | None => rejected
  end.

Definition validateDriveFolder (accessToken : string) : M unit :=
  let* s := getSettings in
  let* h := history in
  let response := fetch_metadata E h (folderId s) in
  let* _ := log (EvValidateFolder (folderId s) response) in
  match response with
  | RespOk (_, mimeType) =>
      if String.eqb mimeType FOLDER_MIME then ret tt
      else throw "The specified ID is not a Google Drive folder."
  | RespStatus status statusText =>
      if Z.eqb status 404 then
        throw "Google Drive folder not found. Please check your Folder ID in settings."
      else if Z.eqb status 403 then
        throw "Access denied to Google Drive folder. Please check permissions."
      else
        throw (notOk "Failed to access Google Drive folder" status
                 statusText)
  | NetError message => throw message
  end.

Definition getDriveFilesRecursive (accessToken : string)
  : M (list DriveFile.t) :=
  let* s := getSettings in
  let* h := history in
  let '(evs, allFiles) :=
    getDriveItemsRecursive (folderId s) "" (remote_listing E h) [] in
  let* _ := logAll evs in
  match allFiles with
  | Ok files => ret files
  | Throw msg => throw msg
  end.

(** [this.app.vault.read(file)] and [readBinary(file)]. *)
Definition vaultRead (file : TFile.t) : M string :=
  let* h := history in
  let content := vault_read E h file in
  let* _ := log (EvVaultRead (TFile.path file) content) in
  match content with
  | Some c => ret c
  | None => rejected
  end.

(** What [uploadFileToFolder] does with the response to its request. *)
Definition checkUploadResponse (uploadResponse : Resp unit) : M unit :=
  match uploadResponse with
  | RespOk _ => ret tt
  | RespStatus status statusText =>
      throw (notOk "Upload failed" status statusText)
  | NetError message => throw message
  end.

Definition uploadFileToFolder (file : TFile.t) (accessToken : string)
    (parentFolderId : string) (fileId : option string) : M unit :=
  let* _ := vaultRead file in
  let* h := history in
  match fileId with
  | Some fid =>
      if truthy fid then
        let uploadResponse := fetch_update E h file fid in
        let* _ := log (EvUploadUpdate file fid uploadResponse) in
        checkUploadResponse uploadResponse
      else
        let uploadResponse := fetch_upload E h file parentFolderId in
        let* _ := log (EvUploadCreate file parentFolderId uploadResponse) in
        checkUploadResponse uploadResponse
  | None =>
      let uploadResponse := fetch_upload E h file parentFolderId in
      let* _ := log (EvUploadCreate file parentFolderId uploadResponse) in
      checkUploadResponse uploadResponse
  end.

(** The body of the loop of [ensureLocalFolderExists]: [mkdir] inside a
    [try] whose [catch] is empty. *)
Definition mkdirSegment (segment : string) (currentPath0 : string)
  : M string :=
  let currentPath := extendPath currentPath0 segment in
  let* h := history in
  let* _ := log (EvMkdir currentPath (vault_mkdir E h currentPath)) in
  ret currentPath.

Definition ensureLocalFolderExists (folderPath : string) : M unit :=
  let segments := List.filter truthy (split "/" folderPath) in
  let* _ := forEach segments mkdirSegment "" in
  ret tt.

Definition downloadFile (driveFile : DriveFile.t) (accessToken : string)
  : M unit :=
  let* h := history in
  let downloadResponse := fetch_media E h driveFile in
  let* _ := log (EvDownload driveFile downloadResponse) in
  match downloadResponse with
  | RespOk content =>
      let* _ :=
        if includes "/" (DriveFile.path driveFile) then
          ensureLocalFolderExists (parentFolderPath (DriveFile.path driveFile))
        else ret tt in
      let* h := history in
      let ok := vault_write E h (DriveFile.path driveFile) content in
      let* _ := log (EvVaultWrite (DriveFile.path driveFile) content ok) in
      if ok then ret tt else rejected
  | RespStatus status statusText =>
      throw (notOk "Download failed" status statusText)
  | NetError message => throw message
  end.

(** [createDriveFolder].  [forPath] is not an argument of the source
    function: it names the cumulative path the caller is materializing, so
    that the trace can be read per path segment. *)
Definition createDriveFolder (forPath folderName parentId : string)
    (accessToken : string) : M string :=
  let* h := history in
  let response := fetch_create E h folderName parentId in
  let* _ := log (EvCreateFolder forPath folderName parentId response) in
  match response with
  | RespOk newId => ret newId
  | RespStatus status statusText =>
      throw (notOk "Failed to create folder" status statusText)
  | NetError message => throw message
  end.

(** [findDriveFolder]: a response that is not OK is logged and answered
    with [null]; the payload is the list of the ids of [data.files]. *)
Definition findDriveFolder (folderName parentId : string)
    (accessToken : string) : M (option string) :=
  let* h := history in
  let response := fetch_find E h folderName parentId in
  let* _ := log (EvFindFolder folderName parentId response) in
  match response with
  | RespOk files => ret (head files)
  | RespStatus _ _ => ret None
  | NetError message => throw message
  end.

Definition cacheSet (k v : string) : M unit :=
  let* c := getCache in setCache (<[k := v]> c).

(** The body of the loop of [ensureFolderPathExists]; the loop carries
    [currentParentId] and [currentPath]. *)
Definition ensureSegment (accessToken : string) (segment : string)
    (st : string * string) : M (string * string) :=
  let currentParentId := fst st in
  let currentPath := extendPath (snd st) segment in
  let* c := getCache in
  match c !! currentPath with
  | Some cached => ret (cached, currentPath)
  | None =>
      let* existingFolderId :=
        findDriveFolder segment currentParentId accessToken in
      match existingFolderId with
      | Some existing =>
          if truthy existing then
            let* _ := cacheSet currentPath existing in
            ret (existing, currentPath)
          else
            let* newFolderId :=
              createDriveFolder currentPath segment currentParentId
                accessToken in
            let* _ := cacheSet currentPath newFolderId in
            ret (newFolderId, currentPath)
      | None =>
          let* newFolderId :=
            createDriveFolder currentPath segment currentParentId
              accessToken in
          let* _ := cacheSet currentPath newFolderId in
          ret (newFolderId, currentPath)
      end
  end.

Definition ensureFolderPathExists (localPath : string)
    (accessToken : string) : M string :=
  let* c := getCache in
  match c !! localPath with
  | Some cached => ret cached
  | None =>
      let* s := getSettings in
      if negb (truthy localPath) || String.eqb localPath "." then
        ret (folderId s)
      else
        let segments := List.filter truthy (split "/" localPath) in
        let* st :=
          forEach segments (ensureSegment accessToken) (folderId s, "") in
        ret (fst st)
  end.

Definition filesHaveIdenticalContent (vaultFile : TFile.t)
    (driveFile : DriveFile.t) (accessToken : string) : M bool :=
  try_catch
    (let vaultSize := TFile.size vaultFile in
     let driveSize := default 0 (DriveFile.size driveFile) in
     if negb (Z.eqb vaultSize driveSize) then ret false
     else if Z.eqb vaultSize 0 then ret true
     else if isBinaryFile (getMimeType (TFile.name vaultFile)) then ret true
     else
       let* vaultContent := vaultRead vaultFile in
       let vaultHash := md5 vaultContent in
       let* h := history in
       let downloadResponse := fetch_media E h driveFile in
       let* _ := log (EvCompareFetch driveFile downloadResponse) in
       match downloadResponse with
       | RespOk driveContent =>
           let driveHash := md5 driveContent in
           ret (String.eqb vaultHash driveHash)
       | RespStatus _ _ => ret false
       | NetError message => throw message
       end)
    (fun _ => ret false).

(** [handleConflict].  Under ['ask'] the modal is opened and the function
    returns; the two callbacks run later, when the user chooses. *)
Definition handleConflict (vaultFile : TFile.t) (driveFile : DriveFile.t)
    (accessToken : string) : M unit :=
  let* freshToken :=
    freshAccessToken
      "Failed to refresh access token for conflict resolution" in
  let* s := getSettings in
  match conflictResolution s with
  | overwrite =>
      let overwriteFolderPath := parentFolderPath (TFile.path vaultFile) in
      let* overwriteParentId :=
        ensureFolderPathExists overwriteFolderPath freshToken in
      uploadFileToFolder vaultFile freshToken overwriteParentId
        (Some (DriveFile.id driveFile))
  | keep_local => ret tt
  | keep_remote => downloadFile driveFile freshToken
  | ask => log (EvConflictModal (TFile.path vaultFile) driveFile)
  end.

(** The body of the loop over the vault files ([getFiles] returns [TFile]
    objects only, so the [instanceof] test at its top never skips). *)
Definition vaultLoopBody (toDrive : bool) (lastSync : Z)
    (driveFileMap : gmap string DriveFile.t) (currentAccessToken : string)
    (file : TFile.t) (n : Counters) : M Counters :=
  let vaultMtime := TFile.mtime file in
  if toDrive then
    match driveFileMap !! TFile.path file with
    | None =>
        let folderPath := parentFolderPath (TFile.path file) in
        let* parentFolderId :=
          ensureFolderPathExists folderPath currentAccessToken in
        let* _ :=
          uploadFileToFolder file currentAccessToken parentFolderId None in
        ret (incUploaded n)
    | Some driveFile =>
        let driveMtime := DriveFile.modifiedTime driveFile in
        let vaultChanged := vaultMtime >? lastSync + 2000 in
        let driveChanged := driveMtime >? lastSync + 2000 in
        if vaultChanged && driveChanged then
          let* identicalContent :=
            filesHaveIdenticalContent file driveFile currentAccessToken in
          if identicalContent then ret n
          else
            let* _ := handleConflict file driveFile currentAccessToken in
            ret (incConflicts n)
        else if vaultChanged then
          let updateFolderPath := parentFolderPath (TFile.path file) in
          let* updateParentId :=
            ensureFolderPathExists updateFolderPath currentAccessToken in
          let* _ :=
            uploadFileToFolder file currentAccessToken updateParentId
              (Some (DriveFile.id driveFile)) in
          ret (incUploaded n)
        else ret n
    end
  else ret n.

(** The body of the loop over the Drive files (the loop itself is inside
    [if (fromDrive)]). *)
Definition driveLoopBody (toDrive fromDrive : bool) (lastSync : Z)
    (vaultFileMap : gmap string TFile.t) (downloadAccessToken : string)
    (driveFile : DriveFile.t) (n : Counters) : M Counters :=
  match vaultFileMap !! DriveFile.path driveFile with
  | None =>
      let driveMtime := DriveFile.modifiedTime driveFile in
      if driveMtime >? lastSync + 2000 then
        if fromDrive then
          let* _ := downloadFile driveFile downloadAccessToken in
          ret (incDownloaded n)
        else ret n
      else if toDrive then
        if truthy downloadAccessToken then
          let* h := history in
          let deleteResponse := fetch_delete E h driveFile in
          let* _ := log (EvDelete driveFile deleteResponse) in
          match deleteResponse with
          | RespOk _ => ret (incDeleted n)
          | RespStatus _ _ => ret n
          | NetError message => throw message
          end
        else ret n
      else ret n
  | Some vaultFile =>
      let driveMtime := DriveFile.modifiedTime driveFile in
      let vaultMtime := TFile.mtime vaultFile in
      let driveChanged := driveMtime >? lastSync + 2000 in
      let vaultChanged := vaultMtime >? lastSync + 2000 in
      if driveChanged && vaultChanged then ret n
      else if driveChanged then
        let* _ := downloadFile driveFile downloadAccessToken in
        ret (incDownloaded n)
      else ret n
  end.

(** [saveSettings]: [await this.saveData(this.settings)]. *)
Definition saveSettings : M unit :=
  let* s := getSettings in
  let* h := history in
  let ok := saveData E h s in
  let* _ := log (EvSaveData s ok) in
  if ok then setStored s else rejected.

(** The [try] block of [performSync] after the folder validation, up to the
    end of the two loops: it yields the counters. *)
Definition transferPhase (toDrive fromDrive : bool) (accessToken : string)
  : M Counters :=
  let* _ := setCache ∅ in
  let* h := history in
  let vaultFiles := vault_getFiles E h in
  let vaultFileMap := vaultFileMapOf vaultFiles in
  let* driveFiles := getDriveFilesRecursive accessToken in
  let driveFileMap := driveFileMapOf driveFiles in
  let* s := getSettings in
  let lastSync := lastSyncTime s in
  let* currentAccessToken :=
    freshAccessToken
      "Failed to refresh access token for upload operations" in
  let* n :=
    forEach vaultFiles
      (vaultLoopBody toDrive lastSync driveFileMap currentAccessToken)
      zeroCounters in
  let* downloadAccessToken :=
    freshAccessToken
      "Failed to refresh access token for download operations" in
  if fromDrive then
    forEach driveFiles
      (driveLoopBody toDrive fromDrive lastSync vaultFileMap
         downloadAccessToken) n
  else ret n.

(** The end of the [try] block:
    [this.settings.lastSyncTime = Date.now(); await this.saveSettings()]. *)
Definition commitPhase (n : Counters) : M Outcome :=
  let* h := history in
  let* s := getSettings in
  let* _ := setSettings (set_lastSyncTime (date_now E h) s) in
  let* _ := saveSettings in
  ret (Synced n).

Definition syncBody (toDrive fromDrive : bool) (accessToken : string)
  : M Outcome :=
  let* n := transferPhase toDrive fromDrive accessToken in
  commitPhase n.

Definition performSync (toDrive fromDrive : bool) : M Outcome :=
  let* s := getSettings in
  if negb (truthy (refreshToken s)) || negb (truthy (folderId s)) then
    ret NotConfigured
  else
    try_catch
      (let* accessToken := freshAccessToken "No access token available" in
       let* invalid :=
         try_catch
           (let* _ := validateDriveFolder accessToken in ret None)
           (fun msg => ret (Some msg)) in
       match invalid with
       | Some msg => ret (ValidationFailed msg)
       | None => syncBody toDrive fromDrive accessToken
       end)
      (fun msg => ret (SyncFailed msg)).

End Engine.
(* ===================================================================== *)
(** ** The plugin around the engine *)
(* ===================================================================== *)

(** What follows embeds the rest of the plugin class: the status bar
    ([updateStatusBar], the messages [performSync] composes, the sync
    animation), the timers and the vault event handlers of
    [setupAutoSync], [onunload], [loadSettings] and [onload], the change
    handlers of the settings tab, the reply to [authenticate], the two
    callbacks of the conflict prompt, and the legacy [uploadFile].

    What this part of the model takes as given:
    - strings are sequences of bytes, the characters outside ASCII in
      their UTF-8 encoding;
    - a counter is rendered by a template literal as its decimal numeral;
    - [setInterval] and [setTimeout] return an identifier that is not
      null and that no earlier call returned; clearing an identifier that
      is not live does nothing; a timeout disappears when it fires;
    - the timers looked at are those the plugin itself creates. *)

(* --------------------------------------------------------------------- *)
(** *** The status bar *)
(* --------------------------------------------------------------------- *)

Definition utf8 (bytes : list nat) : string :=
  fold_right (fun b s => String (ascii_of_nat b) s) EmptyString bytes.

(** U+2713, U+2717, U+2191, U+2193, U+1F5D1 and U+26A0. *)
Definition CHECK_MARK : string := utf8 [226; 156; 147]%nat.
Definition BALLOT_X : string := utf8 [226; 156; 151]%nat.
Definition UP_ARROW : string := utf8 [226; 134; 145]%nat.
Definition DOWN_ARROW : string := utf8 [226; 134; 147]%nat.
Definition WASTEBASKET : string := utf8 [240; 159; 151; 145]%nat.
Definition WARNING_SIGN : string := utf8 [226; 154; 160]%nat.

(** The ten frames of the animation: U+280B, U+2819, U+2839, U+2838,
    U+283C, U+2834, U+2826, U+2827, U+2807 and U+280F. *)
Definition frames : list string :=
  map (fun b => utf8 [226; 160; b]%nat)
    [139; 153; 185; 184; 188; 180; 166; 167; 135; 143]%nat.

(** The icon [updateStatusBar] picks for a text. *)
Definition statusIcon (text : string) : string :=
  if String.eqb text "Ready" then CHECK_MARK
  else if String.eqb text "Sync failed" then BALLOT_X
  else if startsWith text "Synced" then CHECK_MARK
  else "".

(** [`${icon} ${text}`], the text [updateStatusBar] sets. *)
Definition statusLine (text : string) : string :=
  statusIcon text ++ " " ++ text.

(** [`${frames[frameIndex]} Syncing...`]. *)
Definition animationLine (frameIndex : nat) : string :=
  nth frameIndex frames "undefined" ++ " Syncing...".

(** The status message [performSync] composes from the four counters. *)
Definition statusMessage (n : Counters) : string :=
  if Nat.eqb (uploaded n) 0 && Nat.eqb (downloaded n) 0 &&
     Nat.eqb (conflicts n) 0 && Nat.eqb (deleted n) 0
  then "Synced - No changes"
  else
    let statusMessage :=
      "Synced - " ++ pretty (uploaded n) ++ UP_ARROW ++ " " ++
      pretty (downloaded n) ++ DOWN_ARROW in
    let statusMessage :=
      if Nat.ltb 0 (deleted n)
      then statusMessage ++ " " ++ pretty (deleted n) ++ WASTEBASKET
      else statusMessage in
    if Nat.ltb 0 (conflicts n)
    then statusMessage ++ " " ++ pretty (conflicts n) ++ WARNING_SIGN
    else statusMessage.

(* --------------------------------------------------------------------- *)
(** *** Timers and the state of the plugin object *)
(* --------------------------------------------------------------------- *)

(** What a timer of the plugin does when it fires: it calls
    [performSync()], or it shows the next frame of the animation
    ([frameIndex] is the variable its callback closes over). *)
Inductive TimerCallback :=
| RunSync
| ShowFrame (frameIndex : nat).

(** A live timer: made by [setInterval] ([repeats]) or by [setTimeout],
    with its delay in milliseconds. *)
Record Timer := {
  repeats : bool;
  delay : Z;
  callback : TimerCallback
}.

(** The vault events [setupAutoSync] listens to. *)
Inductive VaultEventName := modify | delete | create.

Definition VaultEventName_eqb (a b : VaultEventName) : bool :=
  match a, b with
  | modify, modify | delete, delete | create, create => true
  | _, _ => false
  end.

(** The plugin object and what it has set up in its window: [settings],
    the object last passed to [saveData], the text of the status bar item,
    the three timer identifiers it keeps, the live timers, the next
    identifier the window hands out, the handlers registered with
    [registerEvent] (one entry per handler, by event name), and the number
    of calls of [performSync()] made by timers. *)
Module Plugin.
Record t := {
  settings : GoogleDriveSyncSettings;
  savedData : option GoogleDriveSyncSettings;
  statusBarText : string;
  syncIntervalId : option positive;
  syncTimeoutId : option positive;
  syncAnimationId : option positive;
  timers : gmap positive Timer;
  nextTimerId : positive;
  vaultHandlers : list VaultEventName;
  syncRequests : nat
}.
End Plugin.

Definition setSettingsOf (s : GoogleDriveSyncSettings) (p : Plugin.t)
  : Plugin.t :=
  {| Plugin.settings := s; Plugin.savedData := Plugin.savedData p;
     Plugin.statusBarText := Plugin.statusBarText p;
     Plugin.syncIntervalId := Plugin.syncIntervalId p;
     Plugin.syncTimeoutId := Plugin.syncTimeoutId p;
     Plugin.syncAnimationId := Plugin.syncAnimationId p;
     Plugin.timers := Plugin.timers p;
     Plugin.nextTimerId := Plugin.nextTimerId p;
     Plugin.vaultHandlers := Plugin.vaultHandlers p;
     Plugin.syncRequests := Plugin.syncRequests p |}.

Definition setSavedData (d : option GoogleDriveSyncSettings) (p : Plugin.t)
  : Plugin.t :=
  {| Plugin.settings := Plugin.settings p; Plugin.savedData := d;
     Plugin.statusBarText := Plugin.statusBarText p;
     Plugin.syncIntervalId := Plugin.syncIntervalId p;
     Plugin.syncTimeoutId := Plugin.syncTimeoutId p;
     Plugin.syncAnimationId := Plugin.syncAnimationId p;
     Plugin.timers := Plugin.timers p;
     Plugin.nextTimerId := Plugin.nextTimerId p;
     Plugin.vaultHandlers := Plugin.vaultHandlers p;
     Plugin.syncRequests := Plugin.syncRequests p |}.

(** [this.statusBarItem.setText(text)]. *)
Definition setText (text : string) (p : Plugin.t) : Plugin.t :=
  {| Plugin.settings := Plugin.settings p;
     Plugin.savedData := Plugin.savedData p;
     Plugin.statusBarText := text;
     Plugin.syncIntervalId := Plugin.syncIntervalId p;
     Plugin.syncTimeoutId := Plugin.syncTimeoutId p;
     Plugin.syncAnimationId := Plugin.syncAnimationId p;
     Plugin.timers := Plugin.timers p;
     Plugin.nextTimerId := Plugin.nextTimerId p;
     Plugin.vaultHandlers := Plugin.vaultHandlers p;
     Plugin.syncRequests := Plugin.syncRequests p |}.

Definition setSyncIntervalId (id : option positive) (p : Plugin.t)
  : Plugin.t :=
  {| Plugin.settings := Plugin.settings p;
     Plugin.savedData := Plugin.savedData p;
     Plugin.statusBarText := Plugin.statusBarText p;
     Plugin.syncIntervalId := id;
     Plugin.syncTimeoutId := Plugin.syncTimeoutId p;
     Plugin.syncAnimationId := Plugin.syncAnimationId p;
     Plugin.timers := Plugin.timers p;
     Plugin.nextTimerId := Plugin.nextTimerId p;
     Plugin.vaultHandlers := Plugin.vaultHandlers p;
     Plugin.syncRequests := Plugin.syncRequests p |}.

Definition setSyncTimeoutId (id : option positive) (p : Plugin.t)
  : Plugin.t :=
  {| Plugin.settings := Plugin.settings p;
     Plugin.savedData := Plugin.savedData p;
     Plugin.statusBarText := Plugin.statusBarText p;
     Plugin.syncIntervalId := Plugin.syncIntervalId p;
     Plugin.syncTimeoutId := id;
     Plugin.syncAnimationId := Plugin.syncAnimationId p;
     Plugin.timers := Plugin.timers p;
     Plugin.nextTimerId := Plugin.nextTimerId p;
     Plugin.vaultHandlers := Plugin.vaultHandlers p;
     Plugin.syncRequests := Plugin.syncRequests p |}.

Definition setSyncAnimationId (id : option positive) (p : Plugin.t)
  : Plugin.t :=
  {| Plugin.settings := Plugin.settings p;
     Plugin.savedData := Plugin.savedData p;
     Plugin.statusBarText := Plugin.statusBarText p;
     Plugin.syncIntervalId := Plugin.syncIntervalId p;
     Plugin.syncTimeoutId := Plugin.syncTimeoutId p;
     Plugin.syncAnimationId := id;
     Plugin.timers := Plugin.timers p;
     Plugin.nextTimerId := Plugin.nextTimerId p;
     Plugin.vaultHandlers := Plugin.vaultHandlers p;
     Plugin.syncRequests := Plugin.syncRequests p |}.

Definition setTimers (ts : gmap positive Timer) (p : Plugin.t) : Plugin.t :=
  {| Plugin.settings := Plugin.settings p;
     Plugin.savedData := Plugin.savedData p;
     Plugin.statusBarText := Plugin.statusBarText p;
     Plugin.syncIntervalId := Plugin.syncIntervalId p;
     Plugin.syncTimeoutId := Plugin.syncTimeoutId p;
     Plugin.syncAnimationId := Plugin.syncAnimationId p;
     Plugin.timers := ts;
     Plugin.nextTimerId := Plugin.nextTimerId p;
     Plugin.vaultHandlers := Plugin.vaultHandlers p;
     Plugin.syncRequests := Plugin.syncRequests p |}.

(** [this.registerEvent(this.app.vault.on(name, handler))], for each of
    [names]. *)
Definition registerEvents (names : list VaultEventName) (p : Plugin.t)
  : Plugin.t :=
  {| Plugin.settings := Plugin.settings p;
     Plugin.savedData := Plugin.savedData p;
     Plugin.statusBarText := Plugin.statusBarText p;
     Plugin.syncIntervalId := Plugin.syncIntervalId p;
     Plugin.syncTimeoutId := Plugin.syncTimeoutId p;
     Plugin.syncAnimationId := Plugin.syncAnimationId p;
     Plugin.timers := Plugin.timers p;
     Plugin.nextTimerId := Plugin.nextTimerId p;
     Plugin.vaultHandlers := (Plugin.vaultHandlers p ++ names)%list;
     Plugin.syncRequests := Plugin.syncRequests p |}.

(** A timer callback calls [this.performSync()]. *)
Definition requestSync (p : Plugin.t) : Plugin.t :=
  {| Plugin.settings := Plugin.settings p;
     Plugin.savedData := Plugin.savedData p;
     Plugin.statusBarText := Plugin.statusBarText p;
     Plugin.syncIntervalId := Plugin.syncIntervalId p;
     Plugin.syncTimeoutId := Plugin.syncTimeoutId p;
     Plugin.syncAnimationId := Plugin.syncAnimationId p;
     Plugin.timers := Plugin.timers p;
     Plugin.nextTimerId := Plugin.nextTimerId p;
     Plugin.vaultHandlers := Plugin.vaultHandlers p;
     Plugin.syncRequests := S (Plugin.syncRequests p) |}.

(** [setInterval(callback, delay)] and [setTimeout(callback, delay)]: the
    new timer gets the next identifier of the window. *)
Definition setTimer (timer : Timer) (p : Plugin.t) : positive * Plugin.t :=
  let id := Plugin.nextTimerId p in
  (id,
   {| Plugin.settings := Plugin.settings p;
      Plugin.savedData := Plugin.savedData p;
      Plugin.statusBarText := Plugin.statusBarText p;
      Plugin.syncIntervalId := Plugin.syncIntervalId p;
      Plugin.syncTimeoutId := Plugin.syncTimeoutId p;
      Plugin.syncAnimationId := Plugin.syncAnimationId p;
      Plugin.timers := <[id := timer]> (Plugin.timers p);
      Plugin.nextTimerId := Pos.succ id;
      Plugin.vaultHandlers := Plugin.vaultHandlers p;
      Plugin.syncRequests := Plugin.syncRequests p |}).

Definition setInterval (callback : TimerCallback) (delay : Z)
    (p : Plugin.t) : positive * Plugin.t :=
  setTimer {| repeats := true; delay := delay; callback := callback |} p.

Definition setTimeout (callback : TimerCallback) (delay : Z)
    (p : Plugin.t) : positive * Plugin.t :=
  setTimer {| repeats := false; delay := delay; callback := callback |} p.

(** [clearInterval(id)] and [clearTimeout(id)]. *)
Definition clearTimer (id : positive) (p : Plugin.t) : Plugin.t :=
  setTimers (base.delete id (Plugin.timers p)) p.

(** [if (id) { clearInterval(id); }]. *)
Definition clearIfSet (id : option positive) (p : Plugin.t) : Plugin.t :=
  match id with
  | Some id => clearTimer id p
  | None => p
  end.

(* --------------------------------------------------------------------- *)
(** *** The methods of the plugin *)
(* --------------------------------------------------------------------- *)

Definition updateStatusBar (text : string) (p : Plugin.t) : Plugin.t :=
  setText (statusLine text) p.

Definition startSyncAnimation (p : Plugin.t) : Plugin.t :=
  let p := clearIfSet (Plugin.syncAnimationId p) p in
  let '(id, p) := setInterval (ShowFrame 0) 100 p in
  setSyncAnimationId (Some id) p.

Definition stopSyncAnimation (p : Plugin.t) : Plugin.t :=
  match Plugin.syncAnimationId p with
  | Some id => setSyncAnimationId None (clearTimer id p)
  | None => p
  end.

(** The condition under which [setupAutoSync] sets auto-sync up. *)
Definition autoSyncEnabled (s : GoogleDriveSyncSettings) : bool :=
  autoSync s && truthy (refreshToken s) && truthy (folderId s).

Definition setupAutoSync (p : Plugin.t) : Plugin.t :=
  let p := clearIfSet (Plugin.syncIntervalId p) p in
  let p :=
    match Plugin.syncTimeoutId p with
    | Some id => setSyncTimeoutId None (clearTimer id p)
    | None => p
    end in
  if autoSyncEnabled (Plugin.settings p) then
    let '(id, p) :=
      setInterval RunSync (syncInterval (Plugin.settings p) * 60 * 1000) p in
    let p := setSyncIntervalId (Some id) p in
    registerEvents [modify; delete; create] p
  else p.

(** The handler [setupAutoSync] registers for each of the three vault
    events: a debounced call of [performSync()]. *)
Definition onVaultEvent (p : Plugin.t) : Plugin.t :=
  if autoSync (Plugin.settings p) then
    let p := clearIfSet (Plugin.syncTimeoutId p) p in
    let '(id, p) := setTimeout RunSync 5000 p in
    setSyncTimeoutId (Some id) p
  else p.

(** The vault triggers the event [name]: every handler registered for it
    runs, in the order of registration. *)
Definition trigger (name : VaultEventName) (p : Plugin.t) : Plugin.t :=
  fold_left
    (fun p registered =>
       if VaultEventName_eqb registered name then onVaultEvent p else p)
    (Plugin.vaultHandlers p) p.

(** The window fires the timer [id], if it is live. *)
Definition fire (id : positive) (p : Plugin.t) : Plugin.t :=
  match Plugin.timers p !! id with
  | None => p
  | Some timer =>
      let p := if repeats timer then p else clearTimer id p in
      match callback timer with
      | RunSync => requestSync p
      | ShowFrame frameIndex =>
          let p := setText (animationLine frameIndex) p in
          let next :=
            {| repeats := repeats timer; delay := delay timer;
               callback :=
                 ShowFrame (Nat.modulo (frameIndex + 1) (length frames)) |} in
          if repeats timer
          then setTimers (<[id := next]> (Plugin.timers p)) p
          else p
      end
  end.

Definition onunload (p : Plugin.t) : Plugin.t :=
  let p := clearIfSet (Plugin.syncIntervalId p) p in
  let p := clearIfSet (Plugin.syncTimeoutId p) p in
  clearIfSet (Plugin.syncAnimationId p) p.

(** The object [loadData()] resolves to: what [data.json] holds of each
    setting. *)
Record SettingsData := {
  data_clientId : option string;
  data_clientSecret : option string;
  data_folderId : option string;
  data_refreshToken : option string;
  data_lastSyncTime : option Z;
  data_syncInterval : option Z;
  data_autoSync : option bool;
  data_conflictResolution : option ConflictResolution
}.

(** [Object.assign({}, defaults, data)]; [data] is [null] when there is
    no [data.json]. *)
Definition assignSettings (defaults : GoogleDriveSyncSettings)
    (data : option SettingsData) : GoogleDriveSyncSettings :=
  match data with
  | None => defaults
  | Some d =>
      {| clientId := default (clientId defaults) (data_clientId d);
         clientSecret := default (clientSecret defaults) (data_clientSecret d);
         folderId := default (folderId defaults) (data_folderId d);
         refreshToken := default (refreshToken defaults) (data_refreshToken d);
         lastSyncTime := default (lastSyncTime defaults) (data_lastSyncTime d);
         syncInterval := default (syncInterval defaults) (data_syncInterval d);
         autoSync := default (autoSync defaults) (data_autoSync d);
         conflictResolution :=
           default (conflictResolution defaults)
             (data_conflictResolution d) |}
  end.

Definition loadSettings (data : option SettingsData) (p : Plugin.t)
  : Plugin.t :=
  setupAutoSync (setSettingsOf (assignSettings DEFAULT_SETTINGS data) p).

(** The plugin object before [onload]: no timer identifier, nothing
    registered, an empty status bar item.  [nextId] is the next timer
    identifier of the window. *)
Definition newPlugin (nextId : positive) : Plugin.t :=
  {| Plugin.settings := DEFAULT_SETTINGS; Plugin.savedData := None;
     Plugin.statusBarText := "";
     Plugin.syncIntervalId := None; Plugin.syncTimeoutId := None;
     Plugin.syncAnimationId := None;
     Plugin.timers := ∅; Plugin.nextTimerId := nextId;
     Plugin.vaultHandlers := []; Plugin.syncRequests := O |}.

(** [onload], up to the registration of the commands and of the settings
    tab. *)
Definition onload (data : option SettingsData) (nextId : positive)
  : Plugin.t :=
  let p := loadSettings data (newPlugin nextId) in
  let p := updateStatusBar "Ready" p in
  setupAutoSync p.

(** [await this.plugin.saveSettings()] inside a change handler of the
    settings tab, followed by [rest]: when [saveData] rejects
    ([saved = false]) the handler stops there. *)
Definition thenSaved (saved : bool) (rest : Plugin.t -> Plugin.t)
    (p : Plugin.t) : Plugin.t :=
  if saved then rest (setSavedData (Some (Plugin.settings p)) p) else p.

Definition withFolderId (value : string) (s : GoogleDriveSyncSettings) :=
  {| clientId := clientId s; clientSecret := clientSecret s;
     folderId := value; refreshToken := refreshToken s;
     lastSyncTime := lastSyncTime s; syncInterval := syncInterval s;
     autoSync := autoSync s; conflictResolution := conflictResolution s |}.

Definition withRefreshToken (value : string) (s : GoogleDriveSyncSettings) :=
  {| clientId := clientId s; clientSecret := clientSecret s;
     folderId := folderId s; refreshToken := value;
     lastSyncTime := lastSyncTime s; syncInterval := syncInterval s;
     autoSync := autoSync s; conflictResolution := conflictResolution s |}.

Definition withSyncInterval (value : Z) (s : GoogleDriveSyncSettings) :=
  {| clientId := clientId s; clientSecret := clientSecret s;
     folderId := folderId s; refreshToken := refreshToken s;
     lastSyncTime := lastSyncTime s; syncInterval := value;
     autoSync := autoSync s; conflictResolution := conflictResolution s |}.

Definition withAutoSync (value : bool) (s : GoogleDriveSyncSettings) :=
  {| clientId := clientId s; clientSecret := clientSecret s;
     folderId := folderId s; refreshToken := refreshToken s;
     lastSyncTime := lastSyncTime s; syncInterval := syncInterval s;
     autoSync := value; conflictResolution := conflictResolution s |}.

Definition withClientId (value : string) (s : GoogleDriveSyncSettings) :=
  {| clientId := value; clientSecret := clientSecret s;
     folderId := folderId s; refreshToken := refreshToken s;
     lastSyncTime := lastSyncTime s; syncInterval := syncInterval s;
     autoSync := autoSync s; conflictResolution := conflictResolution s |}.

Definition withClientSecret (value : string) (s : GoogleDriveSyncSettings) :=
  {| clientId := clientId s; clientSecret := value;
     folderId := folderId s; refreshToken := refreshToken s;
     lastSyncTime := lastSyncTime s; syncInterval := syncInterval s;
     autoSync := autoSync s; conflictResolution := conflictResolution s |}.

Definition withConflictResolution (value : ConflictResolution)
    (s : GoogleDriveSyncSettings) :=
  {| clientId := clientId s; clientSecret := clientSecret s;
     folderId := folderId s; refreshToken := refreshToken s;
     lastSyncTime := lastSyncTime s; syncInterval := syncInterval s;
     autoSync := autoSync s; conflictResolution := value |}.

(** The six [onChange] handlers of the settings tab. *)
Inductive SettingChange :=
| ChangeClientId (value : string)
| ChangeClientSecret (value : string)
| ChangeFolderId (value : string)
| ChangeSyncInterval (value : Z)
| ChangeAutoSync (value : bool)
| ChangeConflictResolution (value : ConflictResolution).

Definition onChange (change : SettingChange) (saved : bool) (p : Plugin.t)
  : Plugin.t :=
  let s := Plugin.settings p in
  match change with
  | ChangeClientId value =>
      thenSaved saved id (setSettingsOf (withClientId value s) p)
  | ChangeClientSecret value =>
      thenSaved saved id (setSettingsOf (withClientSecret value s) p)
  | ChangeFolderId value =>
      thenSaved saved setupAutoSync (setSettingsOf (withFolderId value s) p)
  | ChangeSyncInterval value =>
      thenSaved saved setupAutoSync
        (setSettingsOf (withSyncInterval value s) p)
  | ChangeAutoSync value =>
      thenSaved saved setupAutoSync (setSettingsOf (withAutoSync value s) p)
  | ChangeConflictResolution value =>
      thenSaved saved id (setSettingsOf (withConflictResolution value s) p)
  end.

(** What [oauth2Client.getToken] passes to its callback: an error, or a
    token object that may lack a [refresh_token], or no token. *)
Inductive TokenReply :=
| ReplyError (message : string)
| ReplyToken (refresh_token : option string)
| ReplyNoToken.

(** The callback [authenticate] passes to [getToken].  [saveSettings()] is
    not awaited there; [saved] tells whether [saveData] stored the
    settings. *)
Definition onTokenReply (reply : TokenReply) (saved : bool) (p : Plugin.t)
  : Plugin.t :=
  match reply with
  | ReplyToken (Some refresh_token) =>
      if truthy refresh_token then
        let p :=
          setSettingsOf (withRefreshToken refresh_token (Plugin.settings p))
            p in
        if saved then setSavedData (Some (Plugin.settings p)) p else p
      else p
  | _ => p
  end.

(** [authenticate]: the browser window and the modal are opened only when
    the client id and the client secret are set; [reply] is what
    [getToken] answers once the user has submitted a code, if the user
    does. *)
Definition authenticate (reply : option TokenReply) (saved : bool)
    (p : Plugin.t) : Plugin.t :=
  let s := Plugin.settings p in
  if negb (truthy (clientId s)) || negb (truthy (clientSecret s)) then p
  else
    match reply with
    | Some reply => onTokenReply reply saved p
    | None => p
    end.

(** The status bar side of [performSync]: nothing when the plugin is not
    configured; otherwise the animation is started, [ticks] of its timer
    fire while the run waits for its calls, the animation is stopped, and
    the status bar is updated unless the run ended in the folder
    validation. *)
Definition performSyncStatus (outcome : Outcome) (ticks : nat)
    (p : Plugin.t) : Plugin.t :=
  match outcome with
  | NotConfigured => p
  | _ =>
      let p := startSyncAnimation p in
      let p :=
        Nat.iter ticks
          (fun p => match Plugin.syncAnimationId p with
                    | Some id => fire id p
                    | None => p
                    end) p in
      let p := stopSyncAnimation p in
      match outcome with
      | Synced n => updateStatusBar (statusMessage n) p
      | SyncFailed _ => updateStatusBar "Sync failed" p
      | _ => p
      end
  end.

(* --------------------------------------------------------------------- *)
(** *** The conflict prompt and the legacy upload *)
(* --------------------------------------------------------------------- *)

(** The three ways the user leaves the prompt of the policy 'ask'. *)
Inductive PromptChoice := KeepLocalVersion | UseRemoteVersion | ClosePrompt.

Section Callbacks.
Variable E : Env.

(** The two callbacks [handleConflict] passes to [showConflictModal];
    [freshAccessToken] is the token [handleConflict] had obtained. *)
Definition onKeepLocal (vaultFile : TFile.t) (driveFile : DriveFile.t)
    (freshAccessToken : string) : M unit :=
  let localFolderPath := parentFolderPath (TFile.path vaultFile) in
  let* localParentId :=
    ensureFolderPathExists E localFolderPath freshAccessToken in
  uploadFileToFolder E vaultFile freshAccessToken localParentId
    (Some (DriveFile.id driveFile)).

Definition onUseRemote (driveFile : DriveFile.t)
    (freshAccessToken : string) : M unit :=
  downloadFile E driveFile freshAccessToken.

(** The buttons of [ConflictModal]: each runs its callback and closes the
    modal; closing the modal runs nothing. *)
Definition promptChoice (choice : PromptChoice) (vaultFile : TFile.t)
    (driveFile : DriveFile.t) (freshAccessToken : string) : M unit :=
  match choice with
  | KeepLocalVersion => onKeepLocal vaultFile driveFile freshAccessToken
  | UseRemoteVersion => onUseRemote driveFile freshAccessToken
  | ClosePrompt => ret tt
  end.

(** [uploadFile], which no other method calls: [uploadFileToFolder] with
    [parents: [this.settings.folderId]]. *)
Definition uploadFile (file : TFile.t) (accessToken : string)
    (fileId : option string) : M unit :=
  let* _ := vaultRead E file in
  let* h := history in
  let* s := getSettings in
  match fileId with
  | Some fid =>
      if truthy fid then
        let uploadResponse := fetch_update E h file fid in
        let* _ := log (EvUploadUpdate file fid uploadResponse) in
        checkUploadResponse uploadResponse
      else
        let uploadResponse := fetch_upload E h file (folderId s) in
        let* _ := log (EvUploadCreate file (folderId s) uploadResponse) in
        checkUploadResponse uploadResponse
  | None =>
      let uploadResponse := fetch_upload E h file (folderId s) in
      let* _ := log (EvUploadCreate file (folderId s) uploadResponse) in
      checkUploadResponse uploadResponse
  end.

End Callbacks.


(* ===================================================================== *)
(** ** Vocabulary of the properties *)
(* ===================================================================== *)

(** *** Kinds of calls *)

(** The calls that move a file between the two stores or remove it from
    the remote one.  The fetch the Content Equality Oracle makes to compare
    digests is not one of them. *)
Definition isTransfer (e : Event) : bool :=
  match e with
  | EvUploadUpdate _ _ _ | EvUploadCreate _ _ _ | EvDownload _ _
  | EvVaultWrite _ _ _ | EvDelete _ _ => true
  | _ => false
  end.

(** The calls [downloadFile] makes: the fetch of the remote content, the
    creation of the local folders and the write into the vault. *)
Definition isDownload (e : Event) : bool :=
  match e with
  | EvDownload _ _ | EvVaultWrite _ _ _ | EvMkdir _ _ => true
  | _ => false
  end.

(** The calls made on behalf of conflict handling: the fetch of the
    oracle and the prompt of the interactive policy. *)
Definition isConflictHandling (e : Event) : bool :=
  match e with
  | EvCompareFetch _ _ | EvConflictModal _ _ => true
  | _ => false
  end.

Definition isListFolder (e : Event) : Prop :=
  match e with EvListFolder _ _ => True | _ => False end.

(** A transfer that fails: an upload or a download that is rejected or
    answered with a status that is not OK, a delete call that is
    rejected. *)
Definition failedTransfer (e : Event) : bool :=
  match e with
  | EvUploadUpdate _ _ r => negb (resp_ok r)
  | EvUploadCreate _ _ r => negb (resp_ok r)
  | EvDownload _ r => negb (resp_ok r)
  | EvDelete _ (NetError _) => true
  | _ => false
  end.

(** A folder call of the materializer that fails: a creation that is
    rejected or answered with a status that is not OK, a search that is
    rejected. *)
Definition failedFolderCall (e : Event) : bool :=
  match e with
  | EvCreateFolder _ _ _ r => negb (resp_ok r)
  | EvFindFolder _ _ (NetError _) => true
  | _ => false
  end.

(** The failures after which nothing more happens in a run. *)
Definition aborting (e : Event) : bool :=
  failedTransfer e || failedFolderCall e.

(** The cumulative paths for which a folder creation call was made, in the
    order of the calls. *)
Fixpoint createdPaths (evs : list Event) : list string :=
  match evs with
  | [] => []
  | EvCreateFolder forPath _ _ _ :: evs' => forPath :: createdPaths evs'
  | _ :: evs' => createdPaths evs'
  end.

Definition creations (p : string) (evs : list Event) : nat :=
  count_occ string_dec (createdPaths evs) p.

(** The test at the top of [performSync]. *)
Definition configured (s : GoogleDriveSyncSettings) : bool :=
  truthy (refreshToken s) && truthy (folderId s).

(** *** Paths *)

(** The value of [currentPath] after the loop of [ensureFolderPathExists]
    has walked [segments] from [currentPath]. *)
Definition pathOf (segments : list string) (currentPath : string) : string :=
  fold_left extendPath segments currentPath.

(** The length of the pieces of a split string, separators included. *)
Definition weight (pieces : list string) : nat :=
  fold_right (fun x acc => S (String.length x + acc)) O pieces.

Definition truthySegments (segs : list string) : Prop :=
  Forall (fun s => truthy s = true) segs.

(** Segments as the walk of [ensureFolderPathExists] meets them: not empty
    and without a slash. *)
Definition goodSegments (segs : list string) : Prop :=
  Forall (fun s => truthy s = true /\ includes "/" s = false) segs.

(** A path in normal form: not empty, and equal to its own segments joined
    by slashes.  The keys of [folderIdCache] are of this kind. *)
Definition normalPath (k : string) : Prop :=
  truthy k = true /\ pathOf (List.filter truthy (split "/" k)) "" = k.

Definition normalKeys (c : gmap string string) : Prop :=
  forall k v, c !! k = Some v -> normalPath k.

(** *** Relations between the worlds before and after a computation *)

Definition is_ok {A} (r : Res A) : bool :=
  match r with Ok _ => true | Throw _ => false end.

(** A step relation relates the world before a computation, whether the
    computation returned, and the world after it. *)
Definition StepRel : Type := World -> bool -> World -> Prop.

(** The relations that sequencing preserves. *)
Class Compositional (R : StepRel) : Prop := {
  comp_refl : forall w b, R w b w;
  comp_trans : forall w w1 w2 b, R w true w1 -> R w1 b w2 -> R w b w2
}.

Definition satAt {A} (R : StepRel) (m : M A) (w : World) : Prop :=
  R w (is_ok (fst (m w))) (snd (m w)).

Definition sat {A} (R : StepRel) (m : M A) : Prop := forall w, satAt R m w.

(** What licenses each call of the transfer phase, given the direction flags
    of the run and the settings [s0] the run started with: a download needs
    [fromDrive], or a conflict resolved under 'keep-remote' in a run with
    [toDrive]; a delete needs both flags and a file not modified since the
    watermark; every call of the upload side, the oracle and the resolver
    included, needs [toDrive]. *)
Definition downloadsAllowed (toDrive fromDrive : bool)
    (s0 : GoogleDriveSyncSettings) : Prop :=
  fromDrive = true \/ (toDrive = true /\ conflictResolution s0 = keep_remote).

Definition justified (toDrive fromDrive : bool)
    (s0 : GoogleDriveSyncSettings) (e : Event) : Prop :=
  match e with
  | EvDelete d _ =>
      toDrive = true /\ fromDrive = true /\
      DriveFile.modifiedTime d <= lastSyncTime s0 + 2000
  | EvDownload _ _ | EvVaultWrite _ _ _ | EvMkdir _ _ =>
      downloadsAllowed toDrive fromDrive s0
  | EvCompareFetch _ _ | EvConflictModal _ _ | EvFindFolder _ _ _
  | EvCreateFolder _ _ _ _ | EvUploadUpdate _ _ _ | EvUploadCreate _ _ _
  | EvVaultRead _ _ => toDrive = true
  | _ => True
  end.

(** The events [evs] of a computation that returned ([b = true]) or threw:
    all are justified, and none is a failure except possibly the last one
    of a computation that threw. *)
Definition orderly (toDrive fromDrive : bool)
    (s0 : GoogleDriveSyncSettings) (b : bool) (evs : list Event) : Prop :=
  Forall (justified toDrive fromDrive s0) evs /\
  Forall (fun e => aborting e = false) (if b then evs else removelast evs).

(** At most one creation call was made for each path since the history
    counted by [base], and, as long as nothing threw, a path for which one
    was made is in the cache. *)
Definition onceInv (base : string -> nat) (b : bool) (w : World) : Prop :=
  forall p,
    (base p <= creations p (trace w) <= S (base p))%nat /\
    (b = true -> (base p < creations p (trace w))%nat ->
     is_Some (folderIdCache w !! p)).

(** The relation every part of the transfer phase satisfies: started with
    the settings [s0], it leaves the settings and the stored settings
    alone, keeps [onceInv], and adds an orderly sequence of events. *)
Definition runRel (toDrive fromDrive : bool)
    (s0 : GoogleDriveSyncSettings) (base : string -> nat) : StepRel :=
  fun w b w' =>
    settings w = s0 -> onceInv base true w ->
    settings w' = s0 /\ stored w' = stored w /\ onceInv base b w' /\
    exists evs, trace w' = (trace w ++ evs)%list /\
                orderly toDrive fromDrive s0 b evs.

Scheme Listing_ind2 := Induction for Listing Sort Prop
  with Items_ind2 := Induction for Items Sort Prop.
Combined Scheme Listing_Items_ind from Listing_ind2, Items_ind2.
(* ===================================================================== *)
(** ** Vocabulary of the further properties *)
(* ===================================================================== *)

(** *** Local folders *)

(** The values [currentPath] takes while a loop walks [segments], starting
    from [currentPath]. *)
Fixpoint cumulativePaths (segments : list string) (currentPath : string)
  : list string :=
  match segments with
  | [] => []
  | segment :: rest =>
      extendPath currentPath segment ::
      cumulativePaths rest (extendPath currentPath segment)
  end.

Definition isMkdir (e : Event) : bool :=
  match e with EvMkdir _ _ => true | _ => false end.

(** The paths of the [mkdir] calls, in the order of the calls. *)
Fixpoint mkdirPaths (evs : list Event) : list string :=
  match evs with
  | [] => []
  | EvMkdir path _ :: evs' => path :: mkdirPaths evs'
  | _ :: evs' => mkdirPaths evs'
  end.

(** *** Listings *)

(** A listing call that was answered. *)
Definition okListing (e : Event) : bool :=
  match e with EvListFolder _ ok => ok | _ => false end.

(** What the walker returns is a file, not a folder, and its path is the
    path of some folder extended by its name. *)
Definition walkedFile (f : DriveFile.t) : Prop :=
  String.eqb (DriveFile.mimeType f) FOLDER_MIME = false /\
  exists dir, DriveFile.path f = extendPath dir (DriveFile.name f).

(** *** Kinds of calls and footprints *)

Inductive CallKind :=
| KToken | KValidate | KList | KFind | KCreate | KRead | KUpload
| KDownload | KMkdir | KWrite | KCompare | KDelete | KModal | KSave.

Definition kindOf (e : Event) : CallKind :=
  match e with
  | EvGetAccessToken _ => KToken
  | EvValidateFolder _ _ => KValidate
  | EvListFolder _ _ => KList
  | EvFindFolder _ _ _ => KFind
  | EvCreateFolder _ _ _ _ => KCreate
  | EvVaultRead _ _ => KRead
  | EvUploadUpdate _ _ _ | EvUploadCreate _ _ _ => KUpload
  | EvDownload _ _ => KDownload
  | EvMkdir _ _ => KMkdir
  | EvVaultWrite _ _ _ => KWrite
  | EvCompareFetch _ _ => KCompare
  | EvDelete _ _ => KDelete
  | EvConflictModal _ _ => KModal
  | EvSaveData _ _ => KSave
  end.

(** The calls of a computation are all of the kinds [kinds]; the settings
    and the stored settings are left alone. *)
Definition emits (kinds : list CallKind) : StepRel :=
  fun w _ w' =>
    settings w' = settings w /\ stored w' = stored w /\
    exists evs, trace w' = (trace w ++ evs)%list /\
                Forall (fun e => In (kindOf e) kinds) evs.

(** The kinds of calls the loop over the vault files can make (with the
    token requested before the loop over the Drive files), and the kinds
    the loop over the Drive files can make. *)
Definition vaultLoopKinds : list CallKind :=
  [KToken; KFind; KCreate; KRead; KUpload; KCompare; KModal;
   KDownload; KMkdir; KWrite].

Definition driveLoopKinds : list CallKind :=
  [KDownload; KMkdir; KWrite; KDelete].

(** *** Counting the calls of a run *)

Definition countIf (p : Event -> bool) (evs : list Event) : nat :=
  length (List.filter p evs).

(** The requests that send the content of a vault file to Drive. *)
Definition isUploadRequest (e : Event) : bool :=
  match e with
  | EvUploadUpdate _ _ _ | EvUploadCreate _ _ _ => true
  | _ => false
  end.

(** The requests [downloadFile] makes for the content of a Drive file. *)
Definition isDownloadFetch (e : Event) : bool :=
  match e with EvDownload _ _ => true | _ => false end.

(** The delete requests that Drive answered with an OK status. *)
Definition isOkDelete (e : Event) : bool :=
  match e with EvDelete _ (RespOk _) => true | _ => false end.

Definition isTokenRequest (e : Event) : bool :=
  match e with EvGetAccessToken _ => true | _ => false end.

(** The conflicts a policy resolves by a transfer of its own: all of them
    when the settings hold [policy], none otherwise. *)
Definition resolvedBy (policy : ConflictResolution)
    (s : GoogleDriveSyncSettings) (n : Counters) : nat :=
  match policy, conflictResolution s with
  | overwrite, overwrite => conflicts n
  | keep_remote, keep_remote => conflicts n
  | _, _ => O
  end.

(** The calls [evs] are accounted for by the counters [n], beyond
    [tokens0] token requests. *)
Definition accountedBy (s : GoogleDriveSyncSettings) (tokens0 : nat)
    (n : Counters) (evs : list Event) : Prop :=
  countIf isUploadRequest evs = (uploaded n + resolvedBy overwrite s n)%nat /\
  countIf isDownloadFetch evs =
    (downloaded n + resolvedBy keep_remote s n)%nat /\
  countIf isOkDelete evs = deleted n /\
  countIf isTokenRequest evs = (tokens0 + conflicts n)%nat.

(** A computation added, to the world [w], calls that count for [u]
    uploads, [d] downloads, [x] deletions and [t] token requests. *)
Definition adds (u d x t : nat) (w w' : World) : Prop :=
  settings w' = settings w /\
  exists evs, trace w' = (trace w ++ evs)%list /\
    countIf isUploadRequest evs = u /\ countIf isDownloadFetch evs = d /\
    countIf isOkDelete evs = x /\ countIf isTokenRequest evs = t.

(** In the world [w], reached under the settings [s], the calls made since
    the history [h] are accounted for by the counters [n]. *)
Definition accounted (s : GoogleDriveSyncSettings) (h : list Event)
    (tokens0 : nat) (n : Counters) (w : World) : Prop :=
  settings w = s /\
  exists evs, trace w = (h ++ evs)%list /\ accountedBy s tokens0 n evs.

(** *** Timers *)

(** The three roles a timer of the plugin can have: the auto-sync
    interval, the debounce timeout of the vault handlers, the animation
    interval. *)
Inductive TimerRole := SyncInterval | SyncTimeout | AnimationInterval.

#[global] Instance TimerRole_eq_dec : EqDecision TimerRole.
Proof. solve_decision. Defined.

Definition timerRole (timer : Timer) : option TimerRole :=
  match callback timer, repeats timer with
  | RunSync, true => Some SyncInterval
  | RunSync, false => Some SyncTimeout
  | ShowFrame _, true => Some AnimationInterval
  | ShowFrame _, false => None
  end.

(** The identifier the plugin keeps for a role. *)
Definition idOf (role : TimerRole) (p : Plugin.t) : option positive :=
  match role with
  | SyncInterval => Plugin.syncIntervalId p
  | SyncTimeout => Plugin.syncTimeoutId p
  | AnimationInterval => Plugin.syncAnimationId p
  end.

(** Every live timer is the one the plugin keeps the identifier of, for
    its role; the frame index of an animation is within the frames; and
    the identifiers in use are older than the next one. *)
Definition tidy (p : Plugin.t) : Prop :=
  (forall id timer, Plugin.timers p !! id = Some timer ->
     (id < Plugin.nextTimerId p)%positive /\
     exists role, timerRole timer = Some role /\ idOf role p = Some id /\
       forall k, callback timer = ShowFrame k -> (k < length frames)%nat) /\
  (forall role id, idOf role p = Some id ->
     (id < Plugin.nextTimerId p)%positive).

(** What can happen to a loaded plugin, one step at a time: a call of
    [setupAutoSync], a vault event, a timer that fires, the start and the
    stop of the animation, an update of the status bar, a change in the
    settings tab, an authentication, [onunload]. *)
Inductive Action :=
| DoSetupAutoSync
| DoTrigger (name : VaultEventName)
| DoFire (id : positive)
| DoStartSyncAnimation
| DoStopSyncAnimation
| DoUpdateStatusBar (text : string)
| DoChange (change : SettingChange) (saved : bool)
| DoAuthenticate (reply : option TokenReply) (saved : bool)
| DoUnload.

Definition act (a : Action) (p : Plugin.t) : Plugin.t :=
  match a with
  | DoSetupAutoSync => setupAutoSync p
  | DoTrigger name => trigger name p
  | DoFire id => fire id p
  | DoStartSyncAnimation => startSyncAnimation p
  | DoStopSyncAnimation => stopSyncAnimation p
  | DoUpdateStatusBar text => updateStatusBar text p
  | DoChange change saved => onChange change saved p
  | DoAuthenticate reply saved => authenticate reply saved p
  | DoUnload => onunload p
  end.

Definition actAll (actions : list Action) (p : Plugin.t) : Plugin.t :=
  fold_left (fun p a => act a p) actions p.

(** The number of handlers registered for a vault event. *)
Definition handlersFor (name : VaultEventName) (p : Plugin.t) : nat :=
  length (List.filter (fun registered => VaultEventName_eqb registered name)
            (Plugin.vaultHandlers p)).

(** The timeout a vault handler sets, the interval [setupAutoSync] sets
    under the settings [s], and the interval of the animation when its
    next frame is [frameIndex]. *)
Definition debounceTimer : Timer :=
  {| repeats := false; delay := 5000; callback := RunSync |}.

Definition autoSyncTimer (s : GoogleDriveSyncSettings) : Timer :=
  {| repeats := true; delay := syncInterval s * 60 * 1000;
     callback := RunSync |}.

Definition animationTimer (frameIndex : nat) : Timer :=
  {| repeats := true; delay := 100; callback := ShowFrame frameIndex |}.

(** One tick of the animation: the window fires the timer the plugin keeps
    as [syncAnimationId]. *)
Definition animationTick (p : Plugin.t) : Plugin.t :=
  match Plugin.syncAnimationId p with
  | Some id => fire id p
  | None => p
  end.

(** *** Numerals *)

Definition isDigit (c : ascii) : bool :=
  Nat.leb 48 (nat_of_ascii c) && Nat.leb (nat_of_ascii c) 57.

Fixpoint allDigits (s : string) : bool :=
  match s with
  | EmptyString => true
  | String c s' => isDigit c && allDigits s'
  end.

(** A string that does not go on with a digit. *)
Definition endsNumeral (s : string) : Prop :=
  match s with
  | EmptyString => True
  | String c _ => isDigit c = false
  end.

(** *** The status message *)

(** The part of the status message after ["Synced - "], when something
    changed. *)
Definition statusCounts (n : Counters) : string :=
  pretty (uploaded n) ++ UP_ARROW ++ " " ++ pretty (downloaded n) ++
  DOWN_ARROW ++
  (if Nat.ltb 0 (deleted n)
   then " " ++ pretty (deleted n) ++ WASTEBASKET else "") ++
  (if Nat.ltb 0 (conflicts n)
   then " " ++ pretty (conflicts n) ++ WARNING_SIGN else "").

(** *** Where new files go *)

(** The folder ids Drive gave in answer to the folder calls of [evs]: the
    first match of a search, the id of a created folder. *)
Fixpoint givenIds (evs : list Event) : list string :=
  match evs with
  | [] => []
  | EvFindFolder _ _ (RespOk (id :: _)) :: evs' => id :: givenIds evs'
  | EvCreateFolder _ _ _ (RespOk id) :: evs' => id :: givenIds evs'
  | _ :: evs' => givenIds evs'
  end.

(** The parent folders named by the requests of [evs] that create a
    file. *)
Fixpoint createParents (evs : list Event) : list string :=
  match evs with
  | [] => []
  | EvUploadCreate _ parentFolderId _ :: evs' =>
      parentFolderId :: createParents evs'
  | _ :: evs' => createParents evs'
  end.

(** Since the history [h0], under the settings [s0]: every id in the
    cache was given by Drive, and every file was created under the sync
    root or under a folder whose id was given by Drive. *)
Definition provenanceInv (s0 : GoogleDriveSyncSettings) (h0 : list Event)
    (w : World) : Prop :=
  settings w = s0 /\
  exists evs, trace w = (h0 ++ evs)%list /\
    (forall k v, folderIdCache w !! k = Some v -> In v (givenIds evs)) /\
    (forall parent, In parent (createParents evs) ->
       parent = folderId s0 \/ In parent (givenIds evs)).

Definition provenance (s0 : GoogleDriveSyncSettings) (h0 : list Event)
  : StepRel :=
  fun w _ w' => provenanceInv s0 h0 w -> provenanceInv s0 h0 w'.


(* ===================================================================== *)
(** ** Closed scenarios *)
(* ===================================================================== *)

(** In the closed scenarios the digest of a content is the content itself,
    so that two contents have the same digest exactly when they are
    equal. *)
Definition plainDigest (content : string) : string := content.

Definition localFile (path name : string) (mtime size : Z) : TFile.t :=
  {| TFile.path := path; TFile.name := name;
     TFile.mtime := mtime; TFile.size := size |}.

(** A remote Markdown file at the top of the synchronised folder. *)
Definition remoteFile (id name : string) (mtime size : Z) : DriveFile.t :=
  {| DriveFile.id := id; DriveFile.name := name;
     DriveFile.modifiedTime := mtime; DriveFile.size := Some size;
     DriveFile.mimeType := "text/markdown"; DriveFile.path := name |}.

Definition remoteItem (id name : string) (mtime size : Z) (rest : Items)
  : Items :=
  Item id name "text/markdown" mtime (Some size) (ListOk NoItems) rest.

Definition scenarioSettings (lastSync : Z) (policy : ConflictResolution)
  : GoogleDriveSyncSettings :=
  {| clientId := "client"; clientSecret := "secret"; folderId := "ROOT";
     refreshToken := "refresh"; lastSyncTime := lastSync;
     syncInterval := 15; autoSync := true; conflictResolution := policy |}.

Definition scenarioWorld (lastSync : Z) (policy : ConflictResolution)
  : World :=
  {| settings := scenarioSettings lastSync policy;
     stored := scenarioSettings lastSync policy;
     folderIdCache := ∅; trace := [] |}.

Definition scenarioNow : Z := 1700000000000.

(** Two answers with a status that is not OK. *)
Definition forbidden {A} : Resp A := RespStatus 403 "Forbidden".
Definition serverError {A} : Resp A :=
  RespStatus 500 "Internal Server Error".

(** Collaborators that answer every call the same way: the vault holds
    [vaultFiles], each with the content [localContent]; the remote folder
    lists [remote], each file with the content [remoteContent]; folder
    searches are answered with [findResponse], deletions with
    [deleteResponse]; everything else succeeds. *)
Definition scenarioEnv (vaultFiles : list TFile.t) (remote : Items)
    (localContent remoteContent : string)
    (findResponse : Resp (list string)) (deleteResponse : Resp unit) : Env :=
  {| getAccessToken := fun _ => Some "token";
     fetch_metadata := fun _ _ => RespOk ("Vault", FOLDER_MIME);
     remote_listing := fun _ => ListOk remote;
     fetch_find := fun _ _ _ => findResponse;
     fetch_create := fun _ folderName _ => RespOk ("id-of-" ++ folderName);
     fetch_update := fun _ _ _ => RespOk tt;
     fetch_upload := fun _ _ _ => RespOk tt;
     fetch_media := fun _ _ => RespOk remoteContent;
     fetch_delete := fun _ _ => deleteResponse;
     vault_getFiles := fun _ => vaultFiles;
     vault_read := fun _ _ => Some localContent;
     vault_write := fun _ _ _ => true;
     vault_mkdir := fun _ _ => true;
     date_now := fun _ => scenarioNow;
     saveData := fun _ _ => true;
     rejection := fun _ => "Failed to fetch" |}.

(** A note changed on both sides since the last sync, at watermark 1000. *)
Definition noteLocal : TFile.t := localFile "a.md" "a.md" 20000 1.
Definition noteRemote : DriveFile.t := remoteFile "id-a" "a.md" 30000 1.

Definition conflictEnv : Env :=
  scenarioEnv [noteLocal] (remoteItem "id-a" "a.md" 30000 1 NoItems)
    "X" "Y" (RespOk []) (RespOk tt).

(** Two remote files that the vault does not have, at watermark 5000: one
    not modified since the last sync, one modified after it. *)
Definition staleRemote : DriveFile.t := remoteFile "id-old" "old.md" 1000 3.
Definition recentRemote : DriveFile.t := remoteFile "id-new" "new.md" 90000 3.

Definition remoteOnlyEnv (deleteResponse : Resp unit) : Env :=
  scenarioEnv []
    (remoteItem "id-old" "old.md" 1000 3
       (remoteItem "id-new" "new.md" 90000 3 NoItems))
    "" "new" (RespOk []) deleteResponse.

(** Two new notes in the same deep directory, nothing on the remote side;
    [findResponse] answers the folder searches. *)
Definition entryLocal : TFile.t :=
  localFile "notes/2024/jan/entry.md" "entry.md" 20000 5.
Definition otherLocal : TFile.t :=
  localFile "notes/2024/jan/other.md" "other.md" 20000 5.

Definition deepPathEnv (findResponse : Resp (list string)) : Env :=
  scenarioEnv [entryLocal; otherLocal] NoItems "hello" ""
    findResponse (RespOk tt).

(** The same note with the same content on both sides. *)
Definition identicalEnv : Env :=
  scenarioEnv [noteLocal] (remoteItem "id-a" "a.md" 30000 1 NoItems)
    "X" "X" (RespOk []) (RespOk tt).

(** The worlds after [notes/2024/jan] has been materialized on an empty
    remote folder, and after [notes/2024/feb] has been materialized next. *)
Definition janWorld : World :=
  snd (ensureFolderPathExists (deepPathEnv (RespOk [])) "notes/2024/jan"
         "token" (scenarioWorld 5000 overwrite)).

Definition febWorld : World :=
  snd (ensureFolderPathExists (deepPathEnv (RespOk [])) "notes/2024/feb"
         "token" janWorld).

(* --------------------------------------------------------------------- *)
(** *** Scenarios of the further properties *)
(* --------------------------------------------------------------------- *)

(** A remote folder that cannot be listed completely: the sync folder
    lists the folder [sub] and the note, and the request for the items of
    [sub] is answered with the status 500. *)
Definition failedListingEnv : Env :=
  scenarioEnv [noteLocal]
    (Item "id-sub" "sub" FOLDER_MIME 0 None
       (ListStatus 500 "Internal Server Error")
       (remoteItem "id-a" "a.md" 30000 1 NoItems))
    "X" "Y" (RespOk []) (RespOk tt).

(** The sync folder is gone from Drive: the metadata request is answered
    with the status 404, everything else as in [conflictEnv]. *)
Definition invalidFolderEnv : Env :=
  {| getAccessToken := getAccessToken conflictEnv;
     fetch_metadata := fun _ _ => RespStatus 404 "Not Found";
     remote_listing := remote_listing conflictEnv;
     fetch_find := fetch_find conflictEnv;
     fetch_create := fetch_create conflictEnv;
     fetch_update := fetch_update conflictEnv;
     fetch_upload := fetch_upload conflictEnv;
     fetch_media := fetch_media conflictEnv;
     fetch_delete := fetch_delete conflictEnv;
     vault_getFiles := vault_getFiles conflictEnv;
     vault_read := vault_read conflictEnv;
     vault_write := vault_write conflictEnv;
     vault_mkdir := vault_mkdir conflictEnv;
     date_now := date_now conflictEnv;
     saveData := saveData conflictEnv;
     rejection := rejection conflictEnv |}.

(** The [data.json] of a plugin that has been set up, with auto-sync on
    and the default interval, and the plugin loaded from it in a window
    whose next timer identifier is 1. *)
Definition syncedData : SettingsData :=
  {| data_clientId := Some "client"; data_clientSecret := Some "secret";
     data_folderId := Some "ROOT"; data_refreshToken := Some "refresh";
     data_lastSyncTime := Some 1000%Z; data_syncInterval := None;
     data_autoSync := Some true; data_conflictResolution := None |}.

Definition loadedPlugin : Plugin.t := onload (Some syncedData) 1.

(* ===================================================================== *)
(** ** Properties *)
(* ===================================================================== *)

(* --------------------------------------------------------------------- *)
(** *** Sequencing preserves compositional relations *)
(* --------------------------------------------------------------------- *)

Section Framework.
Context (R : StepRel) `{!Compositional R}.

Lemma sat_ret {A} (a : A) : sat R (ret a).
Proof. intros w. unfold satAt. simpl. apply comp_refl. Qed.

Lemma sat_throw {A} msg : sat R (@throw A msg).
Proof. intros w. unfold satAt. simpl. apply comp_refl. Qed.

Lemma satAt_bind {A B} (m : M A) (k : A -> M B) w :
  satAt R m w ->
  (forall a w1, m w = (Ok a, w1) -> satAt R (k a) w1) ->
  satAt R (bind m k) w.
Proof.
  unfold satAt, bind. intros Hm Hk.
  destruct (m w) as [[a|msg] w1] eqn:Hmw; simpl in *; [|exact Hm].
  eapply comp_trans; [exact Hm|by apply Hk].
Qed.

Lemma sat_bind {A B} (m : M A) (k : A -> M B) :
  sat R m -> (forall a, sat R (k a)) -> sat R (bind m k).
Proof. intros Hm Hk w. apply satAt_bind; [apply Hm|intros; apply Hk]. Qed.

Lemma sat_forEach {A S} (body : A -> S -> M S) :
  (forall x s, sat R (body x s)) -> forall l s, sat R (forEach l body s).
Proof.
  intros Hb l. induction l as [|x l IH]; intros s; simpl.
  - apply sat_ret.
  - apply sat_bind; [apply Hb|intros s'; apply IH].
Qed.

Lemma sat_history : sat R history.
Proof. intros w. unfold satAt. simpl. apply comp_refl. Qed.

Lemma sat_getSettings : sat R getSettings.
Proof. intros w. unfold satAt. simpl. apply comp_refl. Qed.

Lemma sat_getCache : sat R getCache.
Proof. intros w. unfold satAt. simpl. apply comp_refl. Qed.

End Framework.

(* --------------------------------------------------------------------- *)
(** *** The run relation *)
(* --------------------------------------------------------------------- *)

Lemma removelast_app_cases {A} (l1 l2 : list A) :
  removelast (l1 ++ l2) = (if l2 is [] then removelast l1
                           else l1 ++ removelast l2)%list.
Proof.
  destruct l2 as [|x l2].
  - by rewrite app_nil_r.
  - by rewrite removelast_app.
Qed.

Lemma Forall_removelast {A} (P : A -> Prop) (l : list A) :
  Forall P l -> Forall P (removelast l).
Proof.
  induction 1 as [|x l Hx Hl IH]; simpl; [constructor|].
  destruct l; [constructor|]. constructor; [done|apply IH].
Qed.

Lemma orderly_nil toDrive fromDrive s0 b : orderly toDrive fromDrive s0 b [].
Proof. split; destruct b; constructor. Qed.

Lemma orderly_app toDrive fromDrive s0 e1 e2 b :
  orderly toDrive fromDrive s0 true e1 -> orderly toDrive fromDrive s0 b e2 ->
  orderly toDrive fromDrive s0 b (e1 ++ e2).
Proof.
  intros [J1 A1] [J2 A2]. split; [apply Forall_app; by split|].
  destruct b.
  - apply Forall_app. by split.
  - rewrite removelast_app_cases. destruct e2.
    + by apply Forall_removelast.
    + apply Forall_app. by split.
Qed.

Lemma orderly_weaken toDrive fromDrive s0 b evs :
  orderly toDrive fromDrive s0 true evs -> orderly toDrive fromDrive s0 b evs.
Proof.
  intros [J A]. split; [done|]. destruct b; [done|by apply Forall_removelast].
Qed.

Lemma createdPaths_app e1 e2 :
  createdPaths (e1 ++ e2) = (createdPaths e1 ++ createdPaths e2)%list.
Proof.
  induction e1 as [|e e1 IH]; [done|]. destruct e; simpl; by rewrite ?IH.
Qed.

Lemma creations_app p e1 e2 :
  creations p (e1 ++ e2) = (creations p e1 + creations p e2)%nat.
Proof. unfold creations. by rewrite createdPaths_app, count_occ_app. Qed.

Lemma onceInv_weaken base b w : onceInv base true w -> onceInv base b w.
Proof.
  intros H p. destruct (H p) as [Hb Hc]. split; [done|].
  intros _. by apply Hc.
Qed.

(** A step that makes no creation call and forgets no cached path keeps
    the invariant. *)
Lemma onceInv_neutral base b w w' evs :
  trace w' = (trace w ++ evs)%list -> createdPaths evs = [] ->
  (forall p, is_Some (folderIdCache w !! p) ->
             is_Some (folderIdCache w' !! p)) ->
  onceInv base true w -> onceInv base b w'.
Proof.
  intros Ht Hc Hcache H p. destruct (H p) as [Hb Hs].
  assert (creations p (trace w') = creations p (trace w)) as ->.
  { rewrite Ht, creations_app. unfold creations at 2. rewrite Hc. simpl.
    lia. }
  split; [done|]. intros _ Hlt. apply Hcache. by apply Hs.
Qed.

Global Instance runRel_compositional toDrive fromDrive s0 base :
  Compositional (runRel toDrive fromDrive s0 base).
Proof.
  split; unfold runRel.
  - intros w b Hs Hi. split_and!; [done|done|by apply onceInv_weaken|].
    exists []. split; [by rewrite app_nil_r|apply orderly_nil].
  - intros w w1 w2 b H1 H2 Hs Hi.
    destruct (H1 Hs Hi) as (Hs1 & Hst1 & Hi1 & e1 & Ht1 & O1).
    destruct (H2 Hs1 Hi1) as (Hs2 & Hst2 & Hi2 & e2 & Ht2 & O2).
    split_and!; [done|congruence|done|]. exists (e1 ++ e2)%list.
    split; [by rewrite Ht2, Ht1, app_assoc|by apply orderly_app].
Qed.

Lemma runRel_intro toDrive fromDrive s0 base w b w' evs :
  settings w' = settings w -> stored w' = stored w ->
  (forall p, is_Some (folderIdCache w !! p) ->
             is_Some (folderIdCache w' !! p)) ->
  trace w' = (trace w ++ evs)%list ->
  createdPaths evs = [] ->
  (settings w = s0 -> orderly toDrive fromDrive s0 b evs) ->
  runRel toDrive fromDrive s0 base w b w'.
Proof.
  intros Hs Hst Hc Ht Hn HO Hw Hi. split_and!; [congruence|done| |].
  - by eapply onceInv_neutral.
  - exists evs. split; [done|by apply HO].
Qed.

(* --------------------------------------------------------------------- *)
(** *** Calls, one by one *)
(* --------------------------------------------------------------------- *)

Lemma extend_extend w e1 e2 : extend (extend w e1) e2 = extend w (e1 ++ e2).
Proof. unfold extend; simpl. by rewrite app_assoc. Qed.

(** The remote walker only lists folders. *)
Lemma walker_events :
  (forall listing folder currentPath allFiles,
     Forall isListFolder
       (fst (getDriveItemsRecursive folder currentPath listing allFiles))) /\
  (forall items currentPath evs allFiles,
     Forall isListFolder evs ->
     Forall isListFolder (fst (itemsLoop currentPath items evs allFiles))).
Proof.
  apply Listing_Items_ind.
  - intros. simpl. by repeat constructor.
  - intros. simpl. by repeat constructor.
  - intros items IH folder currentPath allFiles. simpl. apply IH.
    by repeat constructor.
  - intros. done.
  - intros id name mimeType modifiedTime size children IHc rest IHr
      currentPath evs allFiles Hevs. simpl.
    destruct (String.eqb mimeType FOLDER_MIME).
    + specialize (IHc id
        (if truthy currentPath then slashJoin currentPath name else name)
        allFiles).
      destruct (getDriveItemsRecursive _ _ children allFiles)
        as [evs' [a|msg]];
        simpl in *.
      * apply IHr. apply Forall_app. by split.
      * apply Forall_app. by split.
    + by apply IHr.
Qed.


(** Unfolding of the monad, case analysis on the answers of the
    collaborators, and the side conditions of [runRel_intro]. *)
Ltac run_simpl :=
  unfold checkUploadResponse, bind, try_catch, ret, throw, rejected, log,
    logAll, history, getSettings, getCache, setCache, setSettings,
    setStored; simpl.

Ltac case_env :=
  match goal with
  | |- context [match ?x with _ => _ end] =>
      lazymatch x with
      | context [match _ with _ => _ end] => fail
      | _ => destruct x eqn:?; simpl
      end
  end.

Ltac trace_eq :=
  simpl; first [ symmetry; apply app_nil_r
               | rewrite <- ?app_assoc; reflexivity ].

Ltac event_ok :=
  unfold aborting; simpl; auto;
  try match goal with
      | H : resp_ok ?r = true |- context [resp_ok ?r] => by rewrite H
      end.

Ltac forall_events :=
  simpl; repeat (apply List.Forall_cons; [event_ok|]);
  try apply List.Forall_nil.

Ltac orderly_tac := intros ?; split; forall_events.

Ltac s_ret := apply sat_ret; apply _.
Ltac s_bind := apply sat_bind; [apply _| |intros ?].
Ltac s_bind_at := apply satAt_bind; [apply _| |].
Ltac s_forEach := apply sat_forEach; [apply _|intros ? ?].
Ltac s_get :=
  first [ apply sat_history | apply sat_getSettings | apply sat_getCache ];
  apply _.
(** Bind of a pure read of the world: the value read is substituted. *)
Ltac s_read := s_bind_at; [s_get|intros ? ? [= <- <-]]; simpl.

Ltac unit_case :=
  eapply runRel_intro;
  [reflexivity|reflexivity|by intros ? ?|trace_eq|reflexivity|orderly_tac].


(* --------------------------------------------------------------------- *)
(** *** Every part of the transfer phase satisfies the run relation *)
(* --------------------------------------------------------------------- *)

Section RunRel.
Variable md5 : string -> string.
Variable E : Env.
Variables toDrive fromDrive : bool.
Variable s0 : GoogleDriveSyncSettings.
Variable base : string -> nat.

Local Abbreviation R := (runRel toDrive fromDrive s0 base).

Lemma freshAccessToken_sat msg : sat R (freshAccessToken E msg).
Proof.
  intros w. unfold satAt, freshAccessToken. run_simpl.
  repeat case_env; unit_case.
Qed.

Lemma validateDriveFolder_sat tok : sat R (validateDriveFolder E tok).
Proof.
  intros w. unfold satAt, validateDriveFolder. run_simpl.
  repeat case_env; unit_case.
Qed.

Lemma getDriveFilesRecursive_sat tok : sat R (getDriveFilesRecursive E tok).
Proof.
  intros w. unfold satAt, getDriveFilesRecursive. run_simpl.
  pose proof (proj1 walker_events (remote_listing E (trace w))
                (folderId (settings w)) "" []) as Hev.
  destruct (getDriveItemsRecursive _ _ _ _) as [evs [files|]]; simpl in *.
  all: eapply runRel_intro;
    [reflexivity|reflexivity|by intros ? ?|trace_eq| |].
  all: try (intros _; apply orderly_weaken; split).
  all: try (eapply Forall_impl; [exact Hev|]; by intros []).
  all: clear -Hev; induction Hev as [|[] ? ? ? IH]; simpl; done.
Qed.

Lemma vaultRead_sat file : toDrive = true -> sat R (vaultRead E file).
Proof.
  intros Hto w. unfold satAt, vaultRead. run_simpl.
  repeat case_env; unit_case.
Qed.

Lemma uploadFileToFolder_sat file tok parent fileId :
  toDrive = true -> sat R (uploadFileToFolder E file tok parent fileId).
Proof.
  intros Hto w. unfold satAt, uploadFileToFolder, vaultRead. run_simpl.
  repeat case_env; unit_case.
Qed.

Local Abbreviation downloadsOk := (downloadsAllowed toDrive fromDrive s0).

Lemma mkdirSegment_sat segment cur :
  downloadsOk -> sat R (mkdirSegment E segment cur).
Proof.
  intros Hd w. unfold satAt, mkdirSegment. run_simpl. unit_case.
Qed.

Lemma ensureLocalFolderExists_sat folderPath :
  downloadsOk -> sat R (ensureLocalFolderExists E folderPath).
Proof.
  intros Hd. unfold ensureLocalFolderExists.
  s_bind; [|s_ret]. s_forEach. by apply mkdirSegment_sat.
Qed.

Lemma log_sat e w :
  (settings w = s0 -> justified toDrive fromDrive s0 e) ->
  aborting e = false -> createdPaths [e] = [] -> satAt R (log e) w.
Proof.
  intros HJ HA Hn. unfold satAt, log; simpl.
  eapply runRel_intro; [done|done|by intros ? ?|done|exact Hn|].
  intros Hs. split; forall_events.
Qed.

Lemma downloadFile_sat driveFile tok :
  downloadsOk -> sat R (downloadFile E driveFile tok).
Proof.
  intros Hd w. unfold downloadFile. s_read.
  destruct (fetch_media E (trace w) driveFile) as [content|st|] eqn:Hr.
  2,3: unfold satAt; run_simpl; unit_case.
  s_bind_at; [by apply log_sat|]. intros _ w1 _.
  s_bind_at.
  { destruct (includes _ _); [by apply ensureLocalFolderExists_sat|].
    by s_ret. }
  intros _ w2 _. unfold satAt. run_simpl. repeat case_env; unit_case.
Qed.

Lemma findDriveFolder_sat folderName parentId tok :
  toDrive = true -> sat R (findDriveFolder E folderName parentId tok).
Proof.
  intros Hto w. unfold satAt, findDriveFolder. run_simpl.
  repeat case_env; unit_case.
Qed.

(** [createDriveFolder] followed by [folderIdCache.set], for a path that is
    not in the cache. *)
Lemma create_and_cache_sat tok segment parentId currentPath w :
  toDrive = true -> folderIdCache w !! currentPath = None ->
  satAt R
    (let* newFolderId :=
       createDriveFolder E currentPath segment parentId tok in
     let* _ := cacheSet currentPath newFolderId in
     ret (newFolderId, currentPath)) w.
Proof.
  intros Hto Hnone Hs Hi. unfold createDriveFolder, cacheSet. run_simpl.
  set (r := fetch_create E (trace w) segment parentId).
  assert (creations currentPath (trace w) = base currentPath) as Hbase.
  { destruct (Hi currentPath) as [Hb Hc].
    destruct (decide (base currentPath < creations currentPath (trace w))%nat)
      as [Hlt|Hge]; [|lia].
    apply Hc in Hlt; [|done]. rewrite Hnone in Hlt. by destruct Hlt. }
  assert (forall p, creations p
            (trace w ++ [EvCreateFolder currentPath segment parentId r]) =
          (if decide (p = currentPath) then S (creations p (trace w))
           else creations p (trace w))) as Hcount.
  { intros p. rewrite creations_app. unfold creations at 2. simpl.
    destruct (string_dec currentPath p), (decide (p = currentPath));
      subst; try done; lia. }
  assert (orderly toDrive fromDrive s0 (resp_ok r)
            [EvCreateFolder currentPath segment parentId r]) as HO.
  { split; [forall_events|]. destruct (resp_ok r) eqn:Hr; forall_events. }
  destruct r as [newId|st|] eqn:Hr; simpl in *.
  - split_and!; [done|done| |eexists; split; [done|exact HO]].
    intros p. rewrite Hcount. destruct (Hi p) as [Hb Hc].
    destruct (decide (p = currentPath)) as [->|Hne].
    + split; [lia|]. intros _ _. simpl. rewrite lookup_insert_eq. by eexists.
    + split; [done|]. intros _ Hlt. simpl. rewrite lookup_insert_ne; [|done].
      by apply Hc.
  - split_and!; [done|done| |eexists; split; [done|exact HO]].
    intros p. rewrite Hcount. destruct (Hi p) as [Hb Hc].
    destruct (decide (p = currentPath)) as [->|Hne]; (split; [lia|done]).
  - split_and!; [done|done| |eexists; split; [done|exact HO]].
    intros p. rewrite Hcount. destruct (Hi p) as [Hb Hc].
    destruct (decide (p = currentPath)) as [->|Hne]; (split; [lia|done]).
Qed.

Lemma cacheSet_sat k v : sat R (cacheSet k v).
Proof.
  intros w. unfold satAt, cacheSet. run_simpl.
  eapply runRel_intro; [done|done| |trace_eq|done|orderly_tac].
  intros p Hp. simpl. apply lookup_insert_is_Some'. by right.
Qed.

Lemma ensureSegment_sat tok segment st :
  toDrive = true -> sat R (ensureSegment E tok segment st).
Proof.
  intros Hto w. unfold ensureSegment. s_read.
  destruct (_ !! _) eqn:Hlookup; [by s_ret|].
  s_bind_at; [by apply findDriveFolder_sat|]. intros existingFolderId w1 Hw1.
  assert (folderIdCache w1 = folderIdCache w) as Hc1.
  { revert Hw1. unfold findDriveFolder. run_simpl.
    repeat case_env; by intros [= _ <-]. }
  rewrite <- Hc1 in Hlookup.
  destruct existingFolderId as [existing|];
    [|by apply create_and_cache_sat].
  destruct (truthy existing); [|by apply create_and_cache_sat].
  apply sat_bind; [apply _|apply cacheSet_sat|]. intros ?. s_ret.
Qed.

Lemma ensureFolderPathExists_sat localPath tok :
  toDrive = true -> sat R (ensureFolderPathExists E localPath tok).
Proof.
  intros Hto. unfold ensureFolderPathExists. s_bind; [s_get|].
  destruct (_ !! _); [s_ret|]. s_bind; [s_get|].
  destruct (_ || _); [s_ret|]. s_bind; [|s_ret].
  s_forEach. by apply ensureSegment_sat.
Qed.

Lemma filesHaveIdenticalContent_sat vaultFile driveFile tok :
  toDrive = true ->
  sat R (filesHaveIdenticalContent md5 E vaultFile driveFile tok).
Proof.
  intros Hto w. unfold satAt, filesHaveIdenticalContent, vaultRead.
  run_simpl. repeat case_env; unit_case.
Qed.

Lemma satAt_guard {A} (m : M A) w :
  (settings w = s0 -> satAt R m w) -> satAt R m w.
Proof. intros H Hs Hi. by apply H. Qed.

Lemma handleConflict_sat vaultFile driveFile tok :
  toDrive = true -> sat R (handleConflict E vaultFile driveFile tok).
Proof.
  intros Hto w. unfold handleConflict.
  s_bind_at; [apply freshAccessToken_sat|]. intros fresh w1 _.
  apply satAt_guard. intros Hs1. s_read.
  destruct (conflictResolution (settings w1)) eqn:Hpol.
  - apply sat_bind; [apply _|by apply ensureFolderPathExists_sat|].
    intros ?. by apply uploadFileToFolder_sat.
  - by s_ret.
  - apply downloadFile_sat. right. by rewrite <- Hs1.
  - by apply log_sat.
Qed.

Lemma vaultLoopBody_sat td lastSync driveFileMap tok file n :
  td = toDrive ->
  sat R (vaultLoopBody md5 E td lastSync driveFileMap tok file n).
Proof.
  intros Htd. unfold vaultLoopBody. destruct td; [|s_ret].
  symmetry in Htd. destruct (_ !! _) as [driveFile|].
  - destruct (_ && _).
    + s_bind; [by apply filesHaveIdenticalContent_sat|].
      destruct a; [s_ret|]. s_bind; [by apply handleConflict_sat|s_ret].
    + destruct (_ >? _); [|s_ret].
      s_bind; [by apply ensureFolderPathExists_sat|].
      s_bind; [by apply uploadFileToFolder_sat|s_ret].
  - s_bind; [by apply ensureFolderPathExists_sat|].
    s_bind; [by apply uploadFileToFolder_sat|s_ret].
Qed.

Lemma driveLoopBody_sat td fd vaultFileMap tok driveFile n :
  td = toDrive -> fd = fromDrive -> fromDrive = true ->
  sat R (driveLoopBody E td fd (lastSyncTime s0) vaultFileMap tok
           driveFile n).
Proof.
  intros Htd Hfd Hfrom. assert (fd = true) as -> by congruence.
  unfold driveLoopBody. destruct (_ !! _) as [vaultFile|].
  - destruct (_ && _); [s_ret|]. destruct (_ >? _); [|s_ret].
    s_bind; [apply downloadFile_sat; by left|s_ret].
  - destruct (_ >? _) eqn:Hchanged.
    + s_bind; [apply downloadFile_sat; by left|s_ret].
    + destruct td; [|s_ret]. symmetry in Htd.
      destruct (truthy tok); [|s_ret].
      intros w. unfold satAt. run_simpl.
      assert (DriveFile.modifiedTime driveFile <= lastSyncTime s0 + 2000)
        by (rewrite Z.gtb_ltb in Hchanged; apply Z.ltb_ge in Hchanged; lia).
      repeat case_env; unit_case.
Qed.

(** The transfer phase starts by clearing the cache: it keeps the
    invariant when no creation call has been counted yet. *)
Lemma transferPhase_sat td fd tok w :
  td = toDrive -> fd = fromDrive ->
  (forall p, creations p (trace w) = base p) ->
  satAt R (transferPhase md5 E td fd tok) w.
Proof.
  intros Htd Hfd Hbase. unfold transferPhase.
  s_bind_at.
  { intros Hs Hi. unfold setCache; simpl. split_and!; [done|done| |].
    - intros p. simpl. rewrite Hbase. split; [lia|]. intros _ Hlt. lia.
    - exists []. split; [by rewrite app_nil_r|apply orderly_nil]. }
  intros _ w1 _. s_read.
  s_bind_at; [apply getDriveFilesRecursive_sat|]. intros driveFiles w2 _.
  apply satAt_guard. intros Hs2. s_read. rewrite Hs2.
  s_bind_at; [apply freshAccessToken_sat|]. intros tokU w3 _.
  s_bind_at; [apply sat_forEach; [apply _|]; intros ? ?;
              by apply vaultLoopBody_sat|].
  intros n w4 _.
  s_bind_at; [apply freshAccessToken_sat|]. intros tokD w5 _.
  destruct fd; [|by s_ret]. symmetry in Hfd.
  apply sat_forEach; [apply _|]. intros ? ?. by apply driveLoopBody_sat.
Qed.
End RunRel.

(* --------------------------------------------------------------------- *)
(** *** Splitting and joining paths *)
(* --------------------------------------------------------------------- *)

Lemma truthy_length s : truthy s = true <-> (0 < String.length s)%nat.
Proof. destruct s; simpl; split; (done || lia). Qed.

Lemma truthy_nonempty s : truthy s = true -> s <> "".
Proof. by destruct s. Qed.

Lemma length_append s1 s2 :
  String.length (s1 ++ s2) = (String.length s1 + String.length s2)%nat.
Proof.
  induction s1 as [|c s1 IH]; [done|].
  change (String c s1 ++ s2) with (String c (s1 ++ s2)). simpl.
  by rewrite IH.
Qed.

Lemma split_not_nil sep s : split sep s <> [].
Proof.
  destruct s as [|c s]; simpl; [done|].
  destruct (Ascii.eqb c sep); [done|]. by destruct (split sep s).
Qed.

Lemma split_weight sep s : weight (split sep s) = S (String.length s).
Proof.
  induction s as [|c s IH]; simpl; [done|].
  destruct (Ascii.eqb c sep); simpl; [by rewrite IH|].
  pose proof (split_not_nil sep s) as Hne.
  destruct (split sep s) as [|h t]; [done|]. simpl in *. lia.
Qed.

Lemma weight_filter f l : (weight (List.filter f l) <= weight l)%nat.
Proof.
  induction l as [|x l IH]; simpl; [done|]. destruct (f x); simpl; lia.
Qed.

Lemma extendPath_length cur seg :
  String.length (extendPath cur seg) =
  (if truthy cur then String.length cur + S (String.length seg)
   else String.length seg)%nat.
Proof.
  unfold extendPath, slashJoin. destruct (truthy cur); [|done].
  rewrite !length_append. simpl. lia.
Qed.

Lemma extendPath_truthy cur seg :
  truthy seg = true -> truthy (extendPath cur seg) = true.
Proof.
  intros Hseg. apply truthy_length. rewrite extendPath_length.
  apply truthy_length in Hseg. destruct (truthy cur); lia.
Qed.

Lemma extendPath_longer cur seg :
  truthy seg = true ->
  (String.length cur < String.length (extendPath cur seg))%nat.
Proof.
  intros Hseg. rewrite extendPath_length. apply truthy_length in Hseg.
  destruct (truthy cur) eqn:Hcur; [lia|]. destruct cur; [done|done].
Qed.

Lemma pathOf_longer segs cur :
  Forall (fun s => truthy s = true) segs ->
  (String.length cur <= String.length (pathOf segs cur))%nat /\
  (segs <> [] -> (String.length cur < String.length (pathOf segs cur))%nat).
Proof.
  intros Hsegs. revert cur.
  induction Hsegs as [|seg segs Hseg _ IH]; intros cur; simpl; [done|].
  pose proof (extendPath_longer cur seg Hseg).
  destruct (IH (extendPath cur seg)) as [Hle _]. split; [lia|]. intros _. lia.
Qed.

Lemma pathOf_length segs cur :
  truthy cur = true ->
  String.length (pathOf segs cur) = (String.length cur + weight segs)%nat.
Proof.
  revert cur. induction segs as [|seg segs IH]; intros cur Hcur; simpl.
  - lia.
  - unfold pathOf in IH. rewrite IH.
    + rewrite extendPath_length, Hcur. lia.
    + unfold extendPath, slashJoin. rewrite Hcur. by destruct cur.
Qed.

(** Dropping the empty pieces and joining again never lengthens a path. *)
Lemma normalised_length p :
  (String.length (pathOf (List.filter truthy (split "/" p)) "")
   <= String.length p)%nat.
Proof.
  pose proof (weight_filter truthy (split "/" p)) as Hw.
  rewrite split_weight in Hw.
  assert (Forall (fun s => truthy s = true)
            (List.filter truthy (split "/" p))) as Hall.
  { apply List.Forall_forall. intros s Hs. by apply filter_In in Hs as [_ ?]. }
  destruct (List.filter truthy (split "/" p)) as [|seg segs]; simpl in *;
    [lia|].
  inversion Hall as [|? ? Hseg Hsegs]; subst.
  change (fold_left extendPath segs (extendPath "" seg))
    with (pathOf segs (extendPath "" seg)).
  change (extendPath "" seg) with seg.
  rewrite pathOf_length; [|done]. unfold weight in *. simpl in *. lia.
Qed.

(* --------------------------------------------------------------------- *)
(** *** The Folder Path Materializer *)
(* --------------------------------------------------------------------- *)

Section Materializer.
Variable E : Env.

Lemma segments_truthy p : truthySegments (List.filter truthy (split "/" p)).
Proof.
  apply List.Forall_forall. intros s Hs. by apply filter_In in Hs as [_ ?].
Qed.

(** A segment whose cumulative path is cached costs no call. *)
Lemma ensureSegment_hit tok segment st w cached :
  folderIdCache w !! extendPath (snd st) segment = Some cached ->
  ensureSegment E tok segment st w =
  (Ok (cached, extendPath (snd st) segment), w).
Proof. intros Hc. unfold ensureSegment. run_simpl. by rewrite Hc. Qed.

(** A segment that is materialized ends in the cache, under its cumulative
    path, and nothing else changes in the cache. *)
Lemma ensureSegment_ok tok segment st w st' w1 :
  ensureSegment E tok segment st w = (Ok st', w1) ->
  snd st' = extendPath (snd st) segment /\
  folderIdCache w1 !! snd st' = Some (fst st') /\
  settings w1 = settings w /\
  (folderIdCache w1 = folderIdCache w \/
   folderIdCache w !! snd st' = None /\
   folderIdCache w1 = <[snd st' := fst st']> (folderIdCache w)).
Proof.
  unfold ensureSegment, findDriveFolder, createDriveFolder, cacheSet.
  run_simpl.
  destruct (folderIdCache w !! extendPath (snd st) segment) eqn:Hc; simpl.
  { intros [= <- <-]. simpl. auto. }
  repeat case_env; intros [= <- <-]; simpl;
    rewrite ?lookup_insert_eq; split_and!; by auto.
Qed.

Lemma ensureSegment_keeps_root_free tok segment st w :
  truthy segment = true -> folderIdCache w !! "" = None ->
  folderIdCache (snd (ensureSegment E tok segment st w)) !! "" = None.
Proof.
  intros Hseg Hroot.
  pose proof (truthy_nonempty _ (extendPath_truthy (snd st) segment Hseg)).
  unfold ensureSegment, findDriveFolder, createDriveFolder, cacheSet.
  run_simpl. repeat case_env; simpl; rewrite ?lookup_insert_ne; done.
Qed.

Lemma walk_keeps_root_free tok segs st w :
  truthySegments segs -> folderIdCache w !! "" = None ->
  folderIdCache (snd (forEach segs (ensureSegment E tok) st w)) !! "" = None.
Proof.
  intros Hsegs. revert st w.
  induction Hsegs as [|seg segs Hseg _ IH]; intros st w Hroot; simpl;
    [done|].
  unfold bind.
  pose proof (ensureSegment_keeps_root_free tok seg st w Hseg Hroot) as H1.
  destruct (ensureSegment E tok seg st w) as [[st1|msg] w1]; simpl in *;
    [by apply IH|done].
Qed.

(** The walk over the segments of a path that returns. *)
Lemma walk_ok tok segs : truthySegments segs ->
  forall st w st' w1,
  forEach segs (ensureSegment E tok) st w = (Ok st', w1) ->
  settings w1 = settings w /\
  folderIdCache w ⊆ folderIdCache w1 /\
  (segs = [] -> st' = st) /\
  (segs <> [] -> folderIdCache w1 !! snd st' = Some (fst st')) /\
  (String.length (snd st) <= String.length (snd st'))%nat /\
  (segs <> [] -> (String.length (snd st) < String.length (snd st'))%nat) /\
  (forall k v, folderIdCache w1 !! k = Some v ->
     folderIdCache w !! k = Some v \/
     (segs <> [] /\ k = snd st') \/
     (String.length k < String.length (snd st'))%nat) /\
  (forall tok' parent' w2, folderIdCache w1 ⊆ folderIdCache w2 ->
     forEach segs (ensureSegment E tok') (parent', snd st) w2 =
     (Ok (if segs is [] then parent' else fst st', snd st'), w2)).
Proof.
  induction 1 as [|seg segs Hseg Hsegs IH]; intros st w st' w1; simpl.
  - intros [= <- <-]. split_and!; try done; auto.
  - unfold bind at 1.
    destruct (ensureSegment E tok seg st w) as [[st1|msg] wa] eqn:H1;
      [|done].
    intros Hrest.
    destruct (ensureSegment_ok _ _ _ _ _ _ H1) as (Hp1 & Hc1 & Hs1 & Hch).
    destruct (IH _ _ _ _ Hrest)
      as (Hs & Hsub & Hnil & Hlast & Hle & Hlt & Hnew & Hagain).
    pose proof (extendPath_longer (snd st) seg Hseg) as Hgrow.
    rewrite <- Hp1 in Hgrow.
    assert (folderIdCache w ⊆ folderIdCache wa) as Hsub1.
    { destruct Hch as [->|[Hnone ->]]; [done|by apply insert_subseteq]. }
    assert (folderIdCache w1 !! snd st' = Some (fst st')) as Hfinal.
    { destruct segs as [|s segs]; [|by apply Hlast].
      rewrite (Hnil eq_refl). by eapply lookup_weaken. }
    split_and!.
    + congruence.
    + by etrans.
    + done.
    + done.
    + lia.
    + intros _. lia.
    + intros k v Hk. destruct (Hnew k v Hk) as [Hold|[[Hne ->]|Hshort]].
      * destruct Hch as [Heq|[Hnone Heq]]; rewrite Heq in Hold; [by left|].
        destruct (decide (k = snd st1)) as [->|Hne].
        -- right. destruct segs as [|s segs].
           ++ left. by rewrite (Hnil eq_refl).
           ++ right. by apply Hlt.
        -- left. by rewrite lookup_insert_ne in Hold.
      * by right; left.
      * by right; right.
    + intros tok' parent' w2 Hsub2. unfold bind.
      assert (folderIdCache w2 !! extendPath (snd st) seg = Some (fst st1))
        as Hhit.
      { rewrite <- Hp1. eapply lookup_weaken; [exact Hc1|]. by etrans. }
      rewrite (ensureSegment_hit tok' seg (parent', snd st) w2 _ Hhit).
      simpl. rewrite <- Hp1.
      rewrite (Hagain tok' (fst st1) w2 Hsub2).
      destruct segs; [|done]. by rewrite (Hnil eq_refl).
Qed.

Lemma walk_path tok segs st w st' w1 :
  forEach segs (ensureSegment E tok) st w = (Ok st', w1) ->
  snd st' = pathOf segs (snd st).
Proof.
  revert st w. induction segs as [|seg segs IH]; intros st w; simpl.
  - by intros [= <- <-].
  - unfold bind at 1.
    destruct (ensureSegment E tok seg st w) as [[st1|msg] wa] eqn:H1;
      [|done].
    intros Hrest. apply IH in Hrest. rewrite Hrest.
    by destruct (ensureSegment_ok _ _ _ _ _ _ H1) as (-> & _).
Qed.

(** Idempotence: a second call, right after a call that returned, returns
    the same folder id, makes no call and leaves the world as it is. *)
Lemma ensureFolderPathExists_again localPath tok tok' w id w1 :
  ensureFolderPathExists E localPath tok w = (Ok id, w1) ->
  ensureFolderPathExists E localPath tok' w1 = (Ok id, w1).
Proof.
  unfold ensureFolderPathExists. run_simpl.
  destruct (folderIdCache w !! localPath) as [cached|] eqn:Hc; simpl.
  { intros [= <- <-]. by rewrite Hc. }
  destruct (negb (truthy localPath) || String.eqb localPath ".") eqn:Hroot;
    simpl.
  { intros [= <- <-]. by rewrite Hc. }
  set (segs := List.filter truthy (split "/" localPath)).
  destruct (forEach segs (ensureSegment E tok) (folderId (settings w), "") w)
    as [[st'|msg] w'] eqn:Hwalk; simpl; [|done].
  intros [= <- <-].
  destruct (walk_ok tok segs (segments_truthy localPath) _ _ _ _ Hwalk)
    as (Hs & Hsub & Hnil & Hlast & Hle & Hlt & Hnew & Hagain).
  pose proof (walk_path _ _ _ _ _ _ Hwalk) as Hpath. simpl in Hpath.
  destruct (folderIdCache w' !! localPath) as [cached|] eqn:Hc'; simpl.
  - destruct (Hnew _ _ Hc') as [Hold|[[Hne Heq]|Hshort]].
    + congruence.
    + rewrite Heq, (Hlast Hne) in Hc'. congruence.
    + pose proof (normalised_length localPath) as Hn.
      fold segs in Hn. rewrite <- Hpath in Hn. lia.
  - pose proof (Hagain tok' (folderId (settings w)) w' (reflexivity _))
      as Hre. simpl in Hre. rewrite Hs, Hre. simpl.
    destruct segs; [|done]. by rewrite (Hnil eq_refl).
Qed.

Lemma ensureFolderPathExists_root tok w :
  folderIdCache w !! "" = None ->
  ensureFolderPathExists E "" tok w = (Ok (folderId (settings w)), w).
Proof.
  intros Hroot. unfold ensureFolderPathExists. run_simpl. by rewrite Hroot.
Qed.

Lemma ensureFolderPathExists_keeps_root_free localPath tok w :
  folderIdCache w !! "" = None ->
  folderIdCache (snd (ensureFolderPathExists E localPath tok w)) !! "" = None.
Proof.
  intros Hroot. unfold ensureFolderPathExists. run_simpl.
  destruct (folderIdCache w !! localPath); simpl; [done|].
  destruct (_ || _); simpl; [done|].
  pose proof (walk_keeps_root_free tok _ (folderId (settings w), "") w
                (segments_truthy localPath) Hroot) as H.
  by destruct (forEach _ _ _ w) as [[?|?] ?].
Qed.
End Materializer.

(* --------------------------------------------------------------------- *)
(** *** The keys of the cache *)
(* --------------------------------------------------------------------- *)

Lemma split_pieces_free sep s :
  Forall (fun x => includes sep x = false) (split sep s).
Proof.
  induction s as [|c s IH]; simpl; [by repeat constructor|].
  destruct (Ascii.eqb c sep) eqn:Hc; [by constructor|].
  destruct (split sep s) as [|h t].
  - apply List.Forall_cons; [simpl; by rewrite Hc|constructor].
  - inversion IH as [|? ? Hh Ht]; subst. apply List.Forall_cons; [|done].
    simpl. by rewrite Hc.
Qed.

Lemma split_free sep s : includes sep s = false -> split sep s = [s].
Proof.
  induction s as [|c s IH]; simpl; [done|].
  intros [Hc Hs]%orb_false_elim. rewrite Hc, (IH Hs). done.
Qed.

Lemma split_append sep a b :
  split sep (a ++ String sep b) = (split sep a ++ split sep b)%list.
Proof.
  induction a as [|c a IH].
  - change ("" ++ String sep b) with (String sep b). simpl.
    by rewrite Ascii.eqb_refl.
  - change (String c a ++ String sep b) with (String c (a ++ String sep b)).
    simpl. rewrite IH. destruct (Ascii.eqb c sep); [done|].
    pose proof (split_not_nil sep a). by destruct (split sep a).
Qed.

Lemma extendPath_split cur seg :
  truthy cur = true -> includes "/" seg = false ->
  split "/" (extendPath cur seg) = (split "/" cur ++ [seg])%list.
Proof.
  intros Hcur Hseg. unfold extendPath, slashJoin. rewrite Hcur.
  change ("/" ++ seg) with (String "/" seg).
  by rewrite split_append, (split_free _ _ Hseg).
Qed.

Lemma pathOf_split segs cur :
  truthy cur = true -> goodSegments segs ->
  split "/" (pathOf segs cur) = (split "/" cur ++ segs)%list.
Proof.
  intros Hcur Hsegs. revert cur Hcur.
  induction Hsegs as [|seg segs [Ht Hf] _ IH]; intros cur Hcur; simpl.
  - by rewrite app_nil_r.
  - unfold pathOf in IH. rewrite IH.
    + rewrite extendPath_split by done. by rewrite <- app_assoc.
    + by apply extendPath_truthy.
Qed.

Lemma filter_truthy_good segs :
  goodSegments segs -> List.filter truthy segs = segs.
Proof.
  induction 1 as [|seg segs [Ht _] _ IH]; simpl; [done|].
  by rewrite Ht, IH.
Qed.

Lemma pathOf_truthy segs cur :
  truthy cur = true -> truthy (pathOf segs cur) = true.
Proof.
  revert cur. induction segs as [|seg segs IH]; intros cur Hcur; [done|].
  simpl. apply IH. unfold extendPath, slashJoin. rewrite Hcur.
  by destruct cur.
Qed.

(** Good segments, joined, are in normal form. *)
Lemma pathOf_normal segs :
  goodSegments segs -> segs <> [] -> normalPath (pathOf segs "").
Proof.
  intros Hsegs Hne. destruct segs as [|seg segs]; [done|].
  inversion Hsegs as [|? ? [Ht Hf] Hrest]; subst.
  change (pathOf (seg :: segs) "") with (pathOf segs seg).
  split; [by apply pathOf_truthy|].
  rewrite pathOf_split, (split_free _ _ Hf) by done.
  change ([seg] ++ segs)%list with (seg :: segs).
  by rewrite (filter_truthy_good _ Hsegs).
Qed.

Lemma segments_good p : goodSegments (List.filter truthy (split "/" p)).
Proof.
  pose proof (split_pieces_free "/" p) as Hfree.
  induction Hfree as [|x l Hx _ IH]; simpl; [constructor|].
  destruct (truthy x) eqn:Ht; [|done]. by constructor.
Qed.

Lemma pathOf_snoc walked seg :
  pathOf (walked ++ [seg]) "" = extendPath (pathOf walked "") seg.
Proof. unfold pathOf. by rewrite fold_left_app. Qed.

Lemma normalKeys_empty : normalKeys ∅.
Proof. intros k v. by rewrite lookup_empty. Qed.

Lemma normalKeys_root_free c : normalKeys c -> c !! "" = None.
Proof.
  intros Hc. destruct (c !! "") eqn:H; [|done].
  by destruct (Hc _ _ H) as [? _].
Qed.

Section MaterializerKeys.
Variable E : Env.

Lemma ensureSegment_normal tok walked seg st w :
  goodSegments walked -> truthy seg = true -> includes "/" seg = false ->
  snd st = pathOf walked "" -> normalKeys (folderIdCache w) ->
  normalKeys (folderIdCache (snd (ensureSegment E tok seg st w))).
Proof.
  intros Hdone Ht Hf Hst Hkeys.
  assert (normalPath (extendPath (snd st) seg)) as Hnew.
  { rewrite Hst, <- pathOf_snoc. apply pathOf_normal; [|by destruct walked].
    apply Forall_app. split; [done|]. by repeat constructor. }
  unfold ensureSegment, findDriveFolder, createDriveFolder, cacheSet.
  run_simpl. repeat case_env; try done.
  all: intros k v; destruct (decide (k = extendPath (snd st) seg)) as [->|];
    [done|rewrite lookup_insert_ne by done; apply Hkeys].
Qed.

Lemma walk_normal tok segs : goodSegments segs ->
  forall walked st w,
  goodSegments walked -> snd st = pathOf walked "" ->
  normalKeys (folderIdCache w) ->
  normalKeys (folderIdCache (snd (forEach segs (ensureSegment E tok) st w))).
Proof.
  induction 1 as [|seg segs [Ht Hf] Hsegs IH]; intros walked st w Hdone Hst
    Hkeys; simpl; [done|].
  unfold bind.
  pose proof (ensureSegment_normal tok walked seg st w Hdone Ht Hf Hst Hkeys)
    as H1.
  destruct (ensureSegment E tok seg st w) as [[st1|msg] w1] eqn:Hstep;
    simpl in *; [|done].
  apply (IH (walked ++ [seg])%list); [|by rewrite pathOf_snoc, <- Hst;
    destruct (ensureSegment_ok _ _ _ _ _ _ _ Hstep) as (? & _)|done].
  apply Forall_app. split; [done|]. by repeat constructor.
Qed.

(** Every call keeps the keys of the cache in normal form. *)
Lemma ensureFolderPathExists_normal localPath tok w :
  normalKeys (folderIdCache w) ->
  normalKeys (folderIdCache (snd (ensureFolderPathExists E localPath tok w))).
Proof.
  intros Hkeys. unfold ensureFolderPathExists. run_simpl.
  destruct (folderIdCache w !! localPath); simpl; [done|].
  destruct (_ || _); simpl; [done|].
  pose proof (walk_normal tok _ (segments_good localPath) []
                (folderId (settings w), "") w (Forall_nil_2 _) eq_refl Hkeys)
    as H.
  by destruct (forEach _ _ _ w) as [[?|?] ?].
Qed.

(** Entries are only added to the cache. *)
Lemma ensureFolderPathExists_grows localPath tok w id w1 :
  ensureFolderPathExists E localPath tok w = (Ok id, w1) ->
  folderIdCache w ⊆ folderIdCache w1.
Proof.
  unfold ensureFolderPathExists. run_simpl.
  destruct (folderIdCache w !! localPath); simpl; [by intros [= _ <-]|].
  destruct (_ || _); simpl; [by intros [= _ <-]|].
  destruct (forEach _ _ _ w) as [[st'|msg] w'] eqn:Hwalk; simpl; [|done].
  intros [= _ <-].
  by destruct (walk_ok E tok _ (segments_truthy localPath) _ _ _ _ Hwalk)
    as (_ & Hsub & _).
Qed.

(** The folder id a call returns is the id of the sync root or an id held
    by the cache. *)
Lemma ensureFolderPathExists_resolved localPath tok w id w1 :
  ensureFolderPathExists E localPath tok w = (Ok id, w1) ->
  id = folderId (settings w) \/ exists k, folderIdCache w1 !! k = Some id.
Proof.
  unfold ensureFolderPathExists. run_simpl.
  destruct (folderIdCache w !! localPath) eqn:Hc; simpl.
  { intros [= <- <-]. right. by exists localPath. }
  destruct (_ || _); simpl; [intros [= <- <-]; by left|].
  destruct (forEach _ _ _ w) as [[st'|msg] w'] eqn:Hwalk; simpl; [|done].
  intros [= <- <-].
  destruct (walk_ok E tok _ (segments_truthy localPath) _ _ _ _ Hwalk)
    as (_ & _ & Hnil & Hlast & _).
  destruct (List.filter truthy (split "/" localPath)) as [|seg segs].
  - left. by rewrite (Hnil eq_refl).
  - right. exists (snd st'). by apply Hlast.
Qed.

(** Memoization: once a call has returned, every later call for the same
    path, in any world of the run (the cache has only grown, its keys are
    in normal form, the settings are the same), returns the same folder id
    without any call.  The path ["."] is left out: it names the root as
    long as no path with a segment ["."] is materialized. *)
Lemma ensureFolderPathExists_stable localPath tok w id w1 :
  normalKeys (folderIdCache w) ->
  ensureFolderPathExists E localPath tok w = (Ok id, w1) ->
  localPath <> "." ->
  forall tok' w2,
    folderIdCache w1 ⊆ folderIdCache w2 ->
    normalKeys (folderIdCache w2) ->
    settings w2 = settings w ->
    ensureFolderPathExists E localPath tok' w2 = (Ok id, w2).
Proof.
  intros Hkeys Hrun Hdot tok' w2 Hsub Hkeys2 Hset. revert Hrun.
  unfold ensureFolderPathExists. run_simpl.
  destruct (folderIdCache w !! localPath) as [cached|] eqn:Hc; simpl.
  { intros [= <- <-]. by rewrite (lookup_weaken _ _ _ _ Hc Hsub). }
  destruct (truthy localPath) eqn:Htruthy; simpl.
  2:{ intros [= <- <-]. destruct localPath; [|done].
      by rewrite (normalKeys_root_free _ Hkeys2), Hset. }
  destruct (String.eqb localPath ".") eqn:Heq; simpl.
  { by apply String.eqb_eq in Heq. }
  set (segs := List.filter truthy (split "/" localPath)).
  destruct (forEach segs (ensureSegment E tok) (folderId (settings w), "") w)
    as [[st'|msg] w'] eqn:Hwalk; simpl; [|done].
  intros [= <- <-].
  destruct (walk_ok E tok segs (segments_truthy localPath) _ _ _ _ Hwalk)
    as (Hs & Hsub1 & Hnil & Hlast & Hle & Hlt & Hnew & Hagain).
  pose proof (walk_path _ _ _ _ _ _ _ Hwalk) as Hpath. simpl in Hpath.
  destruct (folderIdCache w2 !! localPath) as [cached|] eqn:Hc2; simpl.
  - destruct (Hkeys2 _ _ Hc2) as [_ Hnorm]. fold segs in Hnorm.
    destruct segs as [|seg segs'] eqn:Hsegs.
    { simpl in Hnorm. by rewrite <- Hnorm in Htruthy. }
    rewrite <- Hpath in Hnorm.
    assert (folderIdCache w2 !! snd st' = Some (fst st')) as Hhit.
    { eapply lookup_weaken; [apply Hlast|]; done. }
    rewrite Hnorm, Hc2 in Hhit. by injection Hhit as ->.
  - pose proof (Hagain tok' (folderId (settings w)) w2 Hsub) as Hre.
    simpl in Hre. rewrite Hset, Hre. simpl.
    destruct segs; [|done]. by rewrite (Hnil eq_refl).
Qed.
End MaterializerKeys.

(* --------------------------------------------------------------------- *)
(** *** A whole run *)
(* --------------------------------------------------------------------- *)

Section RunLevel.
Variable md5 : string -> string.
Variable E : Env.

Lemma freshAccessToken_world msg w :
  snd (freshAccessToken E msg w) =
  extend w [EvGetAccessToken (getAccessToken E (trace w))].
Proof. unfold freshAccessToken. run_simpl. by repeat case_env. Qed.

Lemma validate_world tok w :
  snd (validateDriveFolder E tok w) =
  extend w [EvValidateFolder (folderId (settings w))
              (fetch_metadata E (trace w) (folderId (settings w)))].
Proof.
  unfold validateDriveFolder. run_simpl. by repeat case_env.
Qed.

Lemma commitPhase_run n w :
  let s' := set_lastSyncTime (date_now E (trace w)) (settings w) in
  let ok := saveData E (trace w) s' in
  commitPhase E n w =
  (if ok then Ok (Synced n)
   else Throw (rejection E (trace w ++ [EvSaveData s' false])),
   {| settings := s'; stored := if ok then s' else stored w;
      folderIdCache := folderIdCache w;
      trace := trace w ++ [EvSaveData s' ok] |}).
Proof.
  unfold commitPhase, saveSettings. run_simpl. unfold extend. simpl.
  by destruct (saveData _ _ _).
Qed.

Lemma onceInv_NoDup w w' evs b :
  trace w' = (trace w ++ evs)%list ->
  onceInv (fun p => creations p (trace w)) b w' ->
  NoDup (createdPaths evs).
Proof.
  intros Ht Hi. apply NoDup_ListNoDup, (NoDup_count_occ string_dec).
  intros p. destruct (Hi p) as [Hb _]. rewrite Ht, creations_app in Hb.
  cbv beta in Hb. unfold creations in Hb. lia.
Qed.

(** What a call of [performSync] does, outcome by outcome. *)
Lemma performSync_run toDrive fromDrive w :
  exists outcome evs,
    let w' := snd (performSync md5 E toDrive fromDrive w) in
    let s0 := settings w in
    fst (performSync md5 E toDrive fromDrive w) = Ok outcome /\
    trace w' = (trace w ++ evs)%list /\
    Forall (justified toDrive fromDrive s0) evs /\
    NoDup (createdPaths evs) /\
    match outcome with
    | NotConfigured => configured s0 = false /\ w' = w
    | ValidationFailed _ =>
        configured s0 = true /\ settings w' = s0 /\ stored w' = stored w /\
        Forall (fun e => aborting e = false) evs
    | SyncFailed _ =>
        configured s0 = true /\ stored w' = stored w /\
        Forall (fun e => aborting e = false) (removelast evs) /\
        (settings w' = s0 \/
         Forall (fun e => aborting e = false) evs /\
         exists h, settings w' = set_lastSyncTime (date_now E h) s0)
    | Synced _ =>
        configured s0 = true /\
        Forall (fun e => aborting e = false) evs /\
        stored w' = settings w' /\
        (exists h, settings w' = set_lastSyncTime (date_now E h) s0) /\
        exists pre,
          evs = (pre ++ [EvSaveData (settings w') true])%list /\
          settings w' =
            set_lastSyncTime (date_now E (trace w ++ pre)) s0
    end.
Proof.
  unfold performSync. run_simpl. unfold configured.
  destruct (truthy (refreshToken (settings w))); simpl.
  2:{ exists NotConfigured, []. simpl. rewrite app_nil_r.
      split_and!; try done; constructor. }
  destruct (truthy (folderId (settings w))); simpl.
  2:{ exists NotConfigured, []. simpl. rewrite app_nil_r.
      split_and!; try done; constructor. }
  pose proof (freshAccessToken_world "No access token available" w) as Hw1.
  set (e1 := EvGetAccessToken (getAccessToken E (trace w))) in *.
  destruct (freshAccessToken E _ w) as [[tok|msg] w1]; simpl in *; subst w1.
  2:{ exists (SyncFailed msg), [e1]. simpl.
      split_and!; try done; repeat constructor; auto. }
  pose proof (validate_world tok (extend w [e1])) as Hw2. simpl in Hw2.
  set (e2 := EvValidateFolder _ _) in *.
  destruct (validateDriveFolder E tok _) as [[[]|msg] w2]; simpl in *;
    subst w2.
  2:{ exists (ValidationFailed msg), [e1; e2]. simpl.
      rewrite <- app_assoc. split_and!; try done; repeat constructor. }
  rewrite extend_extend. simpl. set (w2 := extend w [e1; e2]).
  unfold syncBody, bind.
  pose proof (transferPhase_sat md5 E toDrive fromDrive (settings w)
                (fun p => creations p (trace w2))
                toDrive fromDrive tok w2 eq_refl eq_refl
                (fun p => eq_refl)) as H3.
  unfold satAt in H3.
  assert (onceInv (fun p => creations p (trace w2)) true w2) as Hi2.
  { intros p. split; [lia|]. intros _ Hlt. lia. }
  destruct (H3 eq_refl Hi2) as (Hs & Hst & Hi3 & evs & Ht & HJ & HA).
  clear H3.
  pose proof (onceInv_NoDup _ _ _ _ Ht Hi3) as Hnd.
  destruct (transferPhase md5 E toDrive fromDrive tok w2) as [[n|msg] w3];
    simpl in *.
  2:{ exists (SyncFailed msg), ([e1; e2] ++ evs)%list. simpl.
      rewrite Ht. simpl. rewrite <- app_assoc. simpl.
      split_and!; try done.
      - by repeat constructor.
      - destruct evs; [by repeat constructor|]. simpl in *.
        by repeat constructor.
      - by left. }
  rewrite commitPhase_run. simpl.
  set (s' := set_lastSyncTime (date_now E (trace w3)) (settings w3)).
  assert (createdPaths (evs ++ [EvSaveData s' true]) = createdPaths evs)
    as Hcp1 by (rewrite createdPaths_app; simpl; apply app_nil_r).
  assert (createdPaths (evs ++ [EvSaveData s' false]) = createdPaths evs)
    as Hcp2 by (rewrite createdPaths_app; simpl; apply app_nil_r).
  destruct (saveData E (trace w3) s') eqn:Hsave; simpl.
  - exists (Synced n), ([e1; e2] ++ evs ++ [EvSaveData s' true])%list.
    simpl. rewrite Hcp1, Ht. simpl. rewrite <- !app_assoc. simpl.
    split_and!; try done.
    + repeat constructor. apply Forall_app. split; [done|].
      by repeat constructor.
    + repeat constructor. apply Forall_app. split; [done|].
      by repeat constructor.
    + exists (trace w3). subst s'. by rewrite Hs.
    + exists (e1 :: e2 :: evs). split; [done|].
      subst s'. rewrite Hs, Ht. unfold w2. simpl.
      by rewrite <- app_assoc.
  - assert (removelast ([e1; e2] ++ evs ++ [EvSaveData s' false]) =
            [e1; e2] ++ evs)%list as Hrl
      by (rewrite app_assoc; apply removelast_last).
    exists (SyncFailed (rejection E (trace w3 ++ [EvSaveData s' false]))),
      ([e1; e2] ++ evs ++ [EvSaveData s' false])%list.
    simpl in *. rewrite Hcp2, Ht, Hrl. simpl. rewrite <- !app_assoc. simpl.
    split_and!; try done.
    + repeat constructor. apply Forall_app. split; [done|].
      by repeat constructor.
    + by repeat constructor.
    + right. split.
      * repeat constructor. apply Forall_app. split; [done|].
        by repeat constructor.
      * exists (trace w3). subst s'. by rewrite Hs.
Qed.
End RunLevel.

(* --------------------------------------------------------------------- *)
(** *** The steps of the two loops *)
(* --------------------------------------------------------------------- *)

Section Steps.
Variable md5 : string -> string.
Variable E : Env.

(** The Content Equality Oracle, case by case. *)
Lemma filesHaveIdenticalContent_run (vaultFile : TFile.t)
    (driveFile : DriveFile.t) (accessToken : string) (w : World) :
  let vaultSize := TFile.size vaultFile in
  let driveSize := default 0 (DriveFile.size driveFile) in
  let binary := isBinaryFile (getMimeType (TFile.name vaultFile)) in
  let run :=
    filesHaveIdenticalContent md5 E vaultFile driveFile accessToken w in
  (vaultSize <> driveSize -> run = (Ok false, w)) /\
  (vaultSize = driveSize -> vaultSize = 0 -> run = (Ok true, w)) /\
  (vaultSize = driveSize -> vaultSize <> 0 -> binary = true ->
     run = (Ok true, w)) /\
  (vaultSize = driveSize -> vaultSize <> 0 -> binary = false ->
     match vault_read E (trace w) vaultFile with
     | None =>
         run = (Ok false, extend w [EvVaultRead (TFile.path vaultFile) None])
     | Some vaultContent =>
         let read := EvVaultRead (TFile.path vaultFile) (Some vaultContent) in
         match fetch_media E (trace w ++ [read]) driveFile with
         | RespOk driveContent =>
             exists identical,
               run = (Ok identical,
                      extend w [read;
                                EvCompareFetch driveFile (RespOk driveContent)])
               /\ (identical = true <-> md5 vaultContent = md5 driveContent)
         | failure =>
             run = (Ok false, extend w [read; EvCompareFetch driveFile failure])
         end
     end).
Proof.
  intros vaultSize driveSize binary run. subst run.
  unfold filesHaveIdenticalContent. fold vaultSize driveSize binary.
  split_and!.
  - intros Hne. apply Z.eqb_neq in Hne. run_simpl. by rewrite Hne.
  - intros Heq H0. apply Z.eqb_eq in Heq, H0. run_simpl. by rewrite Heq, H0.
  - intros Heq H0 Hb. apply Z.eqb_eq in Heq. apply Z.eqb_neq in H0.
    run_simpl. by rewrite Heq, H0, Hb.
  - intros Heq H0 Hb. apply Z.eqb_eq in Heq. apply Z.eqb_neq in H0.
    unfold vaultRead. run_simpl. rewrite Heq, H0, Hb. simpl.
    destruct (vault_read E (trace w) vaultFile) as [c|]; simpl; [|done].
    destruct (fetch_media E _ driveFile) as [d| |]; simpl;
      rewrite ?extend_extend; simpl; try done.
    eexists. split; [reflexivity|]. apply String.eqb_eq.
Qed.

(** The oracle never throws, and all it does is read the two contents. *)
Lemma filesHaveIdenticalContent_reads vaultFile driveFile tok w :
  exists identical evs,
    fst (filesHaveIdenticalContent md5 E vaultFile driveFile tok w) =
      Ok identical /\
    trace (snd (filesHaveIdenticalContent md5 E vaultFile driveFile tok w)) =
      (trace w ++ evs)%list /\
    Forall (fun e => isTransfer e = false) evs.
Proof.
  unfold filesHaveIdenticalContent, vaultRead. run_simpl.
  repeat case_env; eexists _, _;
    (split; [reflexivity|split; [trace_eq|by repeat constructor]]).
Qed.

(** [uploadFileToFolder] with the id of an existing remote file updates
    that file in place. *)
Lemma uploadFileToFolder_in_place file tok parent fileId content w :
  truthy fileId = true ->
  vault_read E (trace w) file = Some content ->
  let read := EvVaultRead (TFile.path file) (Some content) in
  let response := fetch_update E (trace w ++ [read]) file fileId in
  uploadFileToFolder E file tok parent (Some fileId) w =
  (match response with
   | RespOk _ => Ok tt
   | RespStatus status statusText =>
       Throw (notOk "Upload failed" status statusText)
   | NetError message => Throw message
   end,
   extend w [read; EvUploadUpdate file fileId response]).
Proof.
  intros Hid Hread. unfold uploadFileToFolder, vaultRead. run_simpl.
  rewrite Hread, Hid. simpl. rewrite extend_extend. simpl.
  by destruct (fetch_update _ _ _ _).
Qed.

(** The tokens the loops receive are not empty. *)
Lemma freshAccessToken_truthy msg w tok w1 :
  freshAccessToken E msg w = (Ok tok, w1) -> truthy tok = true.
Proof.
  unfold freshAccessToken. run_simpl.
  repeat case_env; by intros [= <- <-].
Qed.
End Steps.

(* --------------------------------------------------------------------- *)
(** *** Local folders and downloads, call by call *)
(* --------------------------------------------------------------------- *)

Section Downloads.
Variable E : Env.

Lemma mkdirPaths_app e1 e2 :
  mkdirPaths (e1 ++ e2) = (mkdirPaths e1 ++ mkdirPaths e2)%list.
Proof.
  induction e1 as [|e e1 IH]; [done|]. destruct e; simpl; by rewrite ?IH.
Qed.

Lemma mkdir_walk segments : forall currentPath w,
  exists evs,
    forEach segments (mkdirSegment E) currentPath w =
      (Ok (pathOf segments currentPath), extend w evs) /\
    Forall (fun e => isMkdir e = true) evs /\
    mkdirPaths evs = cumulativePaths segments currentPath.
Proof.
  induction segments as [|seg segments IH]; intros currentPath w; simpl.
  - exists []. unfold ret, extend. rewrite app_nil_r. by destruct w.
  - unfold bind, mkdirSegment at 1. run_simpl.
    set (e := EvMkdir _ _).
    destruct (IH (extendPath currentPath seg) (extend w [e]))
      as (evs & -> & Hall & Hpaths).
    exists (e :: evs). rewrite extend_extend. split_and!; [done| |].
    + by constructor.
    + simpl. by rewrite Hpaths.
Qed.

Lemma last_cons_default {A} (l : list A) : forall x d,
  List.last (x :: l) d = List.last l x.
Proof.
  induction l as [|y l IH]; intros x d; [done|].
  change (List.last (x :: y :: l) d) with (List.last (y :: l) d).
  by rewrite !IH.
Qed.

Lemma last_cumulativePaths segments : forall currentPath,
  List.last (cumulativePaths segments currentPath) currentPath =
  pathOf segments currentPath.
Proof.
  induction segments as [|seg segments IH]; intros currentPath; [done|].
  simpl. rewrite <- IH. apply last_cons_default.
Qed.

Lemma ensureLocalFolderExists_run (folderPath : string) (w : World) :
  let segments := List.filter truthy (split "/" folderPath) in
  exists evs,
    ensureLocalFolderExists E folderPath w = (Ok tt, extend w evs) /\
    Forall (fun e => isMkdir e = true) evs /\
    mkdirPaths evs = cumulativePaths segments "" /\
    List.last (mkdirPaths evs) "" = pathOf segments "".
Proof.
  intros segments. unfold ensureLocalFolderExists. fold segments.
  destruct (mkdir_walk segments "" w) as (evs & Hrun & Hall & Hpaths).
  exists evs. unfold bind. rewrite Hrun. simpl.
  split_and!; [done|done|done|]. rewrite Hpaths.
  apply last_cumulativePaths.
Qed.

(** What [downloadFile] does, answer by answer. *)
Lemma downloadFile_run (driveFile : DriveFile.t)
    (accessToken : string) (w : World) :
  let path := DriveFile.path driveFile in
  let fetched := EvDownload driveFile (fetch_media E (trace w) driveFile) in
  match fetch_media E (trace w) driveFile with
  | RespOk content =>
      exists mkdirs : list Event,
        let h := (trace w ++ fetched :: mkdirs)%list in
        let ok := vault_write E h path content in
        let written := EvVaultWrite path content ok in
        downloadFile E driveFile accessToken w =
          (if ok then Ok tt else Throw (rejection E (h ++ [written])),
           extend w (fetched :: mkdirs ++ [written])) /\
        Forall (fun e => isMkdir e = true) mkdirs /\
        mkdirPaths mkdirs =
          cumulativePaths
            (List.filter truthy (split "/" (parentFolderPath path))) ""
  | RespStatus status statusText =>
      downloadFile E driveFile accessToken w =
        (Throw (notOk "Download failed" status statusText),
         extend w [fetched])
  | NetError message =>
      downloadFile E driveFile accessToken w =
        (Throw message, extend w [fetched])
  end.
Proof.
  intros path fetched. subst fetched. unfold downloadFile. run_simpl.
  fold path.
  destruct (fetch_media E (trace w) driveFile) as [content|st txt|msg]
    eqn:Hr; simpl; [|done..].
  set (w1 := extend w _).
  destruct (includes "/" path) eqn:Hslash.
  - destruct (ensureLocalFolderExists_run (parentFolderPath path) w1)
      as (evs & Hrun & Hall & Hpaths & _).
    rewrite Hrun. simpl. exists evs. split_and!; [|done|done].
    subst w1. unfold extend. simpl. rewrite <- !app_assoc. simpl.
    by destruct (vault_write _ _ _ _).
  - exists []. split_and!; [|done|].
    + subst w1. unfold ret, extend. simpl. rewrite <- !app_assoc. simpl.
      by destruct (vault_write _ _ _ _).
    + unfold parentFolderPath. by rewrite Hslash.
Qed.
End Downloads.

Section RunClaims.
Variable md5 : string -> string.
Variable E : Env.

Lemma aborting_last (evs : list Event) (e : Event) :
  Forall (fun e' => aborting e' = false) (removelast evs) ->
  In e evs -> aborting e = true ->
  evs = (removelast evs ++ [e])%list.
Proof.
  intros HA Hin He. destruct evs as [|x evs]; [done|].
  assert (x :: evs <> []) as Hne by done.
  rewrite (app_removelast_last x Hne) in Hin at 1.
  rewrite (app_removelast_last x Hne) at 1.
  apply in_app_or in Hin as [Hin|[<-|[]]]; [|done].
  rewrite List.Forall_forall in HA. apply HA in Hin. congruence.
Qed.

(** An aborting call ends the run: it is the last call, the run fails,
    and neither the settings nor the stored settings change. *)
Lemma aborting_ends_run toDrive fromDrive w :
  exists outcome evs,
    fst (performSync md5 E toDrive fromDrive w) = Ok outcome /\
    trace (snd (performSync md5 E toDrive fromDrive w)) =
      (trace w ++ evs)%list /\
    forall e, In e evs -> aborting e = true ->
      (exists msg, outcome = SyncFailed msg) /\
      (exists pre, evs = (pre ++ [e])%list /\
                   Forall (fun e' => aborting e' = false) pre) /\
      stored (snd (performSync md5 E toDrive fromDrive w)) = stored w /\
      settings (snd (performSync md5 E toDrive fromDrive w)) = settings w.
Proof.
  destruct (performSync_run md5 E toDrive fromDrive w)
    as (outcome & evs & Hr & Ht & HJ & Hnd & Hout).
  exists outcome, evs. split; [done|]. split; [done|].
  intros e Hin He. simpl in Hout.
  assert (~ Forall (fun e' => aborting e' = false) evs) as Hbad.
  { rewrite List.Forall_forall. intros H. apply H in Hin. congruence. }
  destruct outcome as [|msg|msg|n].
  - destruct Hout as [_ Hw]. rewrite Hw in Ht.
    assert (evs = []) as ->; [|done].
    apply (app_inv_head (trace w)). by rewrite app_nil_r.
  - by destruct Hout as (_ & _ & _ & HA).
  - destruct Hout as (_ & Hst & HA & Hset).
    split_and!; [by eexists| |done|].
    + exists (removelast evs). split; [|done]. by apply aborting_last.
    + by destruct Hset as [Hset|[HA' _]].
  - by destruct Hout as (_ & HA & _).
Qed.

(** In a run with [toDrive] disabled no conflict is ever handled: the
    oracle is not consulted and the prompt is not opened, whatever the
    snapshots. *)
Lemma download_only_run_handles_no_conflict w :
  exists evs,
    trace (snd (performSync md5 E false true w)) = (trace w ++ evs)%list /\
    Forall (fun e => isConflictHandling e = false) evs.
Proof.
  destruct (performSync_run md5 E false true w)
    as (outcome & evs & _ & Ht & HJ & _).
  exists evs. split; [done|].
  eapply Forall_impl; [exact HJ|]. intros e He. by destruct e.
Qed.

(** In a run with [fromDrive] disabled no delete call is ever made, whatever
    [toDrive] is: the delete branch is inside the loop over the Drive files,
    which runs under [if (fromDrive)]. *)
Lemma upload_only_run_deletes_nothing toDrive w :
  exists evs,
    trace (snd (performSync md5 E toDrive false w)) = (trace w ++ evs)%list /\
    Forall (fun e => match e with EvDelete _ _ => False | _ => True end) evs.
Proof.
  destruct (performSync_run md5 E toDrive false w)
    as (outcome & evs & _ & Ht & HJ & _).
  exists evs. split; [done|].
  eapply Forall_impl; [exact HJ|]. intros e He.
  destruct e; try done. by destruct He as (_ & ? & _).
Qed.
End RunClaims.

(* ===================================================================== *)
(** ** The claims *)
(* ===================================================================== *)

Section Claims.
Variable md5 : string -> string.
Variable E : Env.

(** What the two loops do with a path present in both snapshots, at
    watermark [W].  Both sides changed: the drive loop leaves the path
    alone; the vault loop, when [toDrive] is enabled, asks the Content
    Equality Oracle, and when the oracle answers "identical" the path is
    skipped: the counters are unchanged and no transfer call is made; with
    [toDrive] disabled the vault loop leaves the path alone as well, so
    that nothing looks at it.  Only the local side changed and [toDrive]
    is enabled: the vault loop materializes the parent folder and calls
    the upload with the id of the existing remote file, which updates that
    file in place; the drive loop does nothing.  Only the remote side
    changed and [fromDrive] is enabled: the drive loop calls
    [downloadFile] and counts a download; the vault loop does nothing.
    Neither changed: both loops leave the path and the world alone. *)
Lemma both_sides_classification
    (toDrive fromDrive : bool) (W : Z)
    (driveFileMap : gmap string DriveFile.t)
    (vaultFileMap : gmap string TFile.t)
    (uploadToken downloadToken : string)
    (file : TFile.t) (driveFile : DriveFile.t) (n : Counters) (w : World) :
  driveFileMap !! TFile.path file = Some driveFile ->
  vaultFileMap !! DriveFile.path driveFile = Some file ->
  let localChanged := TFile.mtime file >? W + 2000 in
  let remoteChanged := DriveFile.modifiedTime driveFile >? W + 2000 in
  let inVaultLoop :=
    vaultLoopBody md5 E toDrive W driveFileMap uploadToken file n in
  let inDriveLoop :=
    driveLoopBody E toDrive fromDrive W vaultFileMap downloadToken
      driveFile n in
  (localChanged = true -> remoteChanged = true ->
     inDriveLoop w = (Ok n, w) /\
     (toDrive = false -> inVaultLoop w = (Ok n, w)) /\
     (toDrive = true ->
        inVaultLoop =
          (let* identicalContent :=
             filesHaveIdenticalContent md5 E file driveFile uploadToken in
           if identicalContent then ret n
           else let* _ := handleConflict E file driveFile uploadToken in
                ret (incConflicts n)) /\
        (fst (filesHaveIdenticalContent md5 E file driveFile uploadToken w)
           = Ok true ->
         fst (inVaultLoop w) = Ok n /\
         exists evs,
           trace (snd (inVaultLoop w)) = (trace w ++ evs)%list /\
           Forall (fun e => isTransfer e = false) evs))) /\
  (localChanged = true -> remoteChanged = false -> toDrive = true ->
     inDriveLoop w = (Ok n, w) /\
     inVaultLoop =
       (let* updateParentId :=
          ensureFolderPathExists E (parentFolderPath (TFile.path file))
            uploadToken in
        let* _ :=
          uploadFileToFolder E file uploadToken updateParentId
            (Some (DriveFile.id driveFile)) in
        ret (incUploaded n)) /\
     (truthy (DriveFile.id driveFile) = true ->
      forall parent w1 content,
        vault_read E (trace w1) file = Some content ->
        exists response,
          trace (snd (uploadFileToFolder E file uploadToken parent
                        (Some (DriveFile.id driveFile)) w1)) =
          (trace w1 ++
             [EvVaultRead (TFile.path file) (Some content);
              EvUploadUpdate file (DriveFile.id driveFile) response])%list)) /\
  (localChanged = false -> remoteChanged = true -> fromDrive = true ->
     inVaultLoop w = (Ok n, w) /\
     inDriveLoop =
       (let* _ := downloadFile E driveFile downloadToken in
        ret (incDownloaded n))) /\
  (localChanged = false -> remoteChanged = false ->
     inVaultLoop w = (Ok n, w) /\ inDriveLoop w = (Ok n, w)).
Proof.
  intros Hdrive Hvault localChanged remoteChanged inVaultLoop inDriveLoop.
  subst inVaultLoop inDriveLoop. unfold vaultLoopBody, driveLoopBody.
  rewrite Hdrive, Hvault. fold localChanged remoteChanged.
  split_and!.
  - intros -> ->. simpl. split_and!; [done|by intros ->|].
    intros ->. split; [done|]. intros Hid.
    destruct (filesHaveIdenticalContent_reads md5 E file driveFile
                uploadToken w) as (identical & evs & Hr & Ht & Hev).
    rewrite Hid in Hr. injection Hr as <-. unfold bind.
    destruct (filesHaveIdenticalContent md5 E file driveFile uploadToken w)
      as [[[]|] w1]; simpl in *; try done. split; [done|by exists evs].
  - intros -> -> ->. simpl. split_and!; [done|done|].
    intros Hid parent w1 content Hread.
    rewrite (uploadFileToFolder_in_place E file uploadToken parent _
               content w1 Hid Hread). simpl. by eexists.
  - intros -> -> ->. simpl. split; [by destruct toDrive|done].
  - intros -> ->. simpl. split; [by destruct toDrive|done].
Qed.

(** C2, amended.  A path present only in the remote snapshot, in a run
    with [fromDrive] enabled, at watermark [W].  When the remote
    modification time exceeds [W + 2000] the path is downloaded: its
    content is fetched and, when the fetch succeeds, the local folders of
    the path are created, parents first, and the fetched content is
    written to the path in the vault, which is the last call and counts
    as a download when the write succeeds; a fetch that fails, or a write
    that is rejected, is thrown on.  Otherwise, when [toDrive] is enabled,
    a delete call is issued for it, and when [toDrive] is disabled the
    path is skipped. *)
Theorem remote_only_classification
    (toDrive : bool) (W : Z) (vaultFileMap : gmap string TFile.t)
    (downloadToken : string) (driveFile : DriveFile.t) (n : Counters)
    (w : World) :
  vaultFileMap !! DriveFile.path driveFile = None ->
  truthy downloadToken = true ->
  let path := DriveFile.path driveFile in
  let remoteChanged := DriveFile.modifiedTime driveFile >? W + 2000 in
  let inDriveLoop :=
    driveLoopBody E toDrive true W vaultFileMap downloadToken driveFile n in
  (remoteChanged = true ->
     let fetched :=
       EvDownload driveFile (fetch_media E (trace w) driveFile) in
     match fetch_media E (trace w) driveFile with
     | RespOk content =>
         exists mkdirs : list Event,
           let h := (trace w ++ fetched :: mkdirs)%list in
           let ok := vault_write E h path content in
           let written := EvVaultWrite path content ok in
           inDriveLoop w =
             (if ok then Ok (incDownloaded n)
              else Throw (rejection E (h ++ [written])),
              extend w (fetched :: mkdirs ++ [written])) /\
           Forall (fun e => isMkdir e = true) mkdirs /\
           mkdirPaths mkdirs =
             cumulativePaths
               (List.filter truthy (split "/" (parentFolderPath path))) ""
     | RespStatus status statusText =>
         inDriveLoop w =
           (Throw (notOk "Download failed" status statusText),
            extend w [fetched])
     | NetError message =>
         inDriveLoop w = (Throw message, extend w [fetched])
     end) /\
  (remoteChanged = false -> toDrive = true ->
     let deleteResponse := fetch_delete E (trace w) driveFile in
     inDriveLoop w =
       (match deleteResponse with
        | RespOk _ => Ok (incDeleted n)
        | RespStatus _ _ => Ok n
        | NetError message => Throw message
        end,
        extend w [EvDelete driveFile deleteResponse])) /\
  (remoteChanged = false -> toDrive = false -> inDriveLoop w = (Ok n, w)).
Proof.
  intros Hvault Htok path remoteChanged inDriveLoop. subst inDriveLoop.
  unfold driveLoopBody. rewrite Hvault. fold remoteChanged.
  split_and!.
  - intros Hchanged. rewrite Hchanged. subst path. cbv zeta. unfold bind.
    pose proof (downloadFile_run E driveFile downloadToken w) as Hrun.
    cbv zeta in Hrun.
    destruct (fetch_media E (trace w) driveFile) as [content|st txt|msg].
    + destruct Hrun as (mkdirs & -> & Hall & Hpaths). exists mkdirs.
      split_and!; [|done|done].
      by destruct (vault_write E _ _ content).
    + by rewrite Hrun.
    + by rewrite Hrun.
  - intros -> ->. rewrite Htok. run_simpl.
    by destruct (fetch_delete E (trace w) driveFile).
  - by intros -> ->.
Qed.

(** C3, amended.  The stored watermark is the reading of the clock taken
    when the transfers are over.  A call of [performSync] always ends with
    one of the four outcomes.  When it ends with [Synced], the write of the
    settings is the last call of the run, the stored settings are the
    settings of the plugin, and their [lastSyncTime] is what [Date.now()]
    gave just before that write: it is not behind the stored value before
    the run exactly when that reading of the clock is not.  With every
    other outcome the stored settings are the ones before the run. *)
Theorem watermark_follows_clock (toDrive fromDrive : bool) (w : World) :
  let w' := snd (performSync md5 E toDrive fromDrive w) in
  exists outcome,
    fst (performSync md5 E toDrive fromDrive w) = Ok outcome /\
    match outcome with
    | Synced _ =>
        exists before,
          trace w' =
            (trace w ++ before ++ [EvSaveData (stored w') true])%list /\
          stored w' = settings w' /\
          lastSyncTime (stored w') = date_now E (trace w ++ before) /\
          (lastSyncTime (stored w) <= lastSyncTime (stored w') <->
           lastSyncTime (stored w) <= date_now E (trace w ++ before))
    | _ => stored w' = stored w
    end.
Proof.
  intros w'. subst w'.
  destruct (performSync_run md5 E toDrive fromDrive w)
    as (outcome & evs & Hr & Ht & _ & _ & Hout).
  exists outcome. split; [done|]. simpl in Hout.
  destruct outcome as [|msg|msg|n].
  - destruct Hout as [_ ->]. done.
  - by destruct Hout as (_ & _ & Hst & _).
  - by destruct Hout as (_ & Hst & _).
  - destruct Hout as (_ & _ & Hst & _ & pre & Hpre & Hset).
    exists pre. rewrite Hst, Hset. simpl.
    split_and!; [|done|done|done].
    by rewrite Ht, Hpre, Hset.
Qed.

(** C4.  The Content Equality Oracle: different sizes give "not identical"
    and two empty files give "identical", in both cases without any call;
    equal sizes and a binary MIME type give "identical" without any call;
    otherwise the local content is read, the remote content is fetched,
    and the answer is "identical" exactly when the two MD5 digests are
    equal; a read that fails, and a fetch that is rejected or answered
    with a status that is not OK, give "not identical". *)
Theorem oracle_policy (vaultFile : TFile.t) (driveFile : DriveFile.t)
    (accessToken : string) (w : World) :
  let vaultSize := TFile.size vaultFile in
  let driveSize := default 0 (DriveFile.size driveFile) in
  let binary := isBinaryFile (getMimeType (TFile.name vaultFile)) in
  let run :=
    filesHaveIdenticalContent md5 E vaultFile driveFile accessToken w in
  (vaultSize <> driveSize -> run = (Ok false, w)) /\
  (vaultSize = driveSize -> vaultSize = 0 -> run = (Ok true, w)) /\
  (vaultSize = driveSize -> vaultSize <> 0 -> binary = true ->
     run = (Ok true, w)) /\
  (vaultSize = driveSize -> vaultSize <> 0 -> binary = false ->
     match vault_read E (trace w) vaultFile with
     | None =>
         run = (Ok false, extend w [EvVaultRead (TFile.path vaultFile) None])
     | Some vaultContent =>
         let read := EvVaultRead (TFile.path vaultFile) (Some vaultContent) in
         match fetch_media E (trace w ++ [read]) driveFile with
         | RespOk driveContent =>
             exists identical,
               run = (Ok identical,
                      extend w [read;
                                EvCompareFetch driveFile (RespOk driveContent)])
               /\ (identical = true <-> md5 vaultContent = md5 driveContent)
         | failure =>
             run = (Ok false, extend w [read; EvCompareFetch driveFile failure])
         end
     end).
Proof. apply filesHaveIdenticalContent_run. Qed.

(** C5.  The Folder Path Materializer.  Idempotent: a second call for the
    same path, right after a call that returned, returns the same folder
    id, makes no call and changes nothing.  Memoized per run: after a call
    that returned, every later call for the same path in a world whose
    cache has only grown returns the same folder id without any call (the
    keys of the cache are in normal form throughout a run: the cleared
    cache is, and every call keeps them so; the alias ["."] of the root is
    left out).  The empty path yields the id of the sync root.  Over a
    whole run of [performSync], no two folder creation calls are made for
    the same cumulative path. *)
Theorem materializer_idempotent_memoized :
  (forall localPath tok tok' w id w1,
     ensureFolderPathExists E localPath tok w = (Ok id, w1) ->
     ensureFolderPathExists E localPath tok' w1 = (Ok id, w1)) /\
  (forall localPath tok w id w1,
     normalKeys (folderIdCache w) ->
     ensureFolderPathExists E localPath tok w = (Ok id, w1) ->
     localPath <> "." ->
     forall tok' w2,
       folderIdCache w1 ⊆ folderIdCache w2 ->
       normalKeys (folderIdCache w2) ->
       settings w2 = settings w ->
       ensureFolderPathExists E localPath tok' w2 = (Ok id, w2)) /\
  (normalKeys ∅ /\
   forall localPath tok w,
     normalKeys (folderIdCache w) ->
     normalKeys
       (folderIdCache (snd (ensureFolderPathExists E localPath tok w)))) /\
  (forall tok w,
     normalKeys (folderIdCache w) ->
     ensureFolderPathExists E "" tok w = (Ok (folderId (settings w)), w)) /\
  (forall toDrive fromDrive w,
     exists evs,
       trace (snd (performSync md5 E toDrive fromDrive w)) =
         (trace w ++ evs)%list /\
       NoDup (createdPaths evs)).
Proof.
  split_and!.
  - apply ensureFolderPathExists_again.
  - apply ensureFolderPathExists_stable.
  - apply normalKeys_empty.
  - apply ensureFolderPathExists_normal.
  - intros tok w Hkeys. apply ensureFolderPathExists_root.
    by apply normalKeys_root_free.
  - intros toDrive fromDrive w.
    destruct (performSync_run md5 E toDrive fromDrive w)
      as (outcome & evs & _ & Ht & _ & Hnd & _).
    by exists evs.
Qed.

(** C6, amended.  In a run with [toDrive] enabled and [fromDrive] disabled
    whose conflict policy is not 'keep-remote', [downloadFile] is never
    called: the run makes no fetch of a remote file for download, no
    [mkdir] and no write into the vault, whatever the snapshots and the
    watermark (under 'ask' the run only opens the prompt; the Content
    Equality Oracle may still fetch a remote content to compare
    digests). *)
Theorem upload_only_run_downloads_nothing (w : World) :
  conflictResolution (settings w) <> keep_remote ->
  exists evs,
    trace (snd (performSync md5 E true false w)) = (trace w ++ evs)%list /\
    Forall (fun e => isDownload e = false) evs.
Proof.
  intros Hpol.
  destruct (performSync_run md5 E true false w)
    as (outcome & evs & _ & Ht & HJ & _).
  exists evs. split; [done|].
  eapply Forall_impl; [exact HJ|]. intros e He.
  destruct e; simpl in *; try done;
    by destruct He as [?|[_ ?]].
Qed.

(** C8, amended.  A transfer that fails (an upload or a download answered
    with a status that is not OK or rejected, a delete call that is
    rejected) ends the run: it is the last call of the run, the run ends
    in the [catch] block, and neither the settings nor the stored settings
    change, so the watermark is not advanced.  A delete call answered with
    a status that is not OK does not: the file is not counted as deleted
    and the loop goes on. *)
Theorem failed_transfer_ends_run :
  (forall toDrive fromDrive w,
     exists outcome evs,
       fst (performSync md5 E toDrive fromDrive w) = Ok outcome /\
       trace (snd (performSync md5 E toDrive fromDrive w)) =
         (trace w ++ evs)%list /\
       forall e, In e evs -> failedTransfer e = true ->
         (exists msg, outcome = SyncFailed msg) /\
         (exists before, evs = (before ++ [e])%list /\
                         Forall (fun e' => failedTransfer e' = false) before) /\
         stored (snd (performSync md5 E toDrive fromDrive w)) = stored w /\
         settings (snd (performSync md5 E toDrive fromDrive w)) =
           settings w) /\
  (forall fromDrive W vaultFileMap tok driveFile n w status statusText,
     vaultFileMap !! DriveFile.path driveFile = None ->
     (DriveFile.modifiedTime driveFile >? W + 2000) = false ->
     truthy tok = true ->
     fetch_delete E (trace w) driveFile = RespStatus status statusText ->
     driveLoopBody E true fromDrive W vaultFileMap tok driveFile n w =
     (Ok n, extend w [EvDelete driveFile (RespStatus status statusText)])).
Proof.
  split.
  - intros toDrive fromDrive w.
    destruct (aborting_ends_run md5 E toDrive fromDrive w)
      as (outcome & evs & Hr & Ht & Hab).
    exists outcome, evs. split; [done|]. split; [done|].
    intros e Hin He.
    destruct (Hab e Hin) as (Hout & (pre & Hpre & Hgood) & Hst & Hs).
    { unfold aborting. by rewrite He. }
    split_and!; [done| |done|done].
    exists pre. split; [done|].
    eapply Forall_impl; [exact Hgood|]. intros e'. unfold aborting.
    by intros [? _]%orb_false_elim.
  - intros fromDrive W vaultFileMap tok driveFile n w status statusText Hv
      Hch Htok Hr.
    unfold driveLoopBody. rewrite Hv, Hch, Htok. run_simpl. by rewrite Hr.
Qed.

(** C9, amended.  During folder-path materialization a creation call that
    fails, and a search that is rejected, end the run: the call is the
    last call of the run, so no upload follows it, and the run ends in the
    [catch] block.  A search answered with a status that is not OK does
    not: [findDriveFolder] answers [null], and the materializer goes on to
    create the segment and to cache the id of the new folder.  The folder
    id the materializer hands to the upload is the id of the sync root or
    an id held by the cache. *)
Theorem failed_folder_call_ends_run :
  (forall toDrive fromDrive w,
     exists outcome evs,
       fst (performSync md5 E toDrive fromDrive w) = Ok outcome /\
       trace (snd (performSync md5 E toDrive fromDrive w)) =
         (trace w ++ evs)%list /\
       forall e, In e evs -> failedFolderCall e = true ->
         (exists msg, outcome = SyncFailed msg) /\
         exists before, evs = (before ++ [e])%list) /\
  (forall folderName parentId tok w status statusText,
     fetch_find E (trace w) folderName parentId
       = RespStatus status statusText ->
     findDriveFolder E folderName parentId tok w =
     (Ok None,
      extend w [EvFindFolder folderName parentId
                  (RespStatus status statusText)])) /\
  (forall tok segment st w status statusText newFolderId,
     let currentPath := extendPath (snd st) segment in
     let search :=
       EvFindFolder segment (fst st) (RespStatus status statusText) in
     folderIdCache w !! currentPath = None ->
     fetch_find E (trace w) segment (fst st) = RespStatus status statusText ->
     fetch_create E (trace w ++ [search]) segment (fst st)
       = RespOk newFolderId ->
     ensureSegment E tok segment st w =
     (Ok (newFolderId, currentPath),
      {| settings := settings w; stored := stored w;
         folderIdCache := <[currentPath := newFolderId]> (folderIdCache w);
         trace := trace w ++
                  [search;
                   EvCreateFolder currentPath segment (fst st)
                     (RespOk newFolderId)] |})) /\
  (forall localPath tok w id w1,
     ensureFolderPathExists E localPath tok w = (Ok id, w1) ->
     id = folderId (settings w) \/
     exists k, folderIdCache w1 !! k = Some id).
Proof.
  split_and!; [| | |apply ensureFolderPathExists_resolved].
  - intros toDrive fromDrive w.
    destruct (aborting_ends_run md5 E toDrive fromDrive w)
      as (outcome & evs & Hr & Ht & Hab).
    exists outcome, evs. split; [done|]. split; [done|].
    intros e Hin He.
    destruct (Hab e Hin) as (Hout & (pre & Hpre & Hgood) & Hst & Hs).
    { unfold aborting. rewrite He. apply orb_true_r. }
    split; [done|by exists pre].
  - intros folderName parentId tok w status statusText Hr.
    unfold findDriveFolder. run_simpl. by rewrite Hr.
  - intros tok segment st w status statusText newFolderId currentPath
      search Hc Hf Hcr.
    subst currentPath search.
    unfold ensureSegment, findDriveFolder, createDriveFolder, cacheSet.
    run_simpl. rewrite Hc, Hf. simpl. rewrite Hcr. simpl.
    by rewrite <- app_assoc.
Qed.


End Claims.

(* ===================================================================== *)
(** ** The claims on the closed scenarios *)
(* ===================================================================== *)

Example split_keeps_empty_pieces :
  split "/" "a//b/" = ["a"; ""; "b"; ""].
Proof. reflexivity. Qed.

Example parentFolderPath_of_nested_file :
  parentFolderPath "notes/2024/jan/entry.md" = "notes/2024/jan" /\
  parentFolderPath "a.md" = "".
Proof. split; reflexivity. Qed.

Example getMimeType_ignores_case :
  getMimeType "photo.JPG" = "image/jpeg" /\
  getMimeType "README" = "application/octet-stream".
Proof. split; reflexivity. Qed.

Example isBinaryFile_by_type :
  isBinaryFile (getMimeType "a.md") = false /\
  isBinaryFile (getMimeType "data.json") = false /\
  isBinaryFile (getMimeType "paper.pdf") = true.
Proof. repeat split; reflexivity. Qed.

(** False-conflict suppression: the note changed on both sides with the
    same content is skipped by a bidirectional run, which transfers
    nothing and counts no conflict. *)
Example identical_note_is_skipped :
  fst (performSync plainDigest identicalEnv true true
         (scenarioWorld 1000 overwrite)) = Ok (Synced zeroCounters) /\
  existsb isTransfer
    (trace (snd (performSync plainDigest identicalEnv true true
                   (scenarioWorld 1000 overwrite)))) = false.
Proof. vm_compute. split; reflexivity. Qed.

(** True conflict: with different contents and the policy 'overwrite' the
    local version replaces the remote file in place. *)
Example conflicting_note_is_overwritten :
  fst (performSync plainDigest conflictEnv true true
         (scenarioWorld 1000 overwrite))
    = Ok (Synced (incConflicts zeroCounters)) /\
  In (EvUploadUpdate noteLocal "id-a" (RespOk tt))
     (trace (snd (performSync plainDigest conflictEnv true true
                    (scenarioWorld 1000 overwrite)))).
Proof. vm_compute. intuition. Qed.

(** The note changed on both sides with the same content, at watermark
    1000, with [toDrive] enabled: the vault loop returns the counters it
    was given. *)
Example identical_note_skipped_by_vault_loop :
  fst (vaultLoopBody plainDigest identicalEnv true 1000
         (driveFileMapOf [noteRemote]) "token" noteLocal zeroCounters
         (scenarioWorld 1000 overwrite)) = Ok zeroCounters.
Proof.
  assert (driveFileMapOf [noteRemote] !! TFile.path noteLocal
          = Some noteRemote) as H1 by (vm_compute; reflexivity).
  assert (vaultFileMapOf [noteLocal] !! DriveFile.path noteRemote
          = Some noteLocal) as H2 by (vm_compute; reflexivity).
  destruct (both_sides_classification plainDigest identicalEnv true true 1000
              (driveFileMapOf [noteRemote]) (vaultFileMapOf [noteLocal])
              "token" "token" noteLocal noteRemote zeroCounters
              (scenarioWorld 1000 overwrite) H1 H2) as (Hboth & _).
  destruct (Hboth eq_refl eq_refl) as (_ & _ & HtoDrive).
  destruct (HtoDrive eq_refl) as (_ & Hidentical).
  apply Hidentical. vm_compute. reflexivity.
Qed.

(** C1 on the code: in a run with [toDrive] disabled and [fromDrive]
    enabled, at watermark 1000, the note is in both snapshots, both its
    modification times (20000 and 30000) exceed the watermark by more than
    2000, and its two contents differ, as the Content Equality Oracle
    would tell.  Neither loop treats it as a conflict candidate: the vault
    loop and the drive loop both return the counters they were given
    without making any call, so the oracle is not asked and the path is
    skipped as if its contents were identical. *)
Theorem both_changed_note_unexamined_download_only :
  driveFileMapOf [noteRemote] !! TFile.path noteLocal = Some noteRemote /\
  vaultFileMapOf [noteLocal] !! DriveFile.path noteRemote = Some noteLocal /\
  (TFile.mtime noteLocal >? 1000 + 2000) = true /\
  (DriveFile.modifiedTime noteRemote >? 1000 + 2000) = true /\
  fst (filesHaveIdenticalContent plainDigest conflictEnv noteLocal
         noteRemote "token" (scenarioWorld 1000 ask)) = Ok false /\
  vaultLoopBody plainDigest conflictEnv false 1000
    (driveFileMapOf [noteRemote]) "token" noteLocal zeroCounters
    (scenarioWorld 1000 ask) = (Ok zeroCounters, scenarioWorld 1000 ask) /\
  driveLoopBody conflictEnv false true 1000
    (vaultFileMapOf [noteLocal]) "token" noteRemote zeroCounters
    (scenarioWorld 1000 ask) = (Ok zeroCounters, scenarioWorld 1000 ask).
Proof. vm_compute. repeat split; reflexivity. Qed.

(** C2, as stated, fails: with [toDrive] enabled and [fromDrive] disabled,
    at watermark 5000, the remote listing holds [old.md], not modified
    since the watermark, and [new.md], modified after it, and the vault
    holds neither; the run ends with [Synced] and makes no delete call and
    no download. *)
Lemma remote_only_counterexample :
  snd (getDriveItemsRecursive "ROOT" ""
         (remote_listing (remoteOnlyEnv (RespOk tt)) []) [])
    = Ok [staleRemote; recentRemote] /\
  vault_getFiles (remoteOnlyEnv (RespOk tt)) [] = [] /\
  (DriveFile.modifiedTime staleRemote >? 5000 + 2000) = false /\
  (DriveFile.modifiedTime recentRemote >? 5000 + 2000) = true /\
  fst (performSync plainDigest (remoteOnlyEnv (RespOk tt)) true false
         (scenarioWorld 5000 overwrite)) = Ok (Synced zeroCounters) /\
  existsb isTransfer
    (trace (snd (performSync plainDigest (remoteOnlyEnv (RespOk tt))
                   true false (scenarioWorld 5000 overwrite)))) = false.
Proof. vm_compute. repeat split; reflexivity. Qed.

(** C2, amended, with both directions enabled at watermark 5000:
    [new.md], modified after the watermark, is fetched and its content is
    written to the vault, which counts as a download; for [old.md] the
    delete call is issued. *)
Lemma remote_only_classification_witness :
  vaultFileMapOf [] !! DriveFile.path recentRemote = None /\
  vaultFileMapOf [] !! DriveFile.path staleRemote = None /\
  truthy "token" = true /\
  driveLoopBody (remoteOnlyEnv (RespOk tt)) true true 5000
    (vaultFileMapOf []) "token" recentRemote zeroCounters
    (scenarioWorld 5000 overwrite) =
  (Ok (incDownloaded zeroCounters),
   extend (scenarioWorld 5000 overwrite)
     [EvDownload recentRemote (RespOk "new");
      EvVaultWrite "new.md" "new" true]) /\
  driveLoopBody (remoteOnlyEnv (RespOk tt)) true true 5000
    (vaultFileMapOf []) "token" staleRemote zeroCounters
    (scenarioWorld 5000 overwrite) =
  (Ok (incDeleted zeroCounters),
   extend (scenarioWorld 5000 overwrite) [EvDelete staleRemote (RespOk tt)]).
Proof.
  assert (vaultFileMapOf [] !! DriveFile.path recentRemote
          = None (A:=TFile.t)) as H1 by (vm_compute; reflexivity).
  assert (vaultFileMapOf [] !! DriveFile.path staleRemote
          = None (A:=TFile.t)) as H2 by (vm_compute; reflexivity).
  split; [exact H1|]. split; [exact H2|]. split; [reflexivity|].
  split.
  - destruct (remote_only_classification (remoteOnlyEnv (RespOk tt)) true
                5000 (vaultFileMapOf []) "token" recentRemote zeroCounters
                (scenarioWorld 5000 overwrite) H1 eq_refl)
      as (Hdownload & _).
    destruct (Hdownload eq_refl) as (mkdirs & Hrun & Hall & Hpaths).
    destruct mkdirs as [|e mkdirs]; [exact Hrun|]. exfalso.
    apply Forall_cons in Hall as [He _].
    destruct e; try discriminate He.
    vm_compute in Hpaths. discriminate Hpaths.
  - destruct (remote_only_classification (remoteOnlyEnv (RespOk tt)) true
                5000 (vaultFileMapOf []) "token" staleRemote zeroCounters
                (scenarioWorld 5000 overwrite) H2 eq_refl)
      as (_ & Hdelete & _).
    exact (Hdelete eq_refl eq_refl).
Defined.

(** C3, as stated, fails: the stored watermark is 1800000000000 and the
    clock reads [scenarioNow], which is earlier; nothing has changed since
    the watermark, the run ends with [Synced], and the stored watermark
    has moved back to the reading of the clock. *)
Lemma watermark_counterexample :
  lastSyncTime (stored (scenarioWorld 1800000000000 overwrite))
    = 1800000000000 /\
  fst (performSync plainDigest identicalEnv true true
         (scenarioWorld 1800000000000 overwrite))
    = Ok (Synced zeroCounters) /\
  lastSyncTime
    (stored (snd (performSync plainDigest identicalEnv true true
                    (scenarioWorld 1800000000000 overwrite))))
    = 1700000000000 /\
  lastSyncTime
    (stored (snd (performSync plainDigest identicalEnv true true
                    (scenarioWorld 1800000000000 overwrite))))
    < lastSyncTime (stored (scenarioWorld 1800000000000 overwrite)).
Proof. vm_compute. repeat split; reflexivity. Qed.

(** C3, amended, at the conflict scenario: the run ends with [Synced] and
    the stored watermark, 1000 before the run, is [scenarioNow] after
    it. *)
Example watermark_after_conflict_run :
  lastSyncTime
    (stored (snd (performSync plainDigest conflictEnv true true
                    (scenarioWorld 1000 overwrite)))) = scenarioNow.
Proof.
  destruct (watermark_follows_clock plainDigest conflictEnv true true
              (scenarioWorld 1000 overwrite)) as (outcome & Hrun & Hout).
  assert (outcome = Synced (incConflicts zeroCounters)) as ->.
  { vm_compute in Hrun. by injection Hrun as <-. }
  destruct Hout as (before & _ & _ & -> & _). reflexivity.
Qed.

(** C4 at the note with contents "X" and "Y": same size, not binary, both
    contents read, different digests. *)
Lemma oracle_policy_witness :
  TFile.size noteLocal = default 0 (DriveFile.size noteRemote) /\
  TFile.size noteLocal <> 0 /\
  isBinaryFile (getMimeType (TFile.name noteLocal)) = false /\
  filesHaveIdenticalContent plainDigest conflictEnv noteLocal noteRemote
    "token" (scenarioWorld 1000 overwrite) =
  (Ok false,
   extend (scenarioWorld 1000 overwrite)
     [EvVaultRead "a.md" (Some "X");
      EvCompareFetch noteRemote (RespOk "Y")]).
Proof.
  assert (TFile.size noteLocal <> 0) as Hsize by discriminate.
  split; [reflexivity|]. split; [exact Hsize|]. split; [reflexivity|].
  destruct (oracle_policy plainDigest conflictEnv noteLocal noteRemote
              "token" (scenarioWorld 1000 overwrite)) as (_ & _ & _ & Htext).
  destruct (Htext eq_refl Hsize eq_refl) as (identical & Hrun & Hiff).
  destruct identical; [|exact Hrun].
  destruct Hiff as [Hdigest _]. discriminate (Hdigest eq_refl).
Defined.

(** C5 at the directory [notes/2024/jan] on an empty remote folder and a
    cleared cache: the first call creates the three folders; a second call
    right after it, and a call after the sibling directory [notes/2024/feb]
    has been materialized in between, return the same id. *)
Lemma materializer_idempotent_memoized_witness :
  normalKeys (folderIdCache (scenarioWorld 5000 overwrite)) /\
  ensureFolderPathExists (deepPathEnv (RespOk [])) "notes/2024/jan" "token"
    (scenarioWorld 5000 overwrite) = (Ok "id-of-jan", janWorld) /\
  ensureFolderPathExists (deepPathEnv (RespOk [])) "notes/2024/jan" "token"
    janWorld = (Ok "id-of-jan", janWorld) /\
  ensureFolderPathExists (deepPathEnv (RespOk [])) "notes/2024/jan" "token"
    febWorld = (Ok "id-of-jan", febWorld).
Proof.
  assert (normalKeys (folderIdCache (scenarioWorld 5000 overwrite)))
    as Hkeys by apply normalKeys_empty.
  assert (ensureFolderPathExists (deepPathEnv (RespOk [])) "notes/2024/jan"
            "token" (scenarioWorld 5000 overwrite)
          = (Ok "id-of-jan", janWorld)) as Hfirst
    by (vm_compute; reflexivity).
  destruct (materializer_idempotent_memoized plainDigest
              (deepPathEnv (RespOk [])))
    as (Hagain & Hstable & (_ & Hnormal) & _).
  split; [exact Hkeys|]. split; [exact Hfirst|].
  split; [exact (Hagain _ _ "token" _ _ _ Hfirst)|].
  apply (Hstable _ _ _ _ _ Hkeys Hfirst).
  - discriminate.
  - apply (ensureFolderPathExists_grows (deepPathEnv (RespOk []))
             "notes/2024/feb" "token" janWorld "id-of-feb").
    vm_compute. reflexivity.
  - apply Hnormal. apply Hnormal. exact Hkeys.
  - reflexivity.
Defined.

(** Deep-path materialization: two new files in [notes/2024/jan] cost
    three folder creations in the run, one per cumulative path. *)
Example deep_path_creates_three_folders :
  createdPaths
    (trace (snd (performSync plainDigest (deepPathEnv (RespOk [])) true true
                   (scenarioWorld 5000 overwrite))))
  = ["notes"; "notes/2024"; "notes/2024/jan"].
Proof. vm_compute. reflexivity. Qed.

(** C6, as stated, fails: with [toDrive] enabled, [fromDrive] disabled and
    the policy 'keep-remote', the note changed on both sides with
    different contents is downloaded and written into the vault. *)
Lemma upload_only_run_counterexample :
  fst (performSync plainDigest conflictEnv true false
         (scenarioWorld 1000 keep_remote))
    = Ok (Synced (incConflicts zeroCounters)) /\
  In (EvDownload noteRemote (RespOk "Y"))
     (trace (snd (performSync plainDigest conflictEnv true false
                    (scenarioWorld 1000 keep_remote)))) /\
  In (EvVaultWrite "a.md" "Y" true)
     (trace (snd (performSync plainDigest conflictEnv true false
                    (scenarioWorld 1000 keep_remote)))).
Proof. vm_compute. intuition. Qed.

(** C6, amended, at the same scenario under the policy 'overwrite'. *)
Lemma upload_only_run_downloads_nothing_witness :
  conflictResolution (settings (scenarioWorld 1000 overwrite))
    <> keep_remote /\
  exists evs,
    trace (snd (performSync plainDigest conflictEnv true false
                  (scenarioWorld 1000 overwrite))) =
      (trace (scenarioWorld 1000 overwrite) ++ evs)%list /\
    Forall (fun e => isDownload e = false) evs.
Proof.
  assert (conflictResolution (settings (scenarioWorld 1000 overwrite))
            <> keep_remote) as Hpolicy by discriminate.
  split; [exact Hpolicy|].
  exact (upload_only_run_downloads_nothing plainDigest conflictEnv
           (scenarioWorld 1000 overwrite) Hpolicy).
Defined.

(** C7 on the code: with [toDrive] disabled and [fromDrive] enabled, the
    note changed on both sides (20000 and 30000, watermark 1000) with
    different contents is skipped: the oracle is not consulted, the
    resolver does not run, nothing is transferred, no conflict is counted,
    and the watermark advances. *)
Theorem download_only_run_skips_conflict :
  (TFile.mtime noteLocal >? 1000 + 2000) = true /\
  (DriveFile.modifiedTime noteRemote >? 1000 + 2000) = true /\
  fst (performSync plainDigest conflictEnv false true
         (scenarioWorld 1000 overwrite)) = Ok (Synced zeroCounters) /\
  existsb isConflictHandling
    (trace (snd (performSync plainDigest conflictEnv false true
                   (scenarioWorld 1000 overwrite)))) = false /\
  existsb isTransfer
    (trace (snd (performSync plainDigest conflictEnv false true
                   (scenarioWorld 1000 overwrite)))) = false /\
  lastSyncTime
    (stored (snd (performSync plainDigest conflictEnv false true
                    (scenarioWorld 1000 overwrite)))) = scenarioNow.
Proof. vm_compute. repeat split; reflexivity. Qed.

(** C8, as stated, fails: the delete call for [old.md] is answered with
    status 403, the run goes on to download [new.md], ends with [Synced]
    and advances the watermark from 5000 to [scenarioNow]. *)
Lemma failed_delete_counterexample :
  fst (performSync plainDigest (remoteOnlyEnv forbidden) true true
         (scenarioWorld 5000 overwrite))
    = Ok (Synced (incDownloaded zeroCounters)) /\
  In (EvDelete staleRemote forbidden)
     (trace (snd (performSync plainDigest (remoteOnlyEnv forbidden)
                    true true (scenarioWorld 5000 overwrite)))) /\
  In (EvDownload recentRemote (RespOk "new"))
     (trace (snd (performSync plainDigest (remoteOnlyEnv forbidden)
                    true true (scenarioWorld 5000 overwrite)))) /\
  lastSyncTime
    (stored (snd (performSync plainDigest (remoteOnlyEnv forbidden)
                    true true (scenarioWorld 5000 overwrite))))
    = scenarioNow.
Proof. vm_compute. intuition. Qed.

(** C8, amended, at the delete call answered with status 403. *)
Lemma failed_transfer_ends_run_witness :
  vaultFileMapOf [] !! DriveFile.path staleRemote = None /\
  (DriveFile.modifiedTime staleRemote >? 5000 + 2000) = false /\
  truthy "token" = true /\
  fetch_delete (remoteOnlyEnv forbidden)
    (trace (scenarioWorld 5000 overwrite)) staleRemote = forbidden /\
  driveLoopBody (remoteOnlyEnv forbidden) true true 5000
    (vaultFileMapOf []) "token" staleRemote zeroCounters
    (scenarioWorld 5000 overwrite) =
  (Ok zeroCounters,
   extend (scenarioWorld 5000 overwrite)
     [EvDelete staleRemote forbidden]).
Proof.
  assert (vaultFileMapOf [] !! DriveFile.path staleRemote = None (A:=TFile.t))
    as H1 by (vm_compute; reflexivity).
  split; [exact H1|]. split; [reflexivity|]. split; [reflexivity|].
  split; [reflexivity|].
  destruct (failed_transfer_ends_run plainDigest
              (remoteOnlyEnv forbidden)) as (_ & Hstatus).
  exact (Hstatus true 5000 (vaultFileMapOf []) "token" staleRemote
           zeroCounters (scenarioWorld 5000 overwrite) 403 "Forbidden" H1
           eq_refl
           eq_refl eq_refl).
Defined.

(** C9, as stated, fails: every folder search is answered with status 500,
    the materializer creates the three folders all the same, both files
    are uploaded into the new folder and the run ends with [Synced]. *)
Lemma failed_search_counterexample :
  fst (performSync plainDigest (deepPathEnv serverError) true true
         (scenarioWorld 5000 overwrite))
    = Ok (Synced (incUploaded (incUploaded zeroCounters))) /\
  In (EvFindFolder "notes" "ROOT" serverError)
     (trace (snd (performSync plainDigest (deepPathEnv serverError)
                    true true (scenarioWorld 5000 overwrite)))) /\
  In (EvUploadCreate entryLocal "id-of-jan" (RespOk tt))
     (trace (snd (performSync plainDigest (deepPathEnv serverError)
                    true true (scenarioWorld 5000 overwrite)))).
Proof. vm_compute. intuition. Qed.

(** C9, amended, at the search for [notes] answered with status 500. *)
Lemma failed_folder_call_ends_run_witness :
  fetch_find (deepPathEnv serverError)
    (trace (scenarioWorld 5000 overwrite)) "notes" "ROOT" = serverError /\
  findDriveFolder (deepPathEnv serverError) "notes" "ROOT" "token"
    (scenarioWorld 5000 overwrite) =
  (Ok None,
   extend (scenarioWorld 5000 overwrite)
     [EvFindFolder "notes" "ROOT" serverError]).
Proof.
  split; [reflexivity|].
  destruct (failed_folder_call_ends_run plainDigest
              (deepPathEnv serverError))
    as (_ & Hsearch & _ & _).
  exact (Hsearch "notes" "ROOT" "token" (scenarioWorld 5000 overwrite) 500
           "Internal Server Error" eq_refl).
Defined.


(* ===================================================================== *)
(** ** Further properties of the engine *)
(* ===================================================================== *)

(* --------------------------------------------------------------------- *)
(** *** File names and paths *)
(* --------------------------------------------------------------------- *)

Lemma last_app_ne {A} (l1 l2 : list A) d :
  l2 <> [] -> List.last (l1 ++ l2) d = List.last l2 d.
Proof.
  intros Hne. induction l1 as [|x l1 IH]; [done|]. simpl.
  destruct (l1 ++ l2)%list eqn:Happ; [|done].
  apply app_eq_nil in Happ as [_ ?]. done.
Qed.

Lemma last_split_append sep a b :
  List.last (split sep (a ++ String sep b)) "" = List.last (split sep b) "".
Proof. rewrite split_append. apply last_app_ne, split_not_nil. Qed.

(** X1.  [getMimeType] looks only at what follows the last dot of the
    file name: whatever precedes it, dots included, does not change the
    type. *)
Theorem getMimeType_last_extension (stem ext : string) :
  includes "." ext = false ->
  getMimeType (stem ++ "." ++ ext) = getMimeType ext.
Proof.
  intros Hfree. unfold getMimeType.
  change ("." ++ ext) with (String "." ext).
  by rewrite last_split_append, (split_free _ _ Hfree).
Qed.

Lemma toLowerAscii_dot c :
  Ascii.eqb (toLowerAscii c) "." = Ascii.eqb c ".".
Proof. destruct c as [[] [] [] [] [] [] [] []]; reflexivity. Qed.

Lemma split_toLowerCase s :
  split "." (toLowerCase s) = map toLowerCase (split "." s).
Proof.
  induction s as [|c s IH]; [done|]. simpl.
  rewrite toLowerAscii_dot, IH.
  destruct (Ascii.eqb c "."); [done|].
  pose proof (split_not_nil "." s). by destruct (split "." s).
Qed.

Lemma last_map {A B} (f : A -> B) l d :
  List.last (map f l) (f d) = f (List.last l d).
Proof.
  induction l as [|x l IH]; [done|]. simpl. rewrite IH.
  by destruct l.
Qed.

Lemma extension_toLowerCase s :
  toLowerCase (List.last (split "." s) "") =
  List.last (split "." (toLowerCase s)) "".
Proof.
  rewrite split_toLowerCase.
  change "" with (toLowerCase "") at 2. by rewrite last_map.
Qed.

Lemma toLowerCase_idem s : toLowerCase (toLowerCase s) = toLowerCase s.
Proof.
  induction s as [|c s IH]; [done|]. simpl. rewrite IH. f_equal.
  destruct c as [[] [] [] [] [] [] [] []]; reflexivity.
Qed.

(** X2.  [getMimeType] does not distinguish upper-case and lower-case
    ASCII letters: two names that are equal once lower-cased get the same
    type. *)
Theorem getMimeType_case_insensitive (a b : string) :
  toLowerCase a = toLowerCase b -> getMimeType a = getMimeType b.
Proof.
  intros Hab. unfold getMimeType.
  by rewrite !extension_toLowerCase, Hab.
Qed.

(** X3.  The files [isBinaryFile] treats as text, given the type
    [getMimeType] assigns to their name, are exactly those whose extension
    is [md], [txt] or [json], in any case; every other file, SVG images
    included, is read, uploaded and compared as binary. *)
Theorem text_extensions (filename : string) :
  let ext := toLowerCase (List.last (split "." filename) "") in
  isBinaryFile (getMimeType filename) = false <->
  ext = "md" \/ ext = "txt" \/ ext = "json".
Proof.
  intros ext. unfold getMimeType. fold ext.
  repeat match goal with
  | |- context [String.eqb ext ?s] =>
      let H := fresh "H" in
      destruct (String.eqb ext s) eqn:H;
      [apply String.eqb_eq in H; rewrite H; vm_compute; intuition congruence
      |apply String.eqb_neq in H]
  end.
  vm_compute. intuition congruence.
Qed.

Lemma includes_lastIndexOf p :
  includes "/" p = true ->
  exists i name,
    lastIndexOf "/" p = Some i /\ includes "/" name = false /\
    p = substring 0 i p ++ "/" ++ name.
Proof.
  induction p as [|c p IH]; [done|]. simpl.
  destruct (includes "/" p) eqn:Hp.
  - intros _. destruct (IH eq_refl) as (i & name & Hi & Hname & Heq).
    rewrite Hi. exists (S i), name. split_and!; [done|done|].
    simpl. change (String c (substring 0 i p) ++ "/" ++ name)
      with (String c (substring 0 i p ++ "/" ++ name)). by rewrite <- Heq.
  - rewrite orb_false_r. intros Hc. apply Ascii.eqb_eq in Hc. subst c.
    assert (lastIndexOf "/" p = None) as ->.
    { clear IH. induction p as [|c p IH]; [done|]. simpl in *.
      apply orb_false_elim in Hp as [Hc Hp]. by rewrite (IH Hp), Hc. }
    simpl. exists O, p. split_and!; [done|done|]. by destruct p.
Qed.

(** X4.  The folder path the engine extracts from a file path.  A path
    with a slash is its folder path, a slash, and a name without slash; a
    path without slash has the empty folder path, which stands for the
    sync root. *)
Theorem parentFolderPath_splits (p : string) :
  if includes "/" p then
    exists name, includes "/" name = false /\
                 p = slashJoin (parentFolderPath p) name
  else parentFolderPath p = "".
Proof.
  unfold parentFolderPath, slashJoin.
  destruct (includes "/" p) eqn:Hp; [|done].
  destruct (includes_lastIndexOf p Hp) as (i & name & -> & Hname & Heq).
  by exists name.
Qed.

Lemma lastIndexOf_free c s : includes c s = false -> lastIndexOf c s = None.
Proof.
  induction s as [|a s IH]; [done|]. simpl.
  intros [Ha Hs]%orb_false_elim. by rewrite (IH Hs), Ha.
Qed.

Lemma slashJoin_parent dir name :
  includes "/" name = false ->
  includes "/" (slashJoin dir name) = true /\
  lastIndexOf "/" (slashJoin dir name) = Some (String.length dir) /\
  substring 0 (String.length dir) (slashJoin dir name) = dir.
Proof.
  intros Hname. unfold slashJoin. induction dir as [|c dir IH].
  - change ("" ++ "/" ++ name) with (String "/" name). simpl.
    rewrite (lastIndexOf_free _ _ Hname). split_and!; [done|done|].
    by destruct name.
  - destruct IH as (Hi & Hl & Hs).
    change (String c dir ++ "/" ++ name)
      with (String c (dir ++ "/" ++ name)). simpl.
    rewrite Hi, Hl, Hs. by rewrite orb_true_r.
Qed.

(** X5.  Round trip between the remote walker and [downloadFile]: the
    walker builds the path of a file from the path of its folder and its
    name, and the folder path extracted from that path is the path of the
    folder again, provided the name holds no slash. *)
Theorem parentFolderPath_extendPath (dir name : string) :
  includes "/" name = false ->
  parentFolderPath (extendPath dir name) = dir.
Proof.
  intros Hname. unfold extendPath.
  destruct (truthy dir) eqn:Hdir.
  - destruct (slashJoin_parent dir name Hname) as (Hi & Hl & Hs).
    unfold parentFolderPath. by rewrite Hi, Hl.
  - unfold parentFolderPath. rewrite Hname. by destruct dir.
Qed.

(* --------------------------------------------------------------------- *)
(** *** Local folders and downloads *)
(* --------------------------------------------------------------------- *)

Section LocalFolders.
Variable E : Env.

(** X6.  [ensureLocalFolderExists] never fails, even when every [mkdir]
    is rejected.  It makes one [mkdir] call per non-empty segment of the
    folder path and no other call, on the cumulative paths, parents
    first; the last one is the folder path without its empty segments. *)
Theorem ensureLocalFolderExists_prefixes (folderPath : string) (w : World) :
  let segments := List.filter truthy (split "/" folderPath) in
  exists evs,
    ensureLocalFolderExists E folderPath w = (Ok tt, extend w evs) /\
    Forall (fun e => isMkdir e = true) evs /\
    mkdirPaths evs = cumulativePaths segments "" /\
    List.last (mkdirPaths evs) "" = pathOf segments "".
Proof. apply ensureLocalFolderExists_run. Qed.

(** X7.  [downloadFile] writes into the vault what it fetched, and
    nothing else.  When the request is answered with a status that is
    not OK it throws "Download failed" with the status and its text, and
    when the request is rejected it throws the error of the request; in
    both cases it has made no other call.  When the fetch succeeds it
    creates the folders of the file, parents first, and then makes
    exactly one write, of the content it fetched, to the path of the
    Drive file, as its last call; it throws the error of that write if
    the write is rejected, and a rejected [mkdir] does not stop it. *)
Theorem downloadFile_writes_after_fetch (driveFile : DriveFile.t)
    (accessToken : string) (w : World) :
  let path := DriveFile.path driveFile in
  let fetched := EvDownload driveFile (fetch_media E (trace w) driveFile) in
  match fetch_media E (trace w) driveFile with
  | RespOk content =>
      exists mkdirs : list Event,
        let h := (trace w ++ fetched :: mkdirs)%list in
        let ok := vault_write E h path content in
        let written := EvVaultWrite path content ok in
        downloadFile E driveFile accessToken w =
          (if ok then Ok tt else Throw (rejection E (h ++ [written])),
           extend w (fetched :: mkdirs ++ [written])) /\
        Forall (fun e => isMkdir e = true) mkdirs /\
        mkdirPaths mkdirs =
          cumulativePaths
            (List.filter truthy (split "/" (parentFolderPath path))) ""
  | RespStatus status statusText =>
      downloadFile E driveFile accessToken w =
        (Throw (notOk "Download failed" status statusText),
         extend w [fetched])
  | NetError message =>
      downloadFile E driveFile accessToken w =
        (Throw message, extend w [fetched])
  end.
Proof. apply downloadFile_run. Qed.
End LocalFolders.

(* --------------------------------------------------------------------- *)
(** *** The two maps and the remote walker *)
(* --------------------------------------------------------------------- *)

Lemma foldl_insert_last {V} (key : V -> string) (files : list V) :
  forall (m : gmap string V) p,
  foldl (fun m f => <[key f := f]> m) m files !! p =
  match last (List.filter (fun f => String.eqb (key f) p) files) with
  | Some f => Some f
  | None => m !! p
  end.
Proof.
  induction files as [|f files IH]; intros m p; [done|]. simpl.
  rewrite IH. destruct (String.eqb (key f) p) eqn:Hk.
  - apply String.eqb_eq in Hk. rewrite last_cons.
    destruct (last _); [done|]. by rewrite <- Hk, lookup_insert_eq.
  - apply String.eqb_neq in Hk. destruct (last _); [done|].
    by rewrite lookup_insert_ne.
Qed.

(** X8.  The two maps [performSync] builds from the snapshots are keyed
    by path, and a later file replaces an earlier one with the same path:
    a lookup yields the last file of the list that has this path, and
    nothing when no file has it. *)
Theorem file_maps_keep_last_entry :
  (forall (vaultFiles : list TFile.t) (p : string),
     vaultFileMapOf vaultFiles !! p =
     last (List.filter (fun f => String.eqb (TFile.path f) p) vaultFiles)) /\
  (forall (driveFiles : list DriveFile.t) (p : string),
     driveFileMapOf driveFiles !! p =
     last (List.filter (fun f => String.eqb (DriveFile.path f) p)
             driveFiles)).
Proof.
  split; intros files p.
  - unfold vaultFileMapOf. rewrite (foldl_insert_last TFile.path).
    by destruct (last _).
  - unfold driveFileMapOf. rewrite (foldl_insert_last DriveFile.path).
    by destruct (last _).
Qed.

Lemma walker_files :
  (forall listing folder currentPath allFiles evs files,
     getDriveItemsRecursive folder currentPath listing allFiles =
       (evs, Ok files) ->
     exists found, files = (allFiles ++ found)%list /\
                   Forall walkedFile found) /\
  (forall items currentPath evs0 allFiles evs files,
     itemsLoop currentPath items evs0 allFiles = (evs, Ok files) ->
     exists found, files = (allFiles ++ found)%list /\
                   Forall walkedFile found).
Proof.
  apply Listing_Items_ind.
  - intros. done.
  - intros. done.
  - intros items IH folder currentPath allFiles evs files. simpl. apply IH.
  - intros currentPath evs0 allFiles evs files [= _ <-]. exists [].
    by rewrite app_nil_r.
  - intros id name mimeType modifiedTime size children IHc rest IHr
      currentPath evs0 allFiles evs files. simpl.
    destruct (String.eqb mimeType FOLDER_MIME) eqn:Hmime.
    + destruct (getDriveItemsRecursive id _ children allFiles)
        as [evs' [files'|msg]] eqn:Hc; [|done].
      intros Hrest.
      destruct (IHc _ _ _ _ _ Hc) as (f1 & -> & H1).
      destruct (IHr _ _ _ _ _ Hrest) as (f2 & -> & H2).
      exists (f1 ++ f2)%list. rewrite app_assoc. split; [done|].
      apply Forall_app. by split.
    + intros Hrest. destruct (IHr _ _ _ _ _ Hrest) as (f2 & -> & H2).
      eexists (_ :: f2). rewrite <- app_assoc. split; [done|].
      constructor; [|done]. split; [done|]. simpl. by exists currentPath.
Qed.

Lemma walker_fail_fast :
  (forall listing folder currentPath allFiles,
     let run := getDriveItemsRecursive folder currentPath listing allFiles in
     match snd run with
     | Ok _ => Forall (fun e => okListing e = true) (fst run)
     | Throw _ =>
         exists pre failed,
           fst run = (pre ++ [EvListFolder failed false])%list /\
           Forall (fun e => okListing e = true) pre
     end) /\
  (forall items currentPath evs0 allFiles,
     Forall (fun e => okListing e = true) evs0 ->
     let run := itemsLoop currentPath items evs0 allFiles in
     match snd run with
     | Ok _ => Forall (fun e => okListing e = true) (fst run)
     | Throw _ =>
         exists pre failed,
           fst run = (pre ++ [EvListFolder failed false])%list /\
           Forall (fun e => okListing e = true) pre
     end).
Proof.
  apply Listing_Items_ind.
  - intros. simpl. by exists [], folder.
  - intros. simpl. by exists [], folder.
  - intros items IH folder currentPath allFiles. simpl. apply IH.
    by repeat constructor.
  - intros. done.
  - intros id name mimeType modifiedTime size children IHc rest IHr
      currentPath evs0 allFiles Hevs0. simpl.
    destruct (String.eqb mimeType FOLDER_MIME); [|by apply IHr].
    specialize (IHc id (extendPath currentPath name) allFiles).
    simpl in IHc.
    destruct (getDriveItemsRecursive id _ children allFiles)
      as [evs' [files'|msg]]; simpl in *.
    + apply IHr. apply Forall_app. by split.
    + destruct IHc as (pre & failed & -> & Hpre).
      exists (evs0 ++ pre)%list, failed. rewrite app_assoc. split; [done|].
      apply Forall_app. by split.
Qed.

Section Walker.
Variable E : Env.

Lemma getDriveFilesRecursive_run (accessToken : string)
    (w : World) :
  exists evs,
    snd (getDriveFilesRecursive E accessToken w) = extend w evs /\
    match fst (getDriveFilesRecursive E accessToken w) with
    | Ok files =>
        Forall walkedFile files /\
        Forall (fun e => okListing e = true) evs
    | Throw _ =>
        exists pre failed,
          evs = (pre ++ [EvListFolder failed false])%list /\
          Forall (fun e => okListing e = true) pre
    end.
Proof.
  unfold getDriveFilesRecursive. run_simpl.
  pose proof (proj1 walker_files (remote_listing E (trace w))
                (folderId (settings w)) "" []) as Hfiles.
  pose proof (proj1 walker_fail_fast (remote_listing E (trace w))
                (folderId (settings w)) "" []) as Hcalls.
  simpl in Hcalls.
  destruct (getDriveItemsRecursive _ _ _ _) as [evs [files|msg]];
    simpl in *.
  - exists evs. split; [done|]. split; [|done].
    destruct (Hfiles _ _ eq_refl) as (found & -> & Hfound). done.
  - exists evs. done.
Qed.

(** X9.  What the recursive listing returns and when it fails.  When it
    returns, every listing call was answered, and every entry it returns
    is a file, not a folder, whose path is the path of a folder extended
    by the name of the file.  When it throws, the listing that failed is
    its last call: nothing is listed after a failure. *)
Theorem getDriveFilesRecursive_returns_files (accessToken : string)
    (w : World) :
  exists evs,
    snd (getDriveFilesRecursive E accessToken w) = extend w evs /\
    match fst (getDriveFilesRecursive E accessToken w) with
    | Ok files =>
        Forall walkedFile files /\
        Forall (fun e => okListing e = true) evs
    | Throw _ =>
        exists pre failed,
          evs = (pre ++ [EvListFolder failed false])%list /\
          Forall (fun e => okListing e = true) pre
    end.
Proof. apply getDriveFilesRecursive_run. Qed.
End Walker.

(* --------------------------------------------------------------------- *)
(** *** The kinds of calls each part of a run makes *)
(* --------------------------------------------------------------------- *)

Global Instance emits_compositional kinds : Compositional (emits kinds).
Proof.
  split; unfold emits.
  - intros w b. split_and!; [done|done|]. exists [].
    split; [by rewrite app_nil_r|constructor].
  - intros w w1 w2 b (Hs1 & Hst1 & e1 & Ht1 & H1) (Hs2 & Hst2 & e2 & Ht2 & H2).
    split_and!; [congruence|congruence|]. exists (e1 ++ e2)%list.
    split; [by rewrite Ht2, Ht1, app_assoc|]. apply Forall_app. by split.
Qed.

Lemma emits_weaken {A} kinds kinds' (m : M A) :
  incl kinds kinds' -> sat (emits kinds) m -> sat (emits kinds') m.
Proof.
  intros Hincl Hm w. destruct (Hm w) as (Hs & Hst & evs & Ht & Hall).
  split_and!; [done|done|]. exists evs. split; [done|].
  eapply Forall_impl; [exact Hall|]. intros e He. by apply Hincl.
Qed.

Ltac kinds_tac := simpl; repeat (apply List.Forall_cons; [simpl; tauto|]);
  try apply List.Forall_nil.

Ltac emits_case :=
  split_and!; [reflexivity|reflexivity|];
  eexists; split; [trace_eq|kinds_tac].

Ltac incl_tac := intros ? ?; simpl in *; tauto.

Section Footprints.
Variable E : Env.

Lemma freshAccessToken_emits msg :
  sat (emits [KToken]) (freshAccessToken E msg).
Proof.
  intros w. unfold satAt, freshAccessToken. run_simpl.
  repeat case_env; emits_case.
Qed.

Lemma validateDriveFolder_emits tok :
  sat (emits [KValidate]) (validateDriveFolder E tok).
Proof.
  intros w. unfold satAt, validateDriveFolder. run_simpl.
  repeat case_env; emits_case.
Qed.

Lemma getDriveFilesRecursive_emits tok :
  sat (emits [KList]) (getDriveFilesRecursive E tok).
Proof.
  intros w. unfold satAt, getDriveFilesRecursive. run_simpl.
  pose proof (proj1 walker_events (remote_listing E (trace w))
                (folderId (settings w)) "" []) as Hev.
  destruct (getDriveItemsRecursive _ _ _ _) as [evs [files|msg]];
    simpl in *.
  all: split_and!; [done|done|]; exists evs; (split; [trace_eq|]).
  all: eapply Forall_impl; [exact Hev|]; intros [] ?; simpl; tauto.
Qed.

Lemma uploadFileToFolder_emits file tok parent fileId :
  sat (emits [KRead; KUpload]) (uploadFileToFolder E file tok parent fileId).
Proof.
  intros w. unfold satAt, uploadFileToFolder, vaultRead. run_simpl.
  repeat case_env; emits_case.
Qed.

Lemma mkdirSegment_emits segment cur :
  sat (emits [KMkdir]) (mkdirSegment E segment cur).
Proof. intros w. unfold satAt, mkdirSegment. run_simpl. emits_case. Qed.

Lemma ensureLocalFolderExists_emits folderPath :
  sat (emits [KMkdir]) (ensureLocalFolderExists E folderPath).
Proof.
  unfold ensureLocalFolderExists. s_bind; [|s_ret]. s_forEach.
  apply mkdirSegment_emits.
Qed.

Lemma downloadFile_emits driveFile tok :
  sat (emits [KDownload; KMkdir; KWrite]) (downloadFile E driveFile tok).
Proof.
  intros w. unfold downloadFile. s_read.
  destruct (fetch_media E (trace w) driveFile) as [content|st|] eqn:Hr.
  2,3: unfold satAt; run_simpl; emits_case.
  s_bind_at; [unfold satAt, log; simpl; emits_case|]. intros _ w1 _.
  s_bind_at.
  { destruct (includes _ _); [|by s_ret].
    eapply emits_weaken; [|apply ensureLocalFolderExists_emits]. incl_tac. }
  intros _ w2 _. unfold satAt. run_simpl. repeat case_env; emits_case.
Qed.

Lemma ensureSegment_emits tok segment st :
  sat (emits [KFind; KCreate]) (ensureSegment E tok segment st).
Proof.
  intros w. unfold satAt, ensureSegment, findDriveFolder, createDriveFolder,
    cacheSet. run_simpl. repeat case_env; emits_case.
Qed.

Lemma ensureFolderPathExists_emits localPath tok :
  sat (emits [KFind; KCreate]) (ensureFolderPathExists E localPath tok).
Proof.
  unfold ensureFolderPathExists. s_bind; [s_get|].
  destruct (_ !! _); [s_ret|]. s_bind; [s_get|].
  destruct (_ || _); [s_ret|]. s_bind; [|s_ret].
  s_forEach. apply ensureSegment_emits.
Qed.

Lemma filesHaveIdenticalContent_emits md5 vaultFile driveFile tok :
  sat (emits [KRead; KCompare])
    (filesHaveIdenticalContent md5 E vaultFile driveFile tok).
Proof.
  intros w. unfold satAt, filesHaveIdenticalContent, vaultRead.
  run_simpl. repeat case_env; emits_case.
Qed.

Lemma handleConflict_emits vaultFile driveFile tok :
  sat (emits vaultLoopKinds) (handleConflict E vaultFile driveFile tok).
Proof.
  unfold handleConflict.
  s_bind; [eapply emits_weaken; [|apply freshAccessToken_emits]; incl_tac|].
  s_bind; [s_get|]. destruct (conflictResolution _).
  - s_bind; [eapply emits_weaken; [|apply ensureFolderPathExists_emits];
             incl_tac|].
    eapply emits_weaken; [|apply uploadFileToFolder_emits]. incl_tac.
  - s_ret.
  - eapply emits_weaken; [|apply downloadFile_emits]. incl_tac.
  - intros w. unfold satAt, log; simpl. emits_case.
Qed.

Lemma vaultLoopBody_emits md5 toDrive lastSync driveFileMap tok file n :
  sat (emits vaultLoopKinds)
    (vaultLoopBody md5 E toDrive lastSync driveFileMap tok file n).
Proof.
  assert (forall localPath fileId,
    sat (emits vaultLoopKinds)
      (let* parentId := ensureFolderPathExists E localPath tok in
       let* _ := uploadFileToFolder E file tok parentId fileId in
       ret (incUploaded n))) as Hupload.
  { intros. s_bind; [eapply emits_weaken;
                     [|apply ensureFolderPathExists_emits]; incl_tac|].
    s_bind; [eapply emits_weaken; [|apply uploadFileToFolder_emits];
             incl_tac|s_ret]. }
  unfold vaultLoopBody. destruct toDrive; [|s_ret].
  destruct (_ !! _) as [driveFile|]; [|by apply Hupload].
  destruct (_ && _).
  - s_bind; [eapply emits_weaken;
             [|apply filesHaveIdenticalContent_emits]; incl_tac|].
    destruct a; [s_ret|]. s_bind; [apply handleConflict_emits|s_ret].
  - destruct (_ >? _); [by apply Hupload|s_ret].
Qed.

Lemma driveLoopBody_emits toDrive fromDrive lastSync vaultFileMap tok
    driveFile n :
  sat (emits driveLoopKinds)
    (driveLoopBody E toDrive fromDrive lastSync vaultFileMap tok driveFile n).
Proof.
  assert (sat (emits driveLoopKinds)
            (let* _ := downloadFile E driveFile tok in
             ret (incDownloaded n))) as Hdownload.
  { s_bind; [eapply emits_weaken; [|apply downloadFile_emits]; incl_tac
            |s_ret]. }
  unfold driveLoopBody. destruct (_ !! _) as [vaultFile|].
  - destruct (_ && _); [s_ret|]. destruct (_ >? _); [done|s_ret].
  - destruct (_ >? _).
    + destruct fromDrive; [done|s_ret].
    + destruct toDrive; [|s_ret]. destruct (truthy tok); [|s_ret].
      intros w. unfold satAt. run_simpl. repeat case_env; emits_case.
Qed.
End Footprints.

(* --------------------------------------------------------------------- *)
(** *** The phases of a run *)
(* --------------------------------------------------------------------- *)

Ltac traces :=
  repeat match goal with
         | H : trace _ = _ |- _ => rewrite H; clear H
         end;
  simpl; rewrite ?app_nil_r, <- ?app_assoc; reflexivity.

Section Phases.
Variable md5 : string -> string.
Variable E : Env.

(** [performSync], exit by exit. *)
Lemma performSync_inv toDrive fromDrive w :
  let run := performSync md5 E toDrive fromDrive w in
  let e1 := EvGetAccessToken (getAccessToken E (trace w)) in
  let e2 := EvValidateFolder (folderId (settings w))
              (fetch_metadata E (trace w ++ [e1]) (folderId (settings w))) in
  (configured (settings w) = false /\ run = (Ok NotConfigured, w)) \/
  (configured (settings w) = true /\
   ((exists msg, run = (Ok (SyncFailed msg), extend w [e1])) \/
    (exists msg, run = (Ok (ValidationFailed msg), extend w [e1; e2])) \/
    (exists tok,
       truthy tok = true /\
       match transferPhase md5 E toDrive fromDrive tok (extend w [e1; e2])
       with
       | (Throw msg, w3) => run = (Ok (SyncFailed msg), w3)
       | (Ok n, w3) =>
           let s' := set_lastSyncTime (date_now E (trace w3)) (settings w3) in
           let ok := saveData E (trace w3) s' in
           run = (Ok (if ok then Synced n
                      else SyncFailed
                             (rejection E
                                (trace w3 ++ [EvSaveData s' false]))),
                  {| settings := s'; stored := if ok then s' else stored w3;
                     folderIdCache := folderIdCache w3;
                     trace := trace w3 ++ [EvSaveData s' ok] |})
       end))).
Proof.
  intros run e1 e2. subst run. unfold performSync. run_simpl.
  unfold configured.
  destruct (truthy (refreshToken (settings w))); simpl; [|by left].
  destruct (truthy (folderId (settings w))); simpl; [|by left].
  right. split; [done|].
  pose proof (freshAccessToken_world E "No access token available" w) as Hw1.
  fold e1 in Hw1.
  destruct (freshAccessToken E _ w) as [[tok|msg] w1] eqn:Htok; simpl in *;
    subst w1; [|left; by exists msg].
  right.
  pose proof (validate_world E tok (extend w [e1])) as Hw2. simpl in Hw2.
  fold e2 in Hw2.
  destruct (validateDriveFolder E tok _) as [[[]|msg] w2]; simpl in *;
    subst w2; rewrite extend_extend; simpl; [|left; by exists msg].
  right. exists tok. split; [by eapply freshAccessToken_truthy|].
  unfold syncBody, bind.
  destruct (transferPhase md5 E toDrive fromDrive tok _) as [[n|msg] w3];
    [|done].
  rewrite commitPhase_run. simpl. by destruct (saveData _ _ _).
Qed.

(** The calls of the transfer phase: the listings, then the calls of the
    loop over the vault files, then those of the loop over the Drive
    files.  When a listing fails there is nothing after the listings. *)
Lemma transferPhase_shape toDrive fromDrive tok w :
  let run := transferPhase md5 E toDrive fromDrive tok w in
  exists evsL evsV evsD,
    trace (snd run) = (trace w ++ evsL ++ evsV ++ evsD)%list /\
    settings (snd run) = settings w /\ stored (snd run) = stored w /\
    Forall (fun e => kindOf e = KList) evsL /\
    Forall (fun e => In (kindOf e) vaultLoopKinds) evsV /\
    Forall (fun e => In (kindOf e) driveLoopKinds) evsD /\
    (Forall (fun e => okListing e = true) evsL \/
     evsV = [] /\ evsD = [] /\ is_ok (fst run) = false).
Proof.
  intros run. subst run. unfold transferPhase. run_simpl.
  set (w0 := {| settings := settings w; stored := stored w;
                folderIdCache := ∅; trace := trace w |}).
  destruct (getDriveFilesRecursive_run E tok w0)
    as (evsL & HwL & HL).
  assert (Forall (fun e => kindOf e = KList) evsL) as HkL.
  { pose proof (proj1 walker_events (remote_listing E (trace w))
                  (folderId (settings w)) "" []) as Hev.
    revert HwL. unfold getDriveFilesRecursive. run_simpl.
    destruct (getDriveItemsRecursive _ _ _ _) as [evs r]. simpl in *.
    intros Heq. assert (evs = evsL) as <-.
    { destruct r; simpl in Heq; injection Heq as Heq;
        by apply app_inv_head in Heq. }
    eapply Forall_impl; [exact Hev|]. by intros []. }
  destruct (getDriveFilesRecursive E tok w0) as [[driveFiles|msg] w1];
    simpl in *; subst w1.
  2:{ exists evsL, [], []. rewrite !app_nil_r.
      destruct HL as (pre & failed & -> & Hpre).
      split_and!; [done|done|done|done|constructor|constructor|by right]. }
  destruct HL as [_ HokL].
  set (w1 := extend w0 evsL).
  assert (settings w1 = settings w) as Hs1 by done.
  assert (stored w1 = stored w) as Hst1 by done.
  assert (forall ev2 ev3 ev4 : list Event,
    Forall (fun e => In (kindOf e) [KToken]) ev2 ->
    Forall (fun e => In (kindOf e) vaultLoopKinds) ev3 ->
    Forall (fun e => In (kindOf e) [KToken]) ev4 ->
    Forall (fun e => In (kindOf e) vaultLoopKinds) (ev2 ++ ev3 ++ ev4))
    as Hjoin.
  { intros ev2 ev3 ev4 H2 H3 H4.
    apply Forall_app. split; [eapply Forall_impl; [exact H2|]; incl_tac|].
    apply Forall_app. split; [done|].
    eapply Forall_impl; [exact H4|]. incl_tac. }
  destruct (freshAccessToken_emits E
              "Failed to refresh access token for upload operations" w1)
    as (Hs2 & Hst2 & ev2 & Ht2 & Hk2).
  destruct (freshAccessToken E _ w1) as [[tokU|msg] w2]; cbn [fst snd] in *.
  2:{ exists evsL, (ev2 ++ [] ++ [])%list, [].
      split_and!; [traces|congruence|congruence|done
                  | |constructor|by left].
      apply Hjoin; by try constructor. }
  set (loop := forEach _ _ _).
  destruct (sat_forEach (emits vaultLoopKinds)
              (vaultLoopBody md5 E toDrive (lastSyncTime (settings w1))
                 (driveFileMapOf driveFiles) tokU)
              (fun x s => vaultLoopBody_emits E md5 toDrive _ _ tokU x s)
              (vault_getFiles E (trace w)) zeroCounters w2)
    as (Hs3 & Hst3 & ev3 & Ht3 & Hk3).
  fold loop in Hs3, Hst3, Ht3.
  destruct (loop w2) as [[n|msg] w3]; cbn [fst snd] in *.
  2:{ exists evsL, (ev2 ++ ev3 ++ [])%list, [].
      split_and!; [traces
                  |congruence|congruence|done| |constructor|by left].
      apply Hjoin; by try constructor. }
  destruct (freshAccessToken_emits E
              "Failed to refresh access token for download operations" w3)
    as (Hs4 & Hst4 & ev4 & Ht4 & Hk4).
  destruct (freshAccessToken E _ w3) as [[tokD|msg] w4]; cbn [fst snd] in *.
  2:{ exists evsL, (ev2 ++ ev3 ++ ev4)%list, [].
      split_and!; [traces
                  |congruence|congruence|done| |constructor|by left].
      by apply Hjoin. }
  destruct fromDrive.
  - set (loopD := forEach _ _ _).
    destruct (sat_forEach (emits driveLoopKinds)
                (driveLoopBody E toDrive true (lastSyncTime (settings w1))
                   (vaultFileMapOf (vault_getFiles E (trace w))) tokD)
                (fun x s => driveLoopBody_emits E toDrive true _ _ tokD x s)
                driveFiles n w4)
      as (Hs5 & Hst5 & ev5 & Ht5 & Hk5).
    fold loopD in Hs5, Hst5, Ht5.
    exists evsL, (ev2 ++ ev3 ++ ev4)%list, ev5.
    split_and!; [traces
                |congruence|congruence|done| |done|by left].
    by apply Hjoin.
  - exists evsL, (ev2 ++ ev3 ++ ev4)%list, []. unfold ret. cbn [fst snd].
    split_and!; [traces
                |congruence|congruence|done| |constructor|by left].
    by apply Hjoin.
Qed.
End Phases.

(* --------------------------------------------------------------------- *)
(** *** The order of a run and its early ends *)
(* --------------------------------------------------------------------- *)

Section RunOrder.
Variable md5 : string -> string.
Variable E : Env.

(** X10.  The order of a run, whatever its direction flags and however
    it ends: its calls split into a first part without any delete request
    and a second part made only of downloads (fetch, mkdir, write), delete
    requests and the final [saveData].  So no upload, no folder call and
    no conflict handling ever follows a delete request. *)
Theorem deletes_follow_uploads (toDrive fromDrive : bool) (w : World) :
  exists pre post,
    trace (snd (performSync md5 E toDrive fromDrive w)) =
      (trace w ++ pre ++ post)%list /\
    Forall (fun e => kindOf e <> KDelete) pre /\
    Forall (fun e => In (kindOf e)
                       [KDownload; KMkdir; KWrite; KDelete; KSave]) post.
Proof.
  destruct (performSync_inv md5 E toDrive fromDrive w)
    as [[_ ->]|[_ [[msg ->]|[[msg ->]|(tok & _ & Hrun)]]]].
  1-3: eexists _, []; rewrite app_nil_r; simpl;
    (split; [trace_eq|split; [|constructor]]); by repeat constructor.
  set (w2 := extend w _) in Hrun.
  destruct (transferPhase_shape md5 E toDrive fromDrive tok w2)
    as (evsL & evsV & evsD & Ht & _ & _ & HL & HV & HD & _).
  assert (Forall (fun e => kindOf e <> KDelete)
            ([EvGetAccessToken (getAccessToken E (trace w));
              EvValidateFolder (folderId (settings w))
                (fetch_metadata E
                   (trace w ++ [EvGetAccessToken (getAccessToken E (trace w))])
                   (folderId (settings w)))] ++ evsL ++ evsV)) as Hpre.
  { repeat constructor; try done. apply Forall_app. split.
    - eapply Forall_impl; [exact HL|]. intros e He. by rewrite He.
    - eapply Forall_impl; [exact HV|]. intros e He Hd. simpl in He.
      rewrite Hd in He. intuition discriminate. }
  destruct (transferPhase _ _ _ _ _ _) as [[n|msg] w3]; rewrite Hrun;
    simpl in *.
  - eexists _, (evsD ++ [_])%list. split_and!; [|exact Hpre|].
    + rewrite Ht. rewrite <- !app_assoc. simpl. by rewrite <- !app_assoc.
    + apply Forall_app. split.
      * eapply Forall_impl; [exact HD|]. incl_tac.
      * kinds_tac.
  - eexists _, evsD. split_and!; [|exact Hpre|].
    + rewrite Ht. rewrite <- !app_assoc. simpl. by rewrite <- !app_assoc.
    + eapply Forall_impl; [exact HD|]. incl_tac.
Qed.

(** X11.  A run in which the listing of some remote folder fails
    transfers nothing: it ends in the [catch] block, all it did was to
    request a token, validate the sync folder and list folders, and
    neither the settings nor the stored settings change.  A partial
    listing is therefore never taken for the remote snapshot. *)
Theorem failed_listing_ends_run (toDrive fromDrive : bool) (w : World) :
  exists evs,
    trace (snd (performSync md5 E toDrive fromDrive w)) =
      (trace w ++ evs)%list /\
    forall folder, In (EvListFolder folder false) evs ->
      (exists msg,
         fst (performSync md5 E toDrive fromDrive w) = Ok (SyncFailed msg)) /\
      Forall (fun e => In (kindOf e) [KToken; KValidate; KList]) evs /\
      settings (snd (performSync md5 E toDrive fromDrive w)) = settings w /\
      stored (snd (performSync md5 E toDrive fromDrive w)) = stored w.
Proof.
  destruct (performSync_inv md5 E toDrive fromDrive w)
    as [[_ ->]|[_ [[msg ->]|[[msg ->]|(tok & _ & Hrun)]]]].
  1-3: eexists; (split; [simpl; trace_eq|]); intros folder Hin; simpl in Hin;
    intuition discriminate.
  set (w2 := extend w _) in Hrun.
  destruct (transferPhase_shape md5 E toDrive fromDrive tok w2)
    as (evsL & evsV & evsD & Ht & Hs & Hst & HL & HV & HD & Hcase).
  assert (forall folder (evs : list Event),
            Forall (fun e => okListing e = true) evsL ->
            In (EvListFolder folder false) (evsL ++ evsV ++ evsD ++ evs) ->
            In (EvListFolder folder false) evs) as Hnone.
  { intros folder evs HokL Hin.
    apply in_app_or in Hin as [Hin|Hin];
      [|apply in_app_or in Hin as [Hin|Hin];
        [|apply in_app_or in Hin as [Hin|Hin]; [|done]]].
    - rewrite List.Forall_forall in HokL. by apply HokL in Hin.
    - rewrite List.Forall_forall in HV. apply HV in Hin. simpl in Hin.
      intuition discriminate.
    - rewrite List.Forall_forall in HD. apply HD in Hin. simpl in Hin.
      intuition discriminate. }
  destruct (transferPhase _ _ _ _ _ _) as [[n|msg] w3]; rewrite Hrun;
    simpl in *.
  - destruct Hcase as [HokL|(_ & _ & ?)]; [|done].
    eexists (_ :: _ :: evsL ++ evsV ++ evsD ++ [_])%list.
    split; [rewrite Ht; simpl; by rewrite <- ?app_assoc|].
    intros folder [?|[?|Hin]]; [done|done|].
    apply Hnone in Hin; [|done]. by destruct Hin as [?|[]].
  - destruct Hcase as [HokL|(-> & -> & _)].
    + eexists (_ :: _ :: evsL ++ evsV ++ evsD ++ [])%list.
      split; [rewrite Ht; simpl; by rewrite ?app_nil_r, <- ?app_assoc|].
      intros folder [?|[?|Hin]]; [done|done|].
      apply Hnone in Hin; [|done]. by destruct Hin.
    + eexists (_ :: _ :: evsL)%list.
      split; [rewrite Ht; simpl; by rewrite ?app_nil_r, <- ?app_assoc|].
      intros folder _. split_and!; [by eexists| |done|done].
      repeat (apply List.Forall_cons; [simpl; tauto|]).
      eapply Forall_impl; [exact HL|]. intros e ->. simpl. tauto.
Qed.

(** X12.  When the sync folder does not validate (a status that is not
    OK, a rejected request, or an id that is not a folder), a configured
    run makes exactly two calls, the token request and the metadata
    request, and returns with the message of [validateDriveFolder]:
    not found for 404, access denied for 403, the status and its text
    for another status, the error of the request when it is rejected, not
    a folder for a file id. *)
Theorem invalid_folder_stops_run (toDrive fromDrive : bool) (w : World)
    (tok : string) :
  let e1 := EvGetAccessToken (Some tok) in
  let response :=
    fetch_metadata E (trace w ++ [e1]) (folderId (settings w)) in
  configured (settings w) = true ->
  getAccessToken E (trace w) = Some tok -> truthy tok = true ->
  (forall name, response <> RespOk (name, FOLDER_MIME)) ->
  exists msg,
    performSync md5 E toDrive fromDrive w =
      (Ok (ValidationFailed msg),
       extend w [e1; EvValidateFolder (folderId (settings w)) response]) /\
    (forall statusText, response = RespStatus 404 statusText ->
     msg = "Google Drive folder not found. Please check your Folder ID in settings.") /\
    (forall statusText, response = RespStatus 403 statusText ->
     msg = "Access denied to Google Drive folder. Please check permissions.") /\
    (forall status statusText, response = RespStatus status statusText ->
     status <> 404 -> status <> 403 ->
     msg = notOk "Failed to access Google Drive folder" status statusText) /\
    (forall message, response = NetError message -> msg = message) /\
    (forall name mimeType, response = RespOk (name, mimeType) ->
     msg = "The specified ID is not a Google Drive folder.").
Proof.
  intros e1 response Hconf Htok Htruthy Hbad. subst e1 response.
  unfold configured in Hconf. apply andb_prop in Hconf as [Hr Hf].
  unfold performSync. run_simpl.
  rewrite Hr, Hf. simpl. unfold freshAccessToken. run_simpl.
  rewrite Htok. simpl. rewrite Htruthy. simpl.
  unfold validateDriveFolder. run_simpl.
  destruct (fetch_metadata E _ _) as [[name mimeType]|status txt|message]
    eqn:Hresp; simpl; rewrite ?extend_extend; simpl.
  - destruct (String.eqb mimeType FOLDER_MIME) eqn:Hm.
    { apply String.eqb_eq in Hm. subst. by destruct (Hbad name). }
    simpl. rewrite ?extend_extend.
    eexists. split; [reflexivity|]. by split_and!.
  - destruct (status =? 404)%Z eqn:H404; simpl; rewrite ?extend_extend.
    { apply Z.eqb_eq in H404. subst. eexists. split; [reflexivity|].
      split_and!; try done; try (by intros ? ? [= <- _]). }
    destruct (status =? 403)%Z eqn:H403; simpl; rewrite ?extend_extend.
    { apply Z.eqb_eq in H403. subst. eexists. split; [reflexivity|].
      split_and!; try done; try (by intros ? ? [= <- _]). }
    apply Z.eqb_neq in H404, H403.
    eexists. split; [reflexivity|].
    split_and!; try done; try congruence;
      try (by intros ? ? [= <- <-]).
  - eexists. split; [reflexivity|].
    split_and!; try done; try (by intros ? [= <-]).
Qed.
End RunOrder.

(* --------------------------------------------------------------------- *)
(** *** The counters of a run *)
(* --------------------------------------------------------------------- *)

Lemma countIf_app p e1 e2 :
  countIf p (e1 ++ e2) = (countIf p e1 + countIf p e2)%nat.
Proof. unfold countIf. by rewrite List.filter_app, length_app. Qed.

Lemma countIf_cons p e evs :
  countIf p (e :: evs) = ((if p e then 1 else 0) + countIf p evs)%nat.
Proof. unfold countIf. simpl. by destruct (p e). Qed.

Lemma countIf_none p evs :
  Forall (fun e => p e = false) evs -> countIf p evs = O.
Proof.
  unfold countIf. induction 1 as [|e evs He _ IH]; [done|]. simpl.
  by rewrite He.
Qed.

Lemma adds_refl w : adds 0 0 0 0 w w.
Proof. split; [done|]. exists []. by rewrite app_nil_r. Qed.

Lemma adds_trans u1 d1 x1 t1 u2 d2 x2 t2 w w1 w2 :
  adds u1 d1 x1 t1 w w1 -> adds u2 d2 x2 t2 w1 w2 ->
  adds (u1 + u2) (d1 + d2) (x1 + x2) (t1 + t2) w w2.
Proof.
  intros (Hs1 & e1 & Ht1 & <- & <- & <- & <-)
         (Hs2 & e2 & Ht2 & <- & <- & <- & <-).
  split; [congruence|]. exists (e1 ++ e2)%list.
  rewrite !countIf_app, Ht2, Ht1, app_assoc. done.
Qed.

Lemma adds_of_emits kinds w b w' :
  emits kinds w b w' ->
  ~ In KUpload kinds -> ~ In KDownload kinds -> ~ In KDelete kinds ->
  ~ In KToken kinds -> adds 0 0 0 0 w w'.
Proof.
  intros (Hs & _ & evs & Ht & Hall) Hu Hd Hx Htok. split; [done|].
  exists evs. split; [done|].
  split_and!; apply countIf_none; (eapply Forall_impl; [exact Hall|]);
    intros [] Hin; try done; simpl in Hin; tauto.
Qed.

Lemma forEach_ok_inv {A S} (I : S -> World -> Prop) (body : A -> S -> M S) :
  (forall x s w s' w', I s w -> body x s w = (Ok s', w') -> I s' w') ->
  forall l s w s' w',
    I s w -> forEach l body s w = (Ok s', w') -> I s' w'.
Proof.
  intros Hbody l. induction l as [|x l IH]; intros s w s' w' HI; simpl.
  - by intros [= <- <-].
  - unfold bind. destruct (body x s w) as [[s1|msg] w1] eqn:Hb; [|done].
    apply IH. by eapply Hbody.
Qed.

Section Accounting.
Variable md5 : string -> string.
Variable E : Env.

Lemma freshAccessToken_adds msg w tok w' :
  freshAccessToken E msg w = (Ok tok, w') -> adds 0 0 0 1 w w'.
Proof.
  unfold freshAccessToken. run_simpl.
  repeat case_env; intros [= <- <-]; (split; [done|]); by eexists [_].
Qed.

Lemma uploadFileToFolder_adds file tok parent fileId w w' :
  uploadFileToFolder E file tok parent fileId w = (Ok tt, w') ->
  adds 1 0 0 0 w w'.
Proof.
  unfold uploadFileToFolder, vaultRead. run_simpl.
  repeat case_env; try done; intros [= <-]; (split; [done|]);
    (eexists; split; [trace_eq|done]).
Qed.

Lemma downloadFile_adds driveFile tok w w' :
  downloadFile E driveFile tok w = (Ok tt, w') -> adds 0 1 0 0 w w'.
Proof.
  intros Hrun. pose proof (downloadFile_run E driveFile tok w) as Hshape.
  cbv zeta in Hshape. rewrite Hrun in Hshape.
  destruct (fetch_media E (trace w) driveFile) as [content|st txt|msg];
    [|done..].
  destruct Hshape as (mkdirs & [= _ ->] & Hmk & _).
  split; [done|]. eexists. split; [reflexivity|].
  set (written := EvVaultWrite _ _ _).
  change (EvDownload driveFile (RespOk content) :: mkdirs ++ [written])
    with ([EvDownload driveFile (RespOk content)] ++ mkdirs ++
          [written])%list.
  rewrite !countIf_app.
  rewrite !(countIf_none _ mkdirs);
    try (eapply Forall_impl; [exact Hmk|]; by intros []).
  done.
Qed.

Lemma quiet_adds {A} kinds (m : M A) w :
  sat (emits kinds) m ->
  ~ In KUpload kinds -> ~ In KDownload kinds -> ~ In KDelete kinds ->
  ~ In KToken kinds -> adds 0 0 0 0 w (snd (m w)).
Proof.
  intros Hm ? ? ? ?.
  apply (adds_of_emits kinds w (is_ok (fst (m w)))); [apply Hm|done..].
Qed.

Ltac quiet := simpl; intuition discriminate.

Lemma bind_ret_inv {A B} (m : M A) (k : A -> M unit) (x : B) w r w' :
  (let* a := m in let* _ := k a in ret x) w = (Ok r, w') ->
  r = x /\ (let* a := m in k a) w = (Ok tt, w').
Proof.
  unfold bind, ret. destruct (m w) as [[a|msg] w1]; [|done].
  destruct (k a w1) as [[[]|msg] w2]; [|done]. by intros [= <- <-].
Qed.

Lemma upload_step_adds localPath file tok fileId w w' :
  (let* parentId := ensureFolderPathExists E localPath tok in
   uploadFileToFolder E file tok parentId fileId) w = (Ok tt, w') ->
  adds 1 0 0 0 w w'.
Proof.
  unfold bind.
  pose proof (quiet_adds _ (ensureFolderPathExists E localPath tok) w
                (ensureFolderPathExists_emits E localPath tok)) as H1.
  destruct (ensureFolderPathExists E localPath tok w) as [[parentId|msg] w1];
    [|done].
  intros H2. apply uploadFileToFolder_adds in H2.
  apply (adds_trans 0 0 0 0 1 0 0 0 w w1 w'); [|done]. apply H1; quiet.
Qed.

Lemma handleConflict_adds vaultFile driveFile tok w w' :
  handleConflict E vaultFile driveFile tok w = (Ok tt, w') ->
  adds (if conflictResolution (settings w) is overwrite then 1 else 0)
       (if conflictResolution (settings w) is keep_remote then 1 else 0)
       0 1 w w'.
Proof.
  unfold handleConflict. unfold bind at 1.
  destruct (freshAccessToken E _ w) as [[fresh|msg] w1] eqn:H1; [|done].
  apply freshAccessToken_adds in H1. destruct (H1) as [Hs1 _].
  run_simpl. rewrite Hs1.
  destruct (conflictResolution (settings w)).
  - intros Hrun. apply upload_step_adds in Hrun.
    apply (adds_trans 0 0 0 1 1 0 0 0 w w1 w'); done.
  - intros [= <-]. done.
  - intros H2. apply downloadFile_adds in H2.
    apply (adds_trans 0 0 0 1 0 1 0 0 w w1 w'); done.
  - intros [= <-]. apply (adds_trans 0 0 0 1 0 0 0 0 w w1 _); [done|].
    split; [done|]. by exists [EvConflictModal (TFile.path vaultFile) driveFile].
Qed.

Lemma accounted_step s h t0 n w u d x t t0' n' w' :
  accounted s h t0 n w -> adds u d x t w w' ->
  (uploaded n' + resolvedBy overwrite s n' =
   uploaded n + resolvedBy overwrite s n + u)%nat ->
  (downloaded n' + resolvedBy keep_remote s n' =
   downloaded n + resolvedBy keep_remote s n + d)%nat ->
  (deleted n' = deleted n + x)%nat ->
  (t0' + conflicts n' = t0 + conflicts n + t)%nat ->
  accounted s h t0' n' w'.
Proof.
  intros (Hs & evs & Ht & Hu & Hd & Hx & Htok)
         (Hs' & evs' & Ht' & <- & <- & <- & <-) Eu Ed Ex Et.
  split; [congruence|]. exists (evs ++ evs')%list.
  split; [by rewrite Ht', Ht, app_assoc|].
  unfold accountedBy. rewrite !countIf_app. lia.
Qed.

Lemma vaultLoopBody_accounted s h t0 toDrive lastSync driveFileMap tok
    file n w n' w' :
  accounted s h t0 n w ->
  vaultLoopBody md5 E toDrive lastSync driveFileMap tok file n w =
    (Ok n', w') ->
  accounted s h t0 n' w'.
Proof.
  intros Hacc. pose proof Hacc as [Hs _]. unfold vaultLoopBody.
  assert (forall localPath fileId,
    (let* parentId := ensureFolderPathExists E localPath tok in
     let* _ := uploadFileToFolder E file tok parentId fileId in
     ret (incUploaded n)) w = (Ok n', w') -> accounted s h t0 n' w')
    as Hupload.
  { intros localPath fileId Hrun.
    apply bind_ret_inv in Hrun as [-> Hrun].
    apply upload_step_adds in Hrun as Hadds.
    eapply accounted_step; [exact Hacc|exact Hadds|..];
      unfold resolvedBy; destruct (conflictResolution s); simpl; lia. }
  destruct toDrive; [|intros [= <- <-]; done].
  destruct (_ !! _) as [driveFile|]; [|by apply Hupload].
  destruct (_ && _).
  - unfold bind at 1.
    pose proof (quiet_adds _
      (filesHaveIdenticalContent md5 E file driveFile tok) w
      (filesHaveIdenticalContent_emits E md5 file driveFile tok)) as H1.
    destruct (filesHaveIdenticalContent md5 E file driveFile tok w)
      as [[identical|msg] w1]; [|done].
    simpl in H1. assert (adds 0 0 0 0 w w1) as Hq by (apply H1; quiet).
    assert (accounted s h t0 n w1) as Hacc1.
    { eapply accounted_step; [exact Hacc|exact Hq|..]; lia. }
    destruct identical; [by intros [= <- <-]|].
    unfold bind.
    destruct (handleConflict E file driveFile tok w1) as [[[]|msg] w2] eqn:H2;
      [|done].
    intros [= <- <-]. apply handleConflict_adds in H2.
    destruct Hacc1 as [Hs1 ?]. rewrite Hs1 in H2.
    eapply accounted_step; [by split|exact H2|..];
      unfold resolvedBy; destruct (conflictResolution s); simpl; lia.
  - destruct (_ >? _); [by apply Hupload|]. by intros [= <- <-].
Qed.

Lemma driveLoopBody_accounted s h t0 toDrive fromDrive lastSync vaultFileMap
    tok driveFile n w n' w' :
  accounted s h t0 n w ->
  driveLoopBody E toDrive fromDrive lastSync vaultFileMap tok driveFile n w =
    (Ok n', w') ->
  accounted s h t0 n' w'.
Proof.
  intros Hacc. unfold driveLoopBody.
  assert ((let* _ := downloadFile E driveFile tok in
           ret (incDownloaded n)) w = (Ok n', w') ->
          accounted s h t0 n' w') as Hdownload.
  { unfold bind.
    destruct (downloadFile E driveFile tok w) as [[[]|msg] w1] eqn:H1;
      [|done].
    intros [= <- <-]. apply downloadFile_adds in H1.
    eapply accounted_step; [exact Hacc|exact H1|..];
      unfold resolvedBy; destruct (conflictResolution s); simpl; lia. }
  destruct (_ !! _) as [vaultFile|].
  - destruct (_ && _); [by intros [= <- <-]|].
    destruct (_ >? _); [done|by intros [= <- <-]].
  - destruct (_ >? _).
    + destruct fromDrive; [done|by intros [= <- <-]].
    + destruct toDrive; [|by intros [= <- <-]].
      destruct (truthy tok); [|by intros [= <- <-]].
      run_simpl. destruct (fetch_delete E (trace w) driveFile) eqn:Hr;
        simpl; [| |done]; intros [= <- <-].
      * eapply (accounted_step _ _ _ _ _ 0 0 1 0); [exact Hacc| |..];
          [split; [done|]; by eexists [_]|..];
          unfold resolvedBy; destruct (conflictResolution s); simpl; lia.
      * eapply (accounted_step _ _ _ _ _ 0 0 0 0); [exact Hacc| |..];
          [split; [done|]; by eexists [_]|..]; lia.
Qed.

Lemma transferPhase_accounted toDrive fromDrive tok w n w' :
  transferPhase md5 E toDrive fromDrive tok w = (Ok n, w') ->
  accounted (settings w) (trace w) 2 n w'.
Proof.
  unfold transferPhase. run_simpl.
  set (w0 := {| settings := settings w; stored := stored w;
                folderIdCache := ∅; trace := trace w |}).
  assert (accounted (settings w) (trace w) 0 zeroCounters w0) as Hacc0.
  { split; [done|]. exists []. split; [by rewrite app_nil_r|].
    unfold accountedBy, resolvedBy. simpl.
    by destruct (conflictResolution _). }
  pose proof (quiet_adds _ (getDriveFilesRecursive E tok) w0
                (getDriveFilesRecursive_emits E tok)) as H1.
  destruct (getDriveFilesRecursive E tok w0) as [[driveFiles|msg] w1];
    [|done].
  simpl in H1.
  assert (accounted (settings w) (trace w) 0 zeroCounters w1) as Hacc1.
  { eapply accounted_step; [exact Hacc0|apply H1; quiet|..]; lia. }
  pose proof Hacc1 as [Hs1 _]. rewrite Hs1.
  destruct (freshAccessToken E _ w1) as [[tokU|msg] w2] eqn:H2; [|done].
  apply freshAccessToken_adds in H2.
  assert (accounted (settings w) (trace w) 1 zeroCounters w2) as Hacc2.
  { eapply accounted_step; [exact Hacc1|exact H2|..]; simpl; lia. }
  destruct (forEach _ _ zeroCounters w2) as [[n3|msg] w3] eqn:H3; [|done].
  assert (accounted (settings w) (trace w) 1 n3 w3) as Hacc3.
  { eapply (forEach_ok_inv (accounted (settings w) (trace w) 1));
      [|exact Hacc2|exact H3].
    intros x s wa s' wb Hacc. by apply vaultLoopBody_accounted. }
  destruct (freshAccessToken E _ w3) as [[tokD|msg] w4] eqn:H4; [|done].
  apply freshAccessToken_adds in H4.
  assert (accounted (settings w) (trace w) 2 n3 w4) as Hacc4.
  { eapply accounted_step; [exact Hacc3|exact H4|..]; simpl; lia. }
  destruct fromDrive; [|by intros [= <- <-]].
  intros H5.
  eapply (forEach_ok_inv (accounted (settings w) (trace w) 2));
    [|exact Hacc4|exact H5].
  intros x s wa s' wb Hacc. by apply driveLoopBody_accounted.
Qed.

(** X13.  The four counters of a run that completes account for its
    calls.  The upload requests are the files counted as uploaded plus,
    under the policy 'overwrite', the conflicts; the download requests are
    the files counted as downloaded plus, under 'keep-remote', the
    conflicts; the deletions counted are the delete requests Drive answered
    with an OK status; and the run asked for a token three times and once
    more per conflict. *)
Theorem counters_account_for_calls (toDrive fromDrive : bool) (w : World)
    (n : Counters) :
  fst (performSync md5 E toDrive fromDrive w) = Ok (Synced n) ->
  exists evs,
    trace (snd (performSync md5 E toDrive fromDrive w)) =
      (trace w ++ evs)%list /\
    countIf isUploadRequest evs =
      (uploaded n + resolvedBy overwrite (settings w) n)%nat /\
    countIf isDownloadFetch evs =
      (downloaded n + resolvedBy keep_remote (settings w) n)%nat /\
    countIf isOkDelete evs = deleted n /\
    countIf isTokenRequest evs = (3 + conflicts n)%nat.
Proof.
  destruct (performSync_inv md5 E toDrive fromDrive w)
    as [[_ ->]|[_ [[msg ->]|[[msg ->]|(tok & _ & Hrun)]]]]; [done..|].
  set (w2 := extend w _) in Hrun.
  destruct (transferPhase md5 E toDrive fromDrive tok w2) as [[n3|msg] w3]
    eqn:Hphase; rewrite Hrun; simpl; [|done].
  destruct (saveData _ _ _); [|done]. intros [= <-].
  apply transferPhase_accounted in Hphase
    as (Hs & evs & Ht & Hu & Hd & Hx & Htok).
  eexists. split; [rewrite Ht; subst w2; simpl; rewrite <- !app_assoc;
                   reflexivity|].
  cbn [app]. rewrite !countIf_cons, !countIf_app, !countIf_cons.
  change (settings w2) with (settings w) in Hu, Hd.
  rewrite Hu, Hd, Hx, Htok. unfold countIf, resolvedBy. simpl.
  destruct (conflictResolution (settings w)); lia.
Qed.
End Accounting.

(* --------------------------------------------------------------------- *)
(** *** Where new files go *)
(* --------------------------------------------------------------------- *)

Lemma givenIds_app e1 e2 :
  givenIds (e1 ++ e2) = (givenIds e1 ++ givenIds e2)%list.
Proof.
  induction e1 as [|e e1 IH]; [done|].
  destruct e as [| | |? ? [[|? ?]| |]|? ? ? [?| |]| | | | | | | | | |];
    simpl; by rewrite ?IH.
Qed.

Lemma createParents_app e1 e2 :
  createParents (e1 ++ e2) = (createParents e1 ++ createParents e2)%list.
Proof.
  induction e1 as [|e e1 IH]; [done|]. destruct e; simpl; by rewrite ?IH.
Qed.

Global Instance provenance_compositional s0 h0 :
  Compositional (provenance s0 h0).
Proof. split; unfold provenance; auto. Qed.

(** A step that adds the calls [evs'], none of which creates a file, and
    leaves the cache as it is or adds to it an id given by one of these
    calls. *)
Lemma provenance_intro s0 h0 w b w' evs' :
  settings w' = settings w ->
  trace w' = (trace w ++ evs')%list ->
  (forall k v, folderIdCache w' !! k = Some v ->
     folderIdCache w !! k = Some v \/ In v (givenIds evs')) ->
  (settings w = s0 ->
   forall parent, In parent (createParents evs') ->
     parent = folderId s0 \/
     exists k, folderIdCache w !! k = Some parent) ->
  provenance s0 h0 w b w'.
Proof.
  intros Hs Ht Hc Hp (Hs0 & evs & Ht0 & Hcache & Hparents).
  split; [congruence|]. exists (evs ++ evs')%list.
  split; [by rewrite Ht, Ht0, app_assoc|]. rewrite givenIds_app. split.
  - intros k v Hl. apply in_or_app.
    destruct (Hc k v Hl) as [Hold|Hnew]; [left; by eapply Hcache|by right].
  - intros parent. rewrite createParents_app. intros Hin. 
    apply in_app_or in Hin as [Hin|Hin].
    + destruct (Hparents parent Hin) as [?|?]; [by left|right].
      apply in_or_app. by left.
    + destruct (Hp Hs0 parent Hin) as [?|[k Hk]]; [by left|right].
      apply in_or_app. left. by eapply Hcache.
Qed.

Ltac prov_case :=
  eapply provenance_intro;
  [reflexivity|trace_eq|simpl; intros ? ? ?; by left|simpl; intros ? ? []].

Section Provenance.
Variable md5 : string -> string.
Variable E : Env.
Variable s0 : GoogleDriveSyncSettings.
Variable h0 : list Event.

Local Abbreviation P := (provenance s0 h0).

Lemma freshAccessToken_prov msg : sat P (freshAccessToken E msg).
Proof.
  intros w. unfold satAt, freshAccessToken. run_simpl.
  repeat case_env; prov_case.
Qed.

Lemma getDriveFilesRecursive_prov tok : sat P (getDriveFilesRecursive E tok).
Proof.
  intros w. unfold satAt, getDriveFilesRecursive. run_simpl.
  pose proof (proj1 walker_events (remote_listing E (trace w))
                (folderId (settings w)) "" []) as Hev.
  assert (forall evs, Forall isListFolder evs ->
            givenIds evs = [] /\ createParents evs = []) as Hnone.
  { induction 1 as [|[] ? ? ? [? ?]]; simpl; done. }
  destruct (getDriveItemsRecursive _ _ _ _) as [evs [files|msg]];
    simpl in *.
  all: destruct (Hnone _ Hev) as [Hg Hc].
  all: eapply provenance_intro; [reflexivity|trace_eq| |]; simpl.
  all: try (intros ? ? ?; by left).
  all: rewrite Hc; by intros ? ? [].
Qed.

Lemma ensureLocalFolderExists_prov folderPath :
  sat P (ensureLocalFolderExists E folderPath).
Proof.
  unfold ensureLocalFolderExists. s_bind; [|s_ret]. s_forEach.
  intros w. unfold satAt, mkdirSegment. run_simpl. prov_case.
Qed.

Lemma downloadFile_prov driveFile tok : sat P (downloadFile E driveFile tok).
Proof.
  intros w. unfold downloadFile. s_read.
  destruct (fetch_media E (trace w) driveFile) as [content|st|] eqn:Hr.
  2,3: unfold satAt; run_simpl; prov_case.
  s_bind_at; [unfold satAt, log; simpl; prov_case|]. intros _ w1 _.
  s_bind_at.
  { destruct (includes _ _); [apply ensureLocalFolderExists_prov|by s_ret]. }
  intros _ w2 _. unfold satAt. run_simpl. repeat case_env; prov_case.
Qed.

Lemma filesHaveIdenticalContent_prov vaultFile driveFile tok :
  sat P (filesHaveIdenticalContent md5 E vaultFile driveFile tok).
Proof.
  intros w. unfold satAt, filesHaveIdenticalContent, vaultRead.
  run_simpl. repeat case_env; prov_case.
Qed.

Lemma ensureSegment_prov tok segment st :
  sat P (ensureSegment E tok segment st).
Proof.
  intros w. unfold satAt, ensureSegment, findDriveFolder, createDriveFolder,
    cacheSet. run_simpl.
  repeat case_env;
    (eapply provenance_intro;
     [reflexivity|trace_eq| |simpl; intros ? ? []]); simpl.
  all: try (intros ? ? ?; by left).
  all: intros k v Hl; apply lookup_insert_Some in Hl as [[_ <-]|[_ Hl]];
    [right|by left].
  all: try (by left).
  all: match goal with
       | |- context [match ?l with [] => _ | _ :: _ => _ end] =>
           destruct l; simpl in *; simplify_eq; auto
       end.
Qed.

Lemma ensureFolderPathExists_prov localPath tok :
  sat P (ensureFolderPathExists E localPath tok).
Proof.
  unfold ensureFolderPathExists. s_bind; [s_get|].
  destruct (_ !! _); [s_ret|]. s_bind; [s_get|].
  destruct (_ || _); [s_ret|]. s_bind; [|s_ret].
  s_forEach. apply ensureSegment_prov.
Qed.

(** An upload into a folder the materializer has just resolved. *)
Lemma upload_step_prov localPath file tok fileId :
  sat P (let* parentId := ensureFolderPathExists E localPath tok in
         uploadFileToFolder E file tok parentId fileId).
Proof.
  intros w. s_bind_at; [apply ensureFolderPathExists_prov|].
  intros parentId w1 Hrun.
  pose proof (ensureFolderPathExists_resolved E _ _ _ _ _ Hrun) as Hres.
  destruct (ensureFolderPathExists_emits E localPath tok w) as (Hs & _).
  rewrite Hrun in Hs. simpl in Hs.
  unfold satAt, uploadFileToFolder, vaultRead. run_simpl.
  repeat case_env;
    (eapply provenance_intro;
     [reflexivity|trace_eq|simpl; intros ? ? ?; by left|]); simpl.
  all: try by intros ? ? [].
  all: intros Hs1 parent [<-|[]]; destruct Hres as [->|Hk];
    [left; by rewrite <- Hs1, Hs|by right].
Qed.

Lemma handleConflict_prov vaultFile driveFile tok :
  sat P (handleConflict E vaultFile driveFile tok).
Proof.
  unfold handleConflict. s_bind; [apply freshAccessToken_prov|].
  s_bind; [s_get|]. destruct (conflictResolution _).
  - apply upload_step_prov.
  - s_ret.
  - apply downloadFile_prov.
  - intros w. unfold satAt, log; simpl. prov_case.
Qed.

Lemma bind_ret_prov {A B} (m : M A) (k : A -> M unit) (x : B) :
  sat P (let* a := m in k a) ->
  sat P (let* a := m in let* _ := k a in ret x).
Proof.
  intros H w. specialize (H w). unfold satAt, bind, ret in *.
  destruct (m w) as [[a|msg] w1]; [|done].
  by destruct (k a w1) as [[[]|msg] w2].
Qed.

Lemma vaultLoopBody_prov toDrive lastSync driveFileMap tok file n :
  sat P (vaultLoopBody md5 E toDrive lastSync driveFileMap tok file n).
Proof.
  unfold vaultLoopBody. destruct toDrive; [|s_ret].
  destruct (_ !! _) as [driveFile|].
  - destruct (_ && _).
    + s_bind; [apply filesHaveIdenticalContent_prov|].
      destruct a; [s_ret|]. s_bind; [apply handleConflict_prov|s_ret].
    + destruct (_ >? _); [|s_ret]. apply bind_ret_prov, upload_step_prov.
  - apply bind_ret_prov, upload_step_prov.
Qed.

Lemma driveLoopBody_prov toDrive fromDrive lastSync vaultFileMap tok
    driveFile n :
  sat P (driveLoopBody E toDrive fromDrive lastSync vaultFileMap tok
           driveFile n).
Proof.
  unfold driveLoopBody. destruct (_ !! _) as [vaultFile|].
  - destruct (_ && _); [s_ret|]. destruct (_ >? _); [|s_ret].
    s_bind; [apply downloadFile_prov|s_ret].
  - destruct (_ >? _).
    + destruct fromDrive; [|s_ret]. s_bind; [apply downloadFile_prov|s_ret].
    + destruct toDrive; [|s_ret]. destruct (truthy tok); [|s_ret].
      intros w. unfold satAt. run_simpl. repeat case_env; prov_case.
Qed.

Lemma transferPhase_prov toDrive fromDrive tok w :
  settings w = s0 -> h0 = trace w ->
  provenanceInv s0 h0 (snd (transferPhase md5 E toDrive fromDrive tok w)).
Proof.
  intros Hs Hh. unfold transferPhase.
  set (w0 := {| settings := settings w; stored := stored w;
                folderIdCache := ∅; trace := trace w |}).
  assert (provenanceInv s0 h0 w0) as Hinv0.
  { split; [done|]. exists []. rewrite app_nil_r. split_and!; [done| |].
    - intros k v. simpl. by rewrite lookup_empty.
    - by intros parent []. }
  match goal with
  | |- context [bind (setCache ∅) ?k] =>
      change (bind (setCache ∅) k w) with (k tt w0);
      enough (satAt P (k tt) w0) as Hrest by (by apply Hrest)
  end.
  cbv beta. s_read.
  s_bind_at; [apply getDriveFilesRecursive_prov|]. intros driveFiles w1 _.
  s_read.
  s_bind_at; [apply freshAccessToken_prov|]. intros tokU w2 _.
  s_bind_at; [apply sat_forEach; [apply _|]; intros ? ?;
              apply vaultLoopBody_prov|].
  intros n w3 _.
  s_bind_at; [apply freshAccessToken_prov|]. intros tokD w4 _.
  destruct fromDrive; [|by s_ret].
  apply sat_forEach; [apply _|]. intros ? ?. apply driveLoopBody_prov.
Qed.
End Provenance.

Lemma In_createParents file parent r evs :
  In (EvUploadCreate file parent r) evs -> In parent (createParents evs).
Proof.
  induction evs as [|e evs IH]; [done|]. intros [->|Hin]; [by left|].
  destruct e; simpl; auto.
Qed.

Section NewFiles.
Variable md5 : string -> string.
Variable E : Env.

(** X14.  Every request of a run that creates a remote file names as
    parent the configured sync folder or a folder id that Drive itself gave
    during this run, as the first match of a folder search or as the id of
    a folder it created.  No id cached by an earlier run is used. *)
Theorem new_files_go_under_known_folders (toDrive fromDrive : bool)
    (w : World) :
  exists evs,
    trace (snd (performSync md5 E toDrive fromDrive w)) =
      (trace w ++ evs)%list /\
    forall file parentFolderId response,
      In (EvUploadCreate file parentFolderId response) evs ->
      parentFolderId = folderId (settings w) \/
      In parentFolderId (givenIds evs).
Proof.
  destruct (performSync_inv md5 E toDrive fromDrive w)
    as [[_ ->]|[_ [[msg ->]|[[msg ->]|(tok & _ & Hrun)]]]].
  1-3: eexists; (split; [simpl; trace_eq|]); intros file parent r Hin;
    simpl in Hin; intuition discriminate.
  set (w2 := extend w _) in Hrun.
  destruct (transferPhase_prov md5 E (settings w) (trace w2) toDrive
              fromDrive tok w2 eq_refl eq_refl)
    as (_ & evsT & Ht & _ & Hparents).
  assert (forall rest file parent r,
            (forall f p r', ~ In (EvUploadCreate f p r') rest) ->
            In (EvUploadCreate file parent r)
              (EvGetAccessToken (getAccessToken E (trace w)) ::
               EvValidateFolder (folderId (settings w))
                 (fetch_metadata E
                    (trace w ++
                     [EvGetAccessToken (getAccessToken E (trace w))])
                    (folderId (settings w))) :: evsT ++ rest) ->
            parent = folderId (settings w) \/
            In parent
              (givenIds
                 (EvGetAccessToken (getAccessToken E (trace w)) ::
                  EvValidateFolder (folderId (settings w))
                    (fetch_metadata E
                       (trace w ++
                        [EvGetAccessToken (getAccessToken E (trace w))])
                       (folderId (settings w))) :: evsT ++ rest)))
    as Hall.
  { intros rest file parent r Hrest [?|[?|Hin]]; [done|done|].
    apply in_app_or in Hin as [Hin|Hin]; [|by destruct (Hrest _ _ _ Hin)].
    apply In_createParents, Hparents in Hin as [?|Hin]; [by left|right].
    simpl. rewrite givenIds_app. apply in_or_app. by left. }
  destruct (transferPhase md5 E toDrive fromDrive tok w2) as [[n|msg] w3];
    rewrite Hrun; simpl in *.
  - eexists (_ :: _ :: evsT ++ [_])%list.
    split; [rewrite Ht; simpl; by rewrite <- ?app_assoc|].
    intros file parent r. apply Hall. intros f p r' [?|[]]. done.
  - eexists (_ :: _ :: evsT ++ [])%list.
    split; [rewrite Ht; simpl; by rewrite ?app_nil_r, <- ?app_assoc|].
    intros file parent r. apply Hall. by intros f p r' [].
Qed.
End NewFiles.

(* --------------------------------------------------------------------- *)
(** *** The conflict prompt and the legacy upload *)
(* --------------------------------------------------------------------- *)

Section CallbackFacts.
Variable E : Env.

(** X15.  The legacy [uploadFile] does what [uploadFileToFolder] does
    with the sync root as parent folder: the same calls, the same
    result. *)
Theorem uploadFile_uploads_to_root (file : TFile.t) (accessToken : string)
    (fileId : option string) (w : World) :
  uploadFile E file accessToken fileId w =
  uploadFileToFolder E file accessToken (folderId (settings w)) fileId w.
Proof.
  unfold uploadFile, uploadFileToFolder, vaultRead. run_simpl.
  by repeat case_env.
Qed.

(** X16.  The buttons of the conflict prompt do what the automatic
    policies do.  Once [handleConflict] has its fresh token, the policy
    'overwrite' is the callback of "Keep Local Version", 'keep-remote' is
    the callback of "Use Remote Version", 'keep-local' is closing the
    prompt; and the policy 'ask' itself only opens the prompt. *)
Theorem prompt_choice_matches_policy (vaultFile : TFile.t)
    (driveFile : DriveFile.t) (accessToken fresh : string) (w w1 : World) :
  freshAccessToken E
    "Failed to refresh access token for conflict resolution" w =
    (Ok fresh, w1) ->
  handleConflict E vaultFile driveFile accessToken w =
  match conflictResolution (settings w) with
  | overwrite => promptChoice E KeepLocalVersion vaultFile driveFile fresh w1
  | keep_local => promptChoice E ClosePrompt vaultFile driveFile fresh w1
  | keep_remote => promptChoice E UseRemoteVersion vaultFile driveFile fresh w1
  | ask =>
      (Ok tt, extend w1 [EvConflictModal (TFile.path vaultFile) driveFile])
  end.
Proof.
  intros Htok. unfold handleConflict. unfold bind at 1. rewrite Htok.
  assert (settings w1 = settings w) as Hs.
  { pose proof (freshAccessToken_world E
      "Failed to refresh access token for conflict resolution" w) as Hw.
    rewrite Htok in Hw. simpl in Hw. by subst w1. }
  unfold bind at 1, getSettings. rewrite Hs.
  by destruct (conflictResolution (settings w)).
Qed.
End CallbackFacts.

(* ===================================================================== *)
(** ** Properties of the plugin around the engine *)
(* ===================================================================== *)

(* --------------------------------------------------------------------- *)
(** *** Timers of the plugin *)
(* --------------------------------------------------------------------- *)

Lemma tidy_newPlugin nextId : tidy (newPlugin nextId).
Proof.
  split.
  - intros id timer. simpl. by rewrite lookup_empty.
  - by intros [] id.
Qed.

(** Steps that touch neither the timers nor the identifiers. *)
Lemma tidy_frame p p' :
  Plugin.timers p' = Plugin.timers p ->
  Plugin.nextTimerId p' = Plugin.nextTimerId p ->
  (forall role, idOf role p' = idOf role p) ->
  tidy p -> tidy p'.
Proof.
  intros Ht Hn Hid [H1 H2]. split.
  - intros id timer. rewrite Ht, Hn. intros Hl.
    destruct (H1 id timer Hl) as (Hlt & role & Hr & Hi & Hk).
    split; [done|]. exists role. by rewrite Hid.
  - intros role id. rewrite Hid, Hn. apply H2.
Qed.

(** Clearing the timer a role keeps the identifier of, whether or not the
    identifier is then forgotten. *)
Lemma tidy_clear role p :
  tidy p -> tidy (clearIfSet (idOf role p) p).
Proof.
  intros [H1 H2]. destruct (idOf role p) as [id0|] eqn:Hid0; [|done].
  split.
  - intros id timer. simpl. intros Hl.
    apply lookup_delete_Some in Hl as [Hne Hl].
    destruct (H1 id timer Hl) as (Hlt & r & Hr & Hi & Hk).
    split; [done|]. exists r. split_and!; [done| |done]. by destruct r.
  - intros r id. intros Hi. apply (H2 r). by destruct r.
Qed.

Lemma lookup_cleared role p id timer :
  tidy p ->
  Plugin.timers (clearIfSet (idOf role p) p) !! id = Some timer ->
  Plugin.timers p !! id = Some timer /\ timerRole timer <> Some role.
Proof.
  intros [H1 H2]. destruct (idOf role p) as [id0|] eqn:Hid0; simpl.
  - intros Hl. apply lookup_delete_Some in Hl as [Hne Hl]. split; [done|].
    destruct (H1 id timer Hl) as (_ & r & Hr & Hi & _).
    intros Heq. rewrite Hr in Heq. injection Heq as ->. congruence.
  - intros Hl. split; [done|].
    destruct (H1 id timer Hl) as (_ & r & Hr & Hi & _).
    intros Heq. rewrite Hr in Heq. injection Heq as ->. congruence.
Qed.

(** A new timer for a role whose old timer is gone. *)
Lemma tidy_set role timer p :
  tidy p -> timerRole timer = Some role ->
  (forall k, callback timer = ShowFrame k -> (k < length frames)%nat) ->
  (forall id t, Plugin.timers p !! id = Some t ->
                timerRole t <> Some role) ->
  forall p',
    Plugin.timers p' = <[Plugin.nextTimerId p := timer]> (Plugin.timers p) ->
    Plugin.nextTimerId p' = Pos.succ (Plugin.nextTimerId p) ->
    idOf role p' = Some (Plugin.nextTimerId p) ->
    (forall r, r <> role -> idOf r p' = idOf r p) ->
    tidy p'.
Proof.
  intros [H1 H2] Hrole Hframe Hfree p' Ht Hn Hid Hother. split.
  - intros id t. rewrite Ht, Hn. intros Hl.
    apply lookup_insert_Some in Hl as [[<- <-]|[Hne Hl]].
    + split; [lia|]. by exists role.
    + destruct (H1 id t Hl) as (Hlt & r & Hr & Hi & Hk).
      split; [lia|]. exists r. split_and!; [done| |done].
      rewrite Hother; [done|]. intros ->. by apply (Hfree id t).
  - intros r id. rewrite Hn. destruct (decide (r = role)) as [->|Hne].
    + rewrite Hid. intros [= <-]. lia.
    + rewrite (Hother r Hne). intros Hi. specialize (H2 r id Hi). lia.
Qed.

Lemma tidy_startSyncAnimation p : tidy p -> tidy (startSyncAnimation p).
Proof.
  intros Hp. unfold startSyncAnimation, setInterval, setTimer.
  pose proof (tidy_clear AnimationInterval p Hp) as H1.
  pose proof (lookup_cleared AnimationInterval p) as Hfree.
  simpl in H1, Hfree.
  set (p1 := clearIfSet (Plugin.syncAnimationId p) p) in *.
  apply (tidy_set AnimationInterval
           {| repeats := true; delay := 100; callback := ShowFrame 0 |}
           p1 H1); simpl; try done.
  - intros k [= <-]. simpl. lia.
  - intros id t Hl. by destruct (Hfree id t Hp Hl).
  - by intros [].
Qed.

Lemma tidy_forget role p p' :
  tidy p ->
  Plugin.timers p' = Plugin.timers (clearIfSet (idOf role p) p) ->
  Plugin.nextTimerId p' = Plugin.nextTimerId p ->
  idOf role p' = None ->
  (forall r, r <> role -> idOf r p' = idOf r p) ->
  tidy p'.
Proof.
  intros Hp Ht Hn Hid Hother.
  pose proof (lookup_cleared role p) as Hfree.
  destruct (tidy_clear role p Hp) as [H1 H2].
  assert (Plugin.nextTimerId (clearIfSet (idOf role p) p) =
          Plugin.nextTimerId p) as Hn1 by (by destruct (idOf role p)).
  assert (forall r, idOf r (clearIfSet (idOf role p) p) = idOf r p) as Hi1.
  { intros r. destruct (idOf role p); [|done]. by destruct r. }
  split.
  - intros id t. rewrite Ht, Hn. intros Hl.
    destruct (H1 id t Hl) as (Hlt & r & Hr & Hi & Hk).
    destruct (Hfree id t Hp Hl) as [_ Hne].
    split; [by rewrite <- Hn1|]. exists r. split_and!; [done| |done].
    rewrite Hother; [by rewrite <- Hi1|]. intros ->. done.
  - intros r id. rewrite Hn. destruct (decide (r = role)) as [->|Hne].
    + by rewrite Hid.
    + rewrite (Hother r Hne). destruct Hp as [_ H]. apply H.
Qed.

Lemma tidy_stopSyncAnimation p : tidy p -> tidy (stopSyncAnimation p).
Proof.
  intros Hp. unfold stopSyncAnimation.
  destruct (Plugin.syncAnimationId p) as [id|] eqn:Hid; [|done].
  apply (tidy_forget AnimationInterval p); simpl; try done.
  - by rewrite Hid.
  - by intros [].
Qed.

Lemma tidy_setupAutoSync p : tidy p -> tidy (setupAutoSync p).
Proof.
  intros Hp. unfold setupAutoSync.
  pose proof (tidy_clear SyncInterval p Hp) as H1.
  pose proof (lookup_cleared SyncInterval p) as Hfree1.
  simpl in H1, Hfree1.
  set (p1 := clearIfSet (Plugin.syncIntervalId p) p) in *.
  set (p2 := match Plugin.syncTimeoutId p1 with
             | Some id => setSyncTimeoutId None (clearTimer id p1)
             | None => p1
             end).
  assert (tidy p2) as H2.
  { subst p2. destruct (Plugin.syncTimeoutId p1) as [id|] eqn:Hid; [|done].
    apply (tidy_forget SyncTimeout p1); simpl; try done.
    - by rewrite Hid.
    - by intros []. }
  assert (forall id t, Plugin.timers p2 !! id = Some t ->
                       timerRole t <> Some SyncInterval) as Hfree2.
  { intros id t Hl. apply (Hfree1 id t Hp). subst p2.
    destruct (Plugin.syncTimeoutId p1); [|done]. simpl in Hl.
    by apply lookup_delete_Some in Hl as [_ ?]. }
  destruct (autoSyncEnabled (Plugin.settings p2)); [|done].
  unfold setInterval, setTimer.
  apply (tidy_set SyncInterval
           {| repeats := true;
              delay := syncInterval (Plugin.settings p2) * 60 * 1000;
              callback := RunSync |} p2 H2); simpl; try done.
  by intros [].
Qed.

Lemma tidy_onVaultEvent p : tidy p -> tidy (onVaultEvent p).
Proof.
  intros Hp. unfold onVaultEvent.
  destruct (autoSync (Plugin.settings p)); [|done].
  pose proof (tidy_clear SyncTimeout p Hp) as H1.
  pose proof (lookup_cleared SyncTimeout p) as Hfree.
  simpl in H1, Hfree.
  set (p1 := clearIfSet (Plugin.syncTimeoutId p) p) in *.
  unfold setTimeout, setTimer.
  apply (tidy_set SyncTimeout
           {| repeats := false; delay := 5000; callback := RunSync |}
           p1 H1); simpl; try done.
  - intros id t Hl. by destruct (Hfree id t Hp Hl).
  - by intros [].
Qed.

Lemma tidy_trigger name p : tidy p -> tidy (trigger name p).
Proof.
  unfold trigger. generalize (Plugin.vaultHandlers p) as handlers.
  intros handlers. revert p.
  induction handlers as [|h handlers IH]; intros p Hp; [done|]. simpl.
  apply IH. destruct (VaultEventName_eqb h name); [|done].
  by apply tidy_onVaultEvent.
Qed.

Lemma tidy_fire id p : tidy p -> tidy (fire id p).
Proof.
  intros Hp. unfold fire.
  destruct (Plugin.timers p !! id) as [timer|] eqn:Hl; [|done].
  destruct Hp as [H1 H2].
  destruct (H1 id timer Hl) as (Hlt & role & Hr & Hi & Hk).
  assert (tidy (if repeats timer then p else clearTimer id p)) as Hp1.
  { destruct (repeats timer); [by split|].
    change (clearTimer id p) with (clearIfSet (Some id) p).
    rewrite <- Hi. by apply tidy_clear. }
  destruct (callback timer) as [|k] eqn:Hcb.
  - eapply tidy_frame; [..|exact Hp1]; first [done|by intros []].
  - assert (((k + 1) mod length frames < length frames)%nat) as Hmod
      by (by apply Nat.mod_upper_bound).
    destruct (repeats timer) eqn:Hrep.
    + split.
      * intros id' t. simpl. intros Hl'.
        apply lookup_insert_Some in Hl' as [[<- <-]|[Hne Hl']].
        -- split; [done|]. exists role. split_and!; [|done|].
           ++ unfold timerRole in *. simpl. by rewrite Hcb, Hrep in Hr.
           ++ simpl. intros k' [= <-]. exact Hmod.
        -- destruct (H1 id' t Hl') as (? & r & ? & ? & ?).
           split; [done|]. by exists r.
      * intros r id'. apply H2.
    + eapply tidy_frame; [..|exact Hp1]; first [done|by intros []].
Qed.

Lemma tidy_onunload p : tidy p -> tidy (onunload p).
Proof.
  intros Hp. unfold onunload.
  pose proof (tidy_clear SyncInterval p Hp) as H1. simpl in H1.
  set (p1 := clearIfSet (Plugin.syncIntervalId p) p) in *.
  pose proof (tidy_clear SyncTimeout p1 H1) as H2. simpl in H2.
  set (p2 := clearIfSet (Plugin.syncTimeoutId p1) p1) in *.
  apply (tidy_clear AnimationInterval p2 H2).
Qed.

Lemma tidy_onChange change saved p : tidy p -> tidy (onChange change saved p).
Proof.
  intros Hp. unfold onChange, thenSaved.
  destruct change, saved; simpl;
    try apply tidy_setupAutoSync;
    (eapply tidy_frame; [..|exact Hp]; first [done|by intros []]).
Qed.

Lemma tidy_authenticate reply saved p :
  tidy p -> tidy (authenticate reply saved p).
Proof.
  intros Hp. unfold authenticate, onTokenReply.
  repeat case_match; try done;
    (eapply tidy_frame; [..|exact Hp]; first [done|by intros []]).
Qed.

Lemma tidy_act a p : tidy p -> tidy (act a p).
Proof.
  intros Hp. destruct a; simpl.
  - by apply tidy_setupAutoSync.
  - by apply tidy_trigger.
  - by apply tidy_fire.
  - by apply tidy_startSyncAnimation.
  - by apply tidy_stopSyncAnimation.
  - eapply tidy_frame; [..|exact Hp]; first [done|by intros []].
  - by apply tidy_onChange.
  - by apply tidy_authenticate.
  - by apply tidy_onunload.
Qed.

Lemma tidy_actAll actions : forall p, tidy p -> tidy (actAll actions p).
Proof.
  induction actions as [|a actions IH]; intros p Hp; [done|].
  simpl. apply IH. by apply tidy_act.
Qed.

Lemma tidy_onload data nextId : tidy (onload data nextId).
Proof.
  unfold onload, loadSettings. apply tidy_setupAutoSync.
  eapply tidy_frame; [..|apply tidy_setupAutoSync];
    [done|done|by intros []|].
  eapply tidy_frame; [..|apply (tidy_newPlugin nextId)];
    first [done|by intros []].
Qed.

(** X17.  No timer leaks.  In every state the plugin can reach from
    [onload] by calls of [setupAutoSync], vault events, timers firing,
    starts and stops of the animation, status updates, changes in the
    settings tab, authentications and [onunload], two live timers never
    have the same role: there is at most one auto-sync interval, one
    pending debounce timeout and one animation interval. *)
Theorem one_timer_per_role (data : option SettingsData) (nextId : positive)
    (actions : list Action) :
  let p := actAll actions (onload data nextId) in
  forall id1 id2 timer1 timer2,
    Plugin.timers p !! id1 = Some timer1 ->
    Plugin.timers p !! id2 = Some timer2 ->
    timerRole timer1 = timerRole timer2 ->
    id1 = id2.
Proof.
  intros p id1 id2 timer1 timer2 Hl1 Hl2 Hrole.
  destruct (tidy_actAll actions _ (tidy_onload data nextId)) as [H1 _].
  fold p in H1.
  destruct (H1 id1 timer1 Hl1) as (_ & r1 & Hr1 & Hi1 & _).
  destruct (H1 id2 timer2 Hl2) as (_ & r2 & Hr2 & Hi2 & _).
  congruence.
Qed.

Lemma setupAutoSync_run (p : Plugin.t) :
  tidy p ->
  let p' := setupAutoSync p in
  let s := Plugin.settings p in
  Plugin.syncTimeoutId p' = None /\
  (forall id timer,
     Plugin.timers p' !! id = Some timer -> callback timer = RunSync ->
     autoSyncEnabled s = true /\ Plugin.syncIntervalId p' = Some id /\
     timer = autoSyncTimer s) /\
  (if autoSyncEnabled s then
     Plugin.syncIntervalId p' = Some (Plugin.nextTimerId p) /\
     Plugin.timers p' !! Plugin.nextTimerId p = Some (autoSyncTimer s) /\
     Plugin.vaultHandlers p' =
       (Plugin.vaultHandlers p ++ [modify; delete; create])%list
   else Plugin.vaultHandlers p' = Plugin.vaultHandlers p).
Proof.
  intros Hp p' s. subst p'. unfold setupAutoSync.
  pose proof (tidy_clear SyncInterval p Hp) as H1.
  pose proof (lookup_cleared SyncInterval p) as Hfree1.
  simpl in H1, Hfree1.
  set (p1 := clearIfSet (Plugin.syncIntervalId p) p) in *.
  pose proof (lookup_cleared SyncTimeout p1) as Hfree2. simpl in Hfree2.
  set (p2 := match Plugin.syncTimeoutId p1 with
             | Some id => setSyncTimeoutId None (clearTimer id p1)
             | None => p1
             end).
  assert (Plugin.syncTimeoutId p2 = None /\
          Plugin.settings p2 = s /\
          Plugin.nextTimerId p2 = Plugin.nextTimerId p /\
          Plugin.vaultHandlers p2 = Plugin.vaultHandlers p /\
          Plugin.timers p2 =
            Plugin.timers (clearIfSet (Plugin.syncTimeoutId p1) p1))
    as (Hto & Hs & Hn & Hh & Ht).
  { subst p2 p1 s. destruct (Plugin.syncIntervalId p);
      destruct (Plugin.syncTimeoutId _) eqn:Hid; simpl in *;
      rewrite ?Hid; done. }
  assert (forall id timer, Plugin.timers p2 !! id = Some timer ->
                           callback timer <> RunSync) as Hnone.
  { intros id timer Hl Hcb. rewrite Ht in Hl.
    destruct (Hfree2 id timer H1 Hl) as [Hl1 Hne2].
    destruct (Hfree1 id timer Hp Hl1) as [_ Hne1].
    unfold timerRole in *. rewrite Hcb in *. by destruct (repeats timer). }
  rewrite Hs. destruct (autoSyncEnabled s) eqn:Hen.
  - unfold setInterval, setTimer. simpl. rewrite ?Hto, ?Hn, ?Hs, ?Hh.
    split_and!; [done| |done|by rewrite lookup_insert_eq|done].
    intros id timer Hl Hcb.
    apply lookup_insert_Some in Hl as [[<- <-]|[_ Hl]]; [done|].
    by destruct (Hnone id timer Hl).
  - split_and!; [done| |done].
    intros id timer Hl Hcb. by destruct (Hnone id timer Hl).
Qed.

(** X18.  What [setupAutoSync] leaves.  No debounce timeout is pending
    and none is remembered.  Every live timer that calls [performSync()]
    is the interval just created, which exists only when auto-sync is
    enabled, a refresh token and a folder id are set, and whose period is
    the configured number of minutes.  Each such call registers three more
    vault handlers, one per event, and no call removes any. *)
Theorem setupAutoSync_timers (p : Plugin.t) :
  tidy p ->
  let p' := setupAutoSync p in
  let s := Plugin.settings p in
  Plugin.syncTimeoutId p' = None /\
  (forall id timer,
     Plugin.timers p' !! id = Some timer -> callback timer = RunSync ->
     autoSyncEnabled s = true /\ Plugin.syncIntervalId p' = Some id /\
     timer = autoSyncTimer s) /\
  (if autoSyncEnabled s then
     Plugin.syncIntervalId p' = Some (Plugin.nextTimerId p) /\
     Plugin.timers p' !! Plugin.nextTimerId p = Some (autoSyncTimer s) /\
     Plugin.vaultHandlers p' =
       (Plugin.vaultHandlers p ++ [modify; delete; create])%list
   else Plugin.vaultHandlers p' = Plugin.vaultHandlers p).
Proof. apply setupAutoSync_run. Qed.

Lemma onVaultEvent_sets p :
  autoSync (Plugin.settings p) = true ->
  let p' := onVaultEvent p in
  Plugin.settings p' = Plugin.settings p /\
  Plugin.syncTimeoutId p' = Some (Plugin.nextTimerId p) /\
  Plugin.timers p' !! Plugin.nextTimerId p = Some debounceTimer /\
  Plugin.nextTimerId p' = Pos.succ (Plugin.nextTimerId p).
Proof.
  intros Hauto. unfold onVaultEvent. rewrite Hauto.
  unfold setTimeout, setTimer.
  destruct (Plugin.syncTimeoutId p); simpl; by rewrite lookup_insert_eq.
Qed.

Lemma trigger_sets name handlers : forall p,
  autoSync (Plugin.settings p) = true ->
  let count :=
    length (List.filter (fun h => VaultEventName_eqb h name) handlers) in
  let p' :=
    fold_left
      (fun p h => if VaultEventName_eqb h name then onVaultEvent p else p)
      handlers p in
  Plugin.settings p' = Plugin.settings p /\
  Plugin.nextTimerId p' = Nat.iter count Pos.succ (Plugin.nextTimerId p) /\
  ((0 < count)%nat ->
   exists id, Plugin.syncTimeoutId p' = Some id /\
              Plugin.timers p' !! id = Some debounceTimer /\
              Plugin.nextTimerId p' = Pos.succ id).
Proof.
  induction handlers as [|h handlers IH]; intros p Hauto; simpl.
  - split_and!; [done|done|lia].
  - destruct (VaultEventName_eqb h name) eqn:Hh; simpl; [|by apply IH].
    destruct (onVaultEvent_sets p Hauto) as (Hs & Hid & Hl & Hn).
    simpl in *.
    destruct (IH (onVaultEvent p)) as (Hs' & Hn' & Hlast);
      [by rewrite Hs|].
    split_and!; [congruence| |].
    + rewrite Hn', Hn. symmetry. exact (Nat.iter_succ_r _ Pos.succ _).
    + intros _. simpl in Hlast.
      destruct (List.filter _ handlers) as [|h' rest] eqn:Hrest.
      * clear Hlast. simpl in Hn'.
        assert (fold_left
                  (fun p h => if VaultEventName_eqb h name
                              then onVaultEvent p else p)
                  handlers (onVaultEvent p) = onVaultEvent p) as ->.
        { clear -Hrest. revert Hrest. generalize (onVaultEvent p).
          induction handlers as [|h0 handlers IH]; intros q; [done|].
          simpl. destruct (VaultEventName_eqb h0 name); [done|]. apply IH. }
        by exists (Plugin.nextTimerId p).
      * apply Hlast. simpl. lia.
Qed.

Lemma trigger_run (name : VaultEventName) (p : Plugin.t) :
  tidy p ->
  let p' := trigger name p in
  if autoSync (Plugin.settings p) then
    Plugin.nextTimerId p' =
      Nat.iter (handlersFor name p) Pos.succ (Plugin.nextTimerId p) /\
    ((0 < handlersFor name p)%nat ->
     exists id,
       Plugin.syncTimeoutId p' = Some id /\
       Plugin.timers p' !! id = Some debounceTimer /\
       Plugin.nextTimerId p' = Pos.succ id /\
       forall id' timer,
         Plugin.timers p' !! id' = Some timer ->
         timerRole timer = Some SyncTimeout ->
         id' = id /\ timer = debounceTimer)
  else p' = p.
Proof.
  intros Hp p'. subst p'.
  destruct (autoSync (Plugin.settings p)) eqn:Hauto.
  - destruct (trigger_sets name (Plugin.vaultHandlers p) p Hauto)
      as (_ & Hn & Hlast).
    split; [exact Hn|]. intros Hpos.
    destruct (Hlast Hpos) as (id & Hid & Hl & Hnext).
    exists id. split_and!; [done|done|done|].
    intros id' timer Hl' Hrole.
    destruct (tidy_trigger name p Hp) as [H1 _].
    destruct (H1 id' timer Hl') as (_ & r & Hr & Hi & _).
    rewrite Hrole in Hr. injection Hr as <-. simpl in Hi.
    unfold trigger in Hi, Hl'. rewrite Hid in Hi. injection Hi as <-.
    split; [done|]. congruence.
  - unfold trigger. generalize (Plugin.vaultHandlers p) as handlers.
    induction handlers as [|h handlers IH]; [done|]. simpl.
    unfold onVaultEvent at 2. rewrite Hauto.
    by destruct (VaultEventName_eqb h name).
Qed.

(** X19.  The vault handlers debounce.  With auto-sync on, a vault event
    makes each handler registered for it cancel the pending timeout and
    set a new one, so it uses up as many timer identifiers as there are
    handlers and, when there is a handler, leaves exactly one timeout
    pending: the timer the plugin keeps as [syncTimeoutId] is live, it is
    the last one set, with a delay of five seconds, and no other live
    timer is a debounce timeout.  With auto-sync off the event changes
    nothing. *)
Theorem trigger_debounces (name : VaultEventName) (p : Plugin.t) :
  tidy p ->
  let p' := trigger name p in
  if autoSync (Plugin.settings p) then
    Plugin.nextTimerId p' =
      Nat.iter (handlersFor name p) Pos.succ (Plugin.nextTimerId p) /\
    ((0 < handlersFor name p)%nat ->
     exists id,
       Plugin.syncTimeoutId p' = Some id /\
       Plugin.timers p' !! id = Some debounceTimer /\
       Plugin.nextTimerId p' = Pos.succ id /\
       forall id' timer,
         Plugin.timers p' !! id' = Some timer ->
         timerRole timer = Some SyncTimeout ->
         id' = id /\ timer = debounceTimer)
  else p' = p.
Proof. apply trigger_run. Qed.

Lemma trigger_keeps name handlers : forall p,
  let p' :=
    fold_left
      (fun p h => if VaultEventName_eqb h name then onVaultEvent p else p)
      handlers p in
  Plugin.syncRequests p' = Plugin.syncRequests p /\
  Plugin.settings p' = Plugin.settings p /\
  Plugin.vaultHandlers p' = Plugin.vaultHandlers p.
Proof.
  induction handlers as [|h handlers IH]; intros p; simpl; [done|].
  destruct (IH (if VaultEventName_eqb h name then onVaultEvent p else p))
    as (-> & -> & ->).
  destruct (VaultEventName_eqb h name); [|done].
  unfold onVaultEvent, setTimeout, setTimer.
  destruct (autoSync (Plugin.settings p)); [|done].
  by destruct (Plugin.syncTimeoutId p).
Qed.

(** X20.  A vault event of a plugin with auto-sync on, with any number
    of handlers registered for it (at least one), leads to exactly one
    call of [performSync()]: the event itself calls nothing, the timeout
    it leaves calls [performSync()] once when it fires, no debounce
    timeout is left after that, and firing the same identifier again does
    nothing. *)
Theorem debounced_event_syncs_once (name : VaultEventName) (p : Plugin.t) :
  tidy p -> autoSync (Plugin.settings p) = true ->
  (0 < handlersFor name p)%nat ->
  exists id,
    Plugin.syncTimeoutId (trigger name p) = Some id /\
    Plugin.syncRequests (trigger name p) = Plugin.syncRequests p /\
    let fired := fire id (trigger name p) in
    Plugin.syncRequests fired = S (Plugin.syncRequests p) /\
    (forall id' timer, Plugin.timers fired !! id' = Some timer ->
                       timerRole timer <> Some SyncTimeout) /\
    fire id fired = fired.
Proof.
  intros Hp Hauto Hpos.
  destruct (trigger_sets name (Plugin.vaultHandlers p) p Hauto)
    as (_ & _ & Hlast).
  destruct (Hlast Hpos) as (id & Hid & Hl & _).
  destruct (trigger_keeps name (Plugin.vaultHandlers p) p) as (Hreq & _ & _).
  fold (trigger name p) in Hid, Hl, Hreq.
  exists id. split_and!; [done|done|]. 
  assert (fire id (trigger name p) =
          requestSync (clearTimer id (trigger name p))) as Hfire.
  { unfold fire. by rewrite Hl. }
  cbv zeta. rewrite Hfire. split_and!.
  - simpl. by rewrite Hreq.
  - intros id' timer. simpl. intros Hl'.
    apply lookup_delete_Some in Hl' as [Hne Hl'].
    destruct (tidy_trigger name p Hp) as [H1 _].
    destruct (H1 id' timer Hl') as (_ & r & Hr & Hi & _).
    intros Hrole. rewrite Hrole in Hr. injection Hr as <-. simpl in Hi.
    congruence.
  - unfold fire at 1. simpl. by rewrite lookup_delete_eq.
Qed.

Lemma setupAutoSync_keeps p :
  Plugin.settings (setupAutoSync p) = Plugin.settings p /\
  Plugin.savedData (setupAutoSync p) = Plugin.savedData p /\
  Plugin.statusBarText (setupAutoSync p) = Plugin.statusBarText p /\
  Plugin.syncAnimationId (setupAutoSync p) = Plugin.syncAnimationId p /\
  Plugin.syncRequests (setupAutoSync p) = Plugin.syncRequests p.
Proof.
  unfold setupAutoSync, setInterval, setTimer.
  destruct (Plugin.syncIntervalId p); simpl;
    destruct (Plugin.syncTimeoutId p); simpl;
    by destruct (autoSyncEnabled (Plugin.settings p)).
Qed.

(** X21.  Switching auto-sync off in the settings tab, when the settings
    are saved, stops it: the new settings are stored, no timer that would
    call [performSync()] stays alive, and vault events no longer do
    anything (their handlers stay registered). *)
Theorem disabling_autosync_stops_sync (p : Plugin.t) :
  tidy p ->
  let p' := onChange (ChangeAutoSync false) true p in
  autoSync (Plugin.settings p') = false /\
  Plugin.savedData p' = Some (Plugin.settings p') /\
  (forall id timer, Plugin.timers p' !! id = Some timer ->
                    callback timer <> RunSync) /\
  (forall name, trigger name p' = p').
Proof.
  intros Hp p'.
  set (q := setSavedData
              (Some (withAutoSync false (Plugin.settings p)))
              (setSettingsOf (withAutoSync false (Plugin.settings p)) p)).
  assert (p' = setupAutoSync q) as Hp' by done.
  assert (tidy q) as Hq.
  { eapply tidy_frame; [..|exact Hp]; first [done|by intros []]. }
  destruct (setupAutoSync_run q Hq) as (_ & Hsync & Hrest).
  assert (autoSyncEnabled (Plugin.settings q) = false) as Hoff by done.
  rewrite Hoff in Hrest.
  assert (Plugin.settings p' = Plugin.settings q /\
          Plugin.savedData p' = Plugin.savedData q) as [Hs Hd].
  { rewrite Hp'. by destruct (setupAutoSync_keeps q) as (-> & -> & _). }
  split_and!.
  - by rewrite Hs.
  - by rewrite Hd, Hs.
  - intros id timer Hl Hcb. rewrite Hp' in Hl.
    destruct (Hsync id timer Hl Hcb) as [Hen _]. congruence.
  - intros name.
    pose proof (trigger_run name p') as Ht.
    rewrite Hs in Ht. simpl in Ht. apply Ht. rewrite Hp'.
    by apply tidy_setupAutoSync.
Qed.

(** X22.  [onunload] leaves no live timer behind. *)
Theorem onunload_clears_timers (p : Plugin.t) :
  tidy p -> Plugin.timers (onunload p) = ∅.
Proof.
  intros Hp. unfold onunload.
  pose proof (tidy_clear SyncInterval p Hp) as H1.
  pose proof (fun id timer => lookup_cleared SyncInterval p id timer Hp)
    as F1. simpl in H1, F1.
  set (p1 := clearIfSet (Plugin.syncIntervalId p) p) in *.
  pose proof (tidy_clear SyncTimeout p1 H1) as H2.
  pose proof (fun id timer => lookup_cleared SyncTimeout p1 id timer H1)
    as F2. simpl in H2, F2.
  set (p2 := clearIfSet (Plugin.syncTimeoutId p1) p1) in *.
  pose proof (fun id timer =>
                lookup_cleared AnimationInterval p2 id timer H2) as F3. simpl in F3.
  apply map_empty. intros id.
  destruct (Plugin.timers _ !! id) as [timer|] eqn:Hl; [|done].
  destruct (F3 id timer Hl) as [Hl2 N3].
  destruct (F2 id timer Hl2) as [Hl1 N2].
  destruct (F1 id timer Hl1) as [Hl0 N1].
  destruct Hp as [Hp _].
  destruct (Hp id timer Hl0) as (_ & [] & Hr & _); congruence.
Qed.

(* --------------------------------------------------------------------- *)
(** *** Loading and the first setup *)
(* --------------------------------------------------------------------- *)
(** X23.  What [onload] sets up.  The settings are the stored data over
    the defaults and the status bar shows the check mark and "Ready".
    When auto-sync is enabled there is one interval, with the configured
    period, and every vault event has two handlers, because
    [setupAutoSync] runs in [loadSettings] and again in [onload]; when it
    is not, there is no timer and no handler. *)
Theorem onload_sets_up (data : option SettingsData) (nextId : positive) :
  let s := assignSettings DEFAULT_SETTINGS data in
  let p := onload data nextId in
  Plugin.settings p = s /\
  Plugin.statusBarText p = CHECK_MARK ++ " Ready" /\
  if autoSyncEnabled s then
    Plugin.vaultHandlers p =
      [modify; delete; create; modify; delete; create] /\
    Plugin.syncIntervalId p = Some (Pos.succ nextId) /\
    Plugin.timers p = {[ Pos.succ nextId := autoSyncTimer s ]}
  else
    Plugin.vaultHandlers p = [] /\ Plugin.syncIntervalId p = None /\
    Plugin.timers p = ∅.
Proof.
  intros s p. subst p. unfold onload, loadSettings, setupAutoSync. simpl.
  fold s. destruct (autoSyncEnabled s) eqn:Hen; simpl; rewrite ?Hen; simpl.
  - split_and!; try done.
    by rewrite delete_insert_eq, delete_empty.
  - done.
Qed.

(** X24.  A first setup in the order client id, client secret, folder
    id, authentication leaves auto-sync off although everything it needs
    is then set and saved: [authenticate] does not call [setupAutoSync],
    so there is no timer and no vault handler, and vault events do nothing
    until [setupAutoSync] runs again (a later change of folder, interval or
    auto-sync in the settings tab, or a reload), which creates the
    interval. *)
Theorem first_setup_leaves_autosync_off (nextId : positive)
    (id secret folder token : string) :
  truthy id = true -> truthy secret = true -> truthy folder = true ->
  truthy token = true ->
  let p :=
    authenticate (Some (ReplyToken (Some token))) true
      (onChange (ChangeFolderId folder) true
         (onChange (ChangeClientSecret secret) true
            (onChange (ChangeClientId id) true (onload None nextId)))) in
  autoSyncEnabled (Plugin.settings p) = true /\
  Plugin.savedData p = Some (Plugin.settings p) /\
  Plugin.timers p = ∅ /\ Plugin.vaultHandlers p = [] /\
  (forall name, trigger name p = p) /\
  Plugin.timers (setupAutoSync p) =
    {[ nextId := autoSyncTimer (Plugin.settings p) ]}.
Proof.
  intros Hid Hsecret Hfolder Htoken p.
  pose (q := fun s =>
    {| Plugin.settings := s; Plugin.savedData := Some s;
       Plugin.statusBarText := statusLine "Ready";
       Plugin.syncIntervalId := None; Plugin.syncTimeoutId := None;
       Plugin.syncAnimationId := None; Plugin.timers := ∅;
       Plugin.nextTimerId := nextId; Plugin.vaultHandlers := [];
       Plugin.syncRequests := O |}).
  pose (s := withFolderId folder
               (withClientSecret secret
                  (withClientId id DEFAULT_SETTINGS))).
  assert (onChange (ChangeFolderId folder) true
            (onChange (ChangeClientSecret secret) true
               (onChange (ChangeClientId id) true (onload None nextId)))
          = q s) as Hq by reflexivity.
  assert (p = q (withRefreshToken token s)) as Hp.
  { subst p. rewrite Hq. unfold authenticate, onTokenReply.
    change (clientId (Plugin.settings (q s))) with id.
    change (clientSecret (Plugin.settings (q s))) with secret.
    rewrite Hid, Hsecret, Htoken. reflexivity. }
  clearbody p. subst p.
  assert (autoSyncEnabled (withRefreshToken token s) = true) as Hen.
  { unfold autoSyncEnabled.
    change (refreshToken (withRefreshToken token s)) with token.
    change (folderId (withRefreshToken token s)) with folder.
    rewrite Htoken, Hfolder. reflexivity. }
  split_and!; try reflexivity.
  - exact Hen.
  - unfold setupAutoSync.
    change (clearIfSet (Plugin.syncIntervalId (q (withRefreshToken token s)))
              (q (withRefreshToken token s)))
      with (q (withRefreshToken token s)).
    cbv zeta.
    change (Plugin.syncTimeoutId (q (withRefreshToken token s)))
      with (@None positive).
    cbv iota.
    change (Plugin.settings (q (withRefreshToken token s)))
      with (withRefreshToken token s).
    rewrite Hen. reflexivity.
Qed.

(* --------------------------------------------------------------------- *)
(** *** The animation and the status bar *)
(* --------------------------------------------------------------------- *)

(** The plugin once the animation has been started from [p] and [k] ticks
    have fired. *)
Lemma animation_after_ticks (p : Plugin.t) (k : nat) :
  let id := Plugin.nextTimerId p in
  let cleared := Plugin.timers (clearIfSet (Plugin.syncAnimationId p) p) in
  Nat.iter k animationTick (startSyncAnimation p) =
  {| Plugin.settings := Plugin.settings p;
     Plugin.savedData := Plugin.savedData p;
     Plugin.statusBarText :=
       match k with
       | O => Plugin.statusBarText p
       | S k' => animationLine (k' mod 10)
       end;
     Plugin.syncIntervalId := Plugin.syncIntervalId p;
     Plugin.syncTimeoutId := Plugin.syncTimeoutId p;
     Plugin.syncAnimationId := Some id;
     Plugin.timers := <[id := animationTimer (k mod 10)]> cleared;
     Plugin.nextTimerId := Pos.succ id;
     Plugin.vaultHandlers := Plugin.vaultHandlers p;
     Plugin.syncRequests := Plugin.syncRequests p |}.
Proof.
  intros id cleared. induction k as [|k IH].
  - unfold startSyncAnimation, setInterval, setTimer. simpl.
    subst id cleared. by destruct (Plugin.syncAnimationId p).
  - rewrite Nat.iter_succ, IH. unfold animationTick, fire.
    cbn -[Nat.modulo]. rewrite lookup_insert_eq. cbn -[Nat.modulo].
    unfold setTimers, setText. cbn -[Nat.modulo].
    rewrite insert_insert_eq. unfold animationTimer.
    rewrite Nat.Div0.add_mod_idemp_l.
    by replace (k + 1)%nat with (S k) by lia.
Qed.

(** X25.  The animation shows its frames in order and cycles: the tick
    number [k + 1] after [startSyncAnimation] sets the status bar to the
    frame of index [k] modulo the number of frames, which is within the
    frames, followed by " Syncing...". *)
Theorem animation_cycles_frames (p : Plugin.t) (k : nat) :
  Plugin.statusBarText
    (Nat.iter (S k) animationTick (startSyncAnimation p)) =
  animationLine (k mod length frames) /\
  (k mod length frames < length frames)%nat.
Proof.
  rewrite animation_after_ticks. split; [done|].
  by apply Nat.mod_upper_bound.
Qed.

Lemma statusMessage_prefix n : exists rest, statusMessage n = "Synced - " ++ rest.
Proof.
  unfold statusMessage. destruct (_ && _); [by eexists|].
  destruct (Nat.ltb 0 (deleted n)), (Nat.ltb 0 (conflicts n));
    eexists; reflexivity.
Qed.

Lemma statusIcon_statusMessage n : statusIcon (statusMessage n) = CHECK_MARK.
Proof. destruct (statusMessage_prefix n) as [rest ->]. reflexivity. Qed.

(** X26.  The status bar after a run.  A run of a plugin that is not
    configured leaves the plugin as it is.  Every other run ends with no
    animation identifier; a completed run shows the check mark before its
    status message, whatever the counters, and a failed run the ballot
    cross before "Sync failed".  A run that ends in the folder validation
    does not update the status bar: if the animation ticked, its last
    frame and "Syncing..." stay on display. *)
Theorem run_ends_with_icon (outcome : Outcome) (ticks : nat)
    (p : Plugin.t) :
  let p' := performSyncStatus outcome ticks p in
  match outcome with
  | NotConfigured => p' = p
  | ValidationFailed _ =>
      Plugin.syncAnimationId p' = None /\
      Plugin.statusBarText p' =
        match ticks with
        | O => Plugin.statusBarText p
        | S k => animationLine (k mod length frames)
        end
  | SyncFailed _ =>
      Plugin.syncAnimationId p' = None /\
      Plugin.statusBarText p' = BALLOT_X ++ " Sync failed"
  | Synced n =>
      Plugin.syncAnimationId p' = None /\
      Plugin.statusBarText p' = CHECK_MARK ++ " " ++ statusMessage n
  end.
Proof.
  intros p'. subst p'. unfold performSyncStatus.
  pose proof (animation_after_ticks p ticks) as Hticks.
  fold animationTick. destruct outcome as [|msg|msg|n]; [done|..];
    cbn zeta in *; rewrite Hticks; unfold stopSyncAnimation; simpl.
  - done.
  - done.
  - unfold statusLine. by rewrite statusIcon_statusMessage.
Qed.

(** X27.  A run stops its animation: after it the live timers are those
    the plugin had before, without the animation interval it may have had,
    and none of them is an animation interval. *)
Theorem run_leaves_no_animation (outcome : Outcome) (ticks : nat)
    (p : Plugin.t) :
  tidy p -> outcome <> NotConfigured ->
  let p' := performSyncStatus outcome ticks p in
  Plugin.timers p' =
    Plugin.timers (clearIfSet (Plugin.syncAnimationId p) p) /\
  forall id timer,
    Plugin.timers p' !! id = Some timer ->
    timerRole timer <> Some AnimationInterval.
Proof.
  intros Hp Hout p'.
  assert (Plugin.timers p' =
          Plugin.timers (clearIfSet (Plugin.syncAnimationId p) p)) as Ht.
  { subst p'. unfold performSyncStatus.
    pose proof (animation_after_ticks p ticks) as Hticks.
    fold animationTick. cbn zeta in Hticks.
    assert (Plugin.timers (clearIfSet (Plugin.syncAnimationId p) p)
              !! Plugin.nextTimerId p = None) as Hfresh.
    { destruct (tidy_clear AnimationInterval p Hp) as [H1 _].
      simpl in H1.
      destruct (Plugin.timers _ !! Plugin.nextTimerId p) as [t|] eqn:Hl;
        [|done].
      destruct (H1 _ _ Hl) as [Hlt _].
      assert (Plugin.nextTimerId
                (clearIfSet (Plugin.syncAnimationId p) p) =
              Plugin.nextTimerId p) as Hn
        by (by destruct (Plugin.syncAnimationId p)).
      rewrite Hn in Hlt. lia. }
    destruct outcome as [|msg|msg|n]; [done|..];
      rewrite Hticks; unfold stopSyncAnimation; simpl;
      by rewrite delete_insert_eq, delete_id. }
  split; [done|]. intros id timer. rewrite Ht. intros Hl.
  by destruct (lookup_cleared AnimationInterval p id timer Hp Hl).
Qed.

(* --------------------------------------------------------------------- *)
(** *** The status message *)
(* --------------------------------------------------------------------- *)

Lemma append_assoc (a b c : string) : (a ++ b) ++ c = a ++ (b ++ c).
Proof.
  induction a as [|x a IH]; [done|].
  change ((String x (a ++ b)) ++ c = String x (a ++ (b ++ c))).
  change (String x ((a ++ b) ++ c) = String x (a ++ (b ++ c))).
  by rewrite IH.
Qed.

Lemma append_nil_r (a : string) : a ++ "" = a.
Proof.
  induction a as [|x a IH]; [done|].
  change (String x (a ++ "") = String x a). by rewrite IH.
Qed.

Lemma allDigits_app a b :
  allDigits (a ++ b) = allDigits a && allDigits b.
Proof.
  induction a as [|x a IH]; [done|].
  change (allDigits (String x (a ++ b)) = allDigits (String x a) && allDigits b).
  simpl. by rewrite IH, andb_assoc.
Qed.

Lemma pretty_N_char_digit x : isDigit (pretty_N_char x) = true.
Proof. unfold pretty_N_char. by repeat case_match. Qed.

Lemma pretty_N_go_digits x : forall s,
  exists d, pretty_N_go x s = d ++ s /\ allDigits d = true /\
            ((0 < x)%N -> d <> "").
Proof.
  induction (N.lt_wf_0 x) as [x _ IH]. intros s.
  destruct (decide (0 < x)%N) as [Hpos|Hzero].
  - rewrite pretty_N_go_step by done.
    destruct (IH (x `div` 10)%N (N.div_lt x 10 Hpos eq_refl)
                (String (pretty_N_char (x `mod` 10)) s))
      as (d & -> & Hd & _).
    exists (d ++ String (pretty_N_char (x `mod` 10)) "").
    rewrite append_assoc. split_and!; [done| |].
    + rewrite allDigits_app, Hd. simpl. by rewrite pretty_N_char_digit.
    + intros _. by destruct d.
  - assert (x = 0%N) as -> by lia. exists "". by rewrite pretty_N_go_0.
Qed.

Lemma pretty_nat_digits (n : nat) :
  allDigits (pretty n) = true /\ pretty n <> "".
Proof.
  unfold pretty, pretty_nat, pretty, pretty_N. case_decide; [done|].
  destruct (pretty_N_go_digits (N.of_nat n) "") as (d & -> & Hd & Hne).
  rewrite append_nil_r. split; [done|]. apply Hne. lia.
Qed.

Lemma numeral_unique a : forall b s t,
  allDigits a = true -> allDigits b = true ->
  endsNumeral s -> endsNumeral t ->
  a ++ s = b ++ t -> a = b /\ s = t.
Proof.
  induction a as [|x a IH]; intros b s t Ha Hb Hs Ht Heq.
  - destruct b as [|y b]; [done|].
    change (s = String y (b ++ t)) in Heq. subst s. simpl in *.
    apply andb_prop in Hb as [Hy _]. congruence.
  - destruct b as [|y b].
    + change (String x (a ++ s) = t) in Heq. subst t. simpl in *.
      apply andb_prop in Ha as [Hx _]. congruence.
    + change (String x (a ++ s) = String y (b ++ t)) in Heq.
      injection Heq as -> Heq. simpl in *.
      apply andb_prop in Ha as [_ Ha]. apply andb_prop in Hb as [_ Hb].
      destruct (IH b s t Ha Hb Hs Ht Heq) as [-> ->]. done.
Qed.

(** Two numerals followed by texts that do not go on with a digit. *)
Lemma pretty_unique (m n : nat) (s t : string) :
  endsNumeral s -> endsNumeral t ->
  pretty m ++ s = pretty n ++ t -> m = n /\ s = t.
Proof.
  intros Hs Ht Heq.
  destruct (pretty_nat_digits m) as [Hm _].
  destruct (pretty_nat_digits n) as [Hn _].
  destruct (numeral_unique _ _ _ _ Hm Hn Hs Ht Heq) as [Hp ->].
  split; [|done]. by apply (inj pretty).
Qed.

Lemma pretty_not_letter (n : nat) (c : ascii) (s t : string) :
  isDigit c = false -> pretty n ++ s <> String c t.
Proof.
  intros Hc Heq. destruct (pretty_nat_digits n) as [Hd Hne].
  destruct (pretty n) as [|x r]; [done|].
  change (String x (r ++ s) = String c t) in Heq. injection Heq as -> _.
  simpl in Hd. apply andb_prop in Hd as [Hx _]. congruence.
Qed.

Lemma statusMessage_counts n :
  statusMessage n =
  if Nat.eqb (uploaded n) 0 && Nat.eqb (downloaded n) 0 &&
     Nat.eqb (conflicts n) 0 && Nat.eqb (deleted n) 0
  then "Synced - No changes"
  else "Synced - " ++ statusCounts n.
Proof.
  unfold statusMessage, statusCounts. destruct (_ && _); [done|].
  destruct (Nat.ltb 0 (deleted n)), (Nat.ltb 0 (conflicts n));
    rewrite ?append_assoc, ?append_nil_r; try reflexivity.
  all: change ("Synced - " ++ ?x) with ("Synced - " ++ x).
  all: rewrite ?append_assoc; reflexivity.
Qed.

Lemma statusMessage_zero (n : Counters) :
  statusMessage n = "Synced - No changes" <-> n = zeroCounters.
Proof.
  rewrite statusMessage_counts. split.
  - destruct (_ && _) eqn:Hz.
    + intros _. repeat (apply andb_prop in Hz as [Hz ?]).
      destruct n; simpl in *. unfold zeroCounters. f_equal;
        by apply Nat.eqb_eq.
    + intros Heq. exfalso.
      change ("Synced - " ++ statusCounts n = "Synced - " ++ "No changes")
        in Heq.
      apply (inj (String.app "Synced - ")) in Heq.
      unfold statusCounts in Heq. by apply pretty_not_letter in Heq.
  - intros ->. reflexivity.
Qed.

Lemma counted_suffix_unique (x x' : nat) (mark rest rest' : string) :
  endsNumeral mark -> mark <> "" ->
  " " ++ pretty x ++ mark ++ rest = " " ++ pretty x' ++ mark ++ rest' ->
  x = x' /\ rest = rest'.
Proof.
  intros Hmark Hne Heq. apply (inj (String.app " ")) in Heq.
  assert (forall r, endsNumeral (mark ++ r)) as Hends.
  { intros r. destruct mark; [done|]. exact Hmark. }
  apply pretty_unique in Heq as [-> Heq]; [|apply Hends..].
  split; [done|]. by apply (inj (String.app mark)) in Heq.
Qed.

Lemma status_suffix_unique (x c x' c' : nat) :
  (if Nat.ltb 0 x then " " ++ pretty x ++ WASTEBASKET else "") ++
  (if Nat.ltb 0 c then " " ++ pretty c ++ WARNING_SIGN else "") =
  (if Nat.ltb 0 x' then " " ++ pretty x' ++ WASTEBASKET else "") ++
  (if Nat.ltb 0 c' then " " ++ pretty c' ++ WARNING_SIGN else "") ->
  x = x' /\ c = c'.
Proof.
  assert (forall k, Nat.ltb 0 k = false -> k = O) as Hzero.
  { intros k Hk. apply Nat.ltb_ge in Hk. lia. }
  assert (forall k k' : nat,
            " " ++ pretty k ++ WARNING_SIGN = " " ++ pretty k' ++ WARNING_SIGN
            -> k = k') as Hwarn.
  { intros k k' Heq.
    rewrite <- (append_nil_r WARNING_SIGN) in Heq.
    by apply counted_suffix_unique in Heq as [-> _]. }
  destruct (Nat.ltb 0 x) eqn:Hx, (Nat.ltb 0 x') eqn:Hx';
    destruct (Nat.ltb 0 c) eqn:Hc, (Nat.ltb 0 c') eqn:Hc';
    rewrite ?append_assoc, ?append_nil_r; try discriminate; intros Heq.
  all: repeat match goal with
       | H : Nat.ltb 0 ?k = false |- _ => apply Hzero in H; subst k
       end.
  all: try (apply counted_suffix_unique in Heq as [-> Heq]; [|done..]).
  all: try (by apply Hwarn in Heq as ->).
  all: try done.
  all: try (rewrite <- (append_nil_r WASTEBASKET) in Heq;
            by apply counted_suffix_unique in Heq as [-> _]).
  all: try (apply (inj (String.app " ")) in Heq;
            apply pretty_unique in Heq as [_ Heq]; [|done..];
            discriminate).
Qed.

(** X28.  The status message is "Synced - No changes" exactly when the
    four counters are zero. *)
Theorem statusMessage_no_changes (n : Counters) :
  statusMessage n = "Synced - No changes" <-> n = zeroCounters.
Proof. apply statusMessage_zero. Qed.

(** X29.  The status message tells the four counters: two runs with
    the same message have the same numbers of uploads, downloads,
    deletions and conflicts. *)
Theorem statusMessage_inj (n n' : Counters) :
  statusMessage n = statusMessage n' -> n = n'.
Proof.
  intros Heq.
  pose proof (statusMessage_zero n) as [Hn _].
  pose proof (statusMessage_zero n') as [Hn' _].
  rewrite Heq in Hn. rewrite <- Heq in Hn'.
  rewrite (statusMessage_counts n') in Hn.
  rewrite (statusMessage_counts n) in Hn'.
  rewrite !statusMessage_counts in Heq.
  destruct (_ && _) eqn:Hz in Heq; rewrite Hz in Hn';
    destruct (_ && _) eqn:Hz' in Heq; rewrite Hz' in Hn.
  - by rewrite Hn, Hn'.
  - rewrite (Hn' eq_refl) in Hz'. discriminate.
  - rewrite (Hn eq_refl) in Hz. discriminate.
  - clear Hn Hn'.
    apply (inj (String.app "Synced - ")) in Heq. unfold statusCounts in Heq.
    apply pretty_unique in Heq as [Hu Heq]; [|done..].
    apply (inj (String.app UP_ARROW)) in Heq.
    apply (inj (String.app " ")) in Heq.
    apply pretty_unique in Heq as [Hd Heq]; [|done..].
    apply (inj (String.app DOWN_ARROW)) in Heq.
    apply status_suffix_unique in Heq as [Hx Hc].
    destruct n, n'; simpl in *. by subst.
Qed.


(* ===================================================================== *)
(** ** The further properties on the closed scenarios *)
(* ===================================================================== *)

(** X1 at the name [notes.v2.MD]. *)
Lemma getMimeType_last_extension_witness :
  includes "." "MD" = false /\
  getMimeType ("notes.v2" ++ "." ++ "MD") = getMimeType "MD".
Proof.
  split; [reflexivity|]. apply getMimeType_last_extension. reflexivity.
Defined.

(** X2 at two spellings of the name of a photo. *)
Lemma getMimeType_case_insensitive_witness :
  toLowerCase "Photo.JPG" = toLowerCase "photo.jpg" /\
  getMimeType "Photo.JPG" = getMimeType "photo.jpg".
Proof.
  split; [reflexivity|]. apply getMimeType_case_insensitive. reflexivity.
Defined.

(** X5 at a file of the folder [notes/2024]. *)
Lemma parentFolderPath_extendPath_witness :
  includes "/" "entry.md" = false /\
  parentFolderPath (extendPath "notes/2024" "entry.md") = "notes/2024".
Proof.
  split; [reflexivity|]. apply parentFolderPath_extendPath. reflexivity.
Defined.

(** X11 where the folder [sub] cannot be listed: the run fails, and the
    note that conflicts is not touched. *)
Lemma failed_listing_ends_run_witness :
  In (EvListFolder "id-sub" false)
     (trace (snd (performSync plainDigest failedListingEnv true true
                    (scenarioWorld 1000 overwrite)))) /\
  exists msg,
    fst (performSync plainDigest failedListingEnv true true
           (scenarioWorld 1000 overwrite)) = Ok (SyncFailed msg).
Proof.
  destruct (failed_listing_ends_run plainDigest failedListingEnv true true
              (scenarioWorld 1000 overwrite)) as [evs [Ht Hfail]].
  change (trace (scenarioWorld 1000 overwrite) ++ evs)%list with evs in Ht.
  rewrite Ht.
  assert (In (EvListFolder "id-sub" false) evs) as Hin.
  { rewrite <- Ht. vm_compute. intuition. }
  split; [exact Hin|]. exact (proj1 (Hfail _ Hin)).
Defined.

(** X12 where the sync folder is gone from Drive. *)
Lemma invalid_folder_stops_run_witness :
  performSync plainDigest invalidFolderEnv true true
    (scenarioWorld 1000 overwrite) =
  (Ok (ValidationFailed
         "Google Drive folder not found. Please check your Folder ID in settings."),
   extend (scenarioWorld 1000 overwrite)
     [EvGetAccessToken (Some "token");
      EvValidateFolder "ROOT" (RespStatus 404 "Not Found")]).
Proof.
  destruct (invalid_folder_stops_run plainDigest invalidFolderEnv true true
              (scenarioWorld 1000 overwrite) "token")
    as [msg [Hrun [H404 _]]];
    [reflexivity | reflexivity | reflexivity | intros name; discriminate |].
  rewrite Hrun, (H404 "Not Found" eq_refl). reflexivity.
Defined.

(** X13 at the note changed on both sides, under the policy 'overwrite':
    the conflict is the one upload request of the run, and the run asks
    for a token four times. *)
Lemma counters_account_for_calls_witness :
  fst (performSync plainDigest conflictEnv true true
         (scenarioWorld 1000 overwrite))
    = Ok (Synced (incConflicts zeroCounters)) /\
  countIf isUploadRequest
    (trace (snd (performSync plainDigest conflictEnv true true
                   (scenarioWorld 1000 overwrite)))) = 1%nat /\
  countIf isTokenRequest
    (trace (snd (performSync plainDigest conflictEnv true true
                   (scenarioWorld 1000 overwrite)))) = 4%nat.
Proof.
  assert (fst (performSync plainDigest conflictEnv true true
                 (scenarioWorld 1000 overwrite))
          = Ok (Synced (incConflicts zeroCounters))) as Hrun
    by (vm_compute; reflexivity).
  destruct (counters_account_for_calls plainDigest conflictEnv true true
              (scenarioWorld 1000 overwrite) _ Hrun)
    as [evs (Ht & Hup & _ & _ & Htok)].
  change (trace (scenarioWorld 1000 overwrite) ++ evs)%list with evs in Ht.
  rewrite Ht, Hup, Htok. split_and!; [exact Hrun | reflexivity..].
Defined.

(** X14 at the two notes of a deep directory that Drive does not have
    yet: both are created under the folder Drive created for [jan]. *)
Lemma new_files_go_under_known_folders_witness :
  In (EvUploadCreate entryLocal "id-of-jan" (RespOk tt))
     (trace (snd (performSync plainDigest (deepPathEnv (RespOk [])) true
                    true (scenarioWorld 5000 overwrite)))) /\
  ("id-of-jan" = "ROOT" \/
   In "id-of-jan"
      (givenIds
         (trace (snd (performSync plainDigest (deepPathEnv (RespOk [])) true
                        true (scenarioWorld 5000 overwrite)))))).
Proof.
  destruct (new_files_go_under_known_folders plainDigest
              (deepPathEnv (RespOk [])) true true
              (scenarioWorld 5000 overwrite)) as [evs [Ht Hnew]].
  change (trace (scenarioWorld 5000 overwrite) ++ evs)%list with evs in Ht.
  rewrite Ht.
  assert (In (EvUploadCreate entryLocal "id-of-jan" (RespOk tt)) evs)
    as Hin.
  { rewrite <- Ht. vm_compute. intuition. }
  split; [exact Hin|]. exact (Hnew _ _ _ Hin).
Defined.

(** X16 at the note changed on both sides: the policy 'overwrite' is the
    button "Keep Local Version". *)
Lemma prompt_choice_matches_policy_witness :
  freshAccessToken conflictEnv
    "Failed to refresh access token for conflict resolution"
    (scenarioWorld 1000 overwrite) =
    (Ok "token",
     extend (scenarioWorld 1000 overwrite)
       [EvGetAccessToken (Some "token")]) /\
  handleConflict conflictEnv noteLocal noteRemote "token"
    (scenarioWorld 1000 overwrite) =
  promptChoice conflictEnv KeepLocalVersion noteLocal noteRemote "token"
    (extend (scenarioWorld 1000 overwrite)
       [EvGetAccessToken (Some "token")]).
Proof.
  split; [reflexivity|].
  exact (prompt_choice_matches_policy conflictEnv noteLocal noteRemote
           "token" "token" (scenarioWorld 1000 overwrite) _ eq_refl).
Defined.

(** X17 after a vault event, a start of the animation and a change of the
    interval: the auto-sync interval of the plugin is the timer 6, and no
    other. *)
Lemma one_timer_per_role_witness :
  Plugin.timers
    (actAll [DoTrigger modify; DoStartSyncAnimation;
             DoChange (ChangeSyncInterval 30) true]
       (onload (Some syncedData) 1)) !! 6%positive
    = Some {| repeats := true; delay := 1800000; callback := RunSync |} /\
  (6 = 6)%positive.
Proof.
  assert (Plugin.timers
            (actAll [DoTrigger modify; DoStartSyncAnimation;
                     DoChange (ChangeSyncInterval 30) true]
               (onload (Some syncedData) 1)) !! 6%positive
          = Some {| repeats := true; delay := 1800000;
                    callback := RunSync |}) as Hlive
    by (vm_compute; reflexivity).
  split; [exact Hlive|].
  exact (one_timer_per_role (Some syncedData) 1
           [DoTrigger modify; DoStartSyncAnimation;
            DoChange (ChangeSyncInterval 30) true]
           6%positive 6%positive _ _ Hlive Hlive eq_refl).
Defined.

(** X18 at the loaded plugin: one more call of [setupAutoSync] replaces
    the interval 2 by the interval 3. *)
Lemma setupAutoSync_timers_witness :
  tidy loadedPlugin /\
  Plugin.syncIntervalId (setupAutoSync loadedPlugin) = Some 3%positive /\
  Plugin.vaultHandlers (setupAutoSync loadedPlugin) =
    [modify; delete; create; modify; delete; create;
     modify; delete; create].
Proof.
  split; [apply tidy_onload|].
  destruct (setupAutoSync_timers loadedPlugin (tidy_onload _ _))
    as (_ & _ & Hset).
  change (autoSyncEnabled (Plugin.settings loadedPlugin)) with true in Hset.
  destruct Hset as (Hid & _ & Hhandlers).
  split; [exact Hid | exact Hhandlers].
Defined.

(** X19 at the loaded plugin, which has two handlers per event: a change
    of a note uses up the timer identifiers 3 and 4 and leaves one timeout
    pending, the one the plugin keeps as [syncTimeoutId]. *)
Lemma trigger_debounces_witness :
  tidy loadedPlugin /\
  (0 < handlersFor modify loadedPlugin)%nat /\
  Plugin.nextTimerId (trigger modify loadedPlugin) = 5%positive /\
  exists id,
    Plugin.syncTimeoutId (trigger modify loadedPlugin) = Some id /\
    Plugin.timers (trigger modify loadedPlugin) !! id = Some debounceTimer.
Proof.
  assert (0 < handlersFor modify loadedPlugin)%nat as Hpos
    by (vm_compute; lia).
  split; [apply tidy_onload|]. split; [exact Hpos|].
  pose proof (trigger_debounces modify loadedPlugin (tidy_onload _ _))
    as Hrun.
  change (autoSync (Plugin.settings loadedPlugin)) with true in Hrun.
  destruct Hrun as [Hnext Hlast]. split; [exact Hnext|].
  destruct (Hlast Hpos) as (id & Hid & Hlive & _).
  exists id. split; [exact Hid | exact Hlive].
Defined.

(** X20 at the loaded plugin: the change of a note leads to one call of
    [performSync()]. *)
Lemma debounced_event_syncs_once_witness :
  tidy loadedPlugin /\ autoSync (Plugin.settings loadedPlugin) = true /\
  (0 < handlersFor modify loadedPlugin)%nat /\
  exists id,
    Plugin.syncTimeoutId (trigger modify loadedPlugin) = Some id /\
    Plugin.syncRequests (fire id (trigger modify loadedPlugin)) = 1%nat.
Proof.
  assert (0 < handlersFor modify loadedPlugin)%nat as Hpos
    by (vm_compute; lia).
  split_and!; [apply tidy_onload | reflexivity | exact Hpos |].
  destruct (debounced_event_syncs_once modify loadedPlugin
              (tidy_onload _ _) eq_refl Hpos)
    as [id (Hid & _ & Hfired & _)].
  exists id. split; [exact Hid | exact Hfired].
Defined.

(** X21 at the loaded plugin: with auto-sync switched off, a change of a
    note does nothing. *)
Lemma disabling_autosync_stops_sync_witness :
  tidy loadedPlugin /\
  trigger modify (onChange (ChangeAutoSync false) true loadedPlugin) =
    onChange (ChangeAutoSync false) true loadedPlugin.
Proof.
  split; [apply tidy_onload|].
  destruct (disabling_autosync_stops_sync loadedPlugin (tidy_onload _ _))
    as (_ & _ & _ & Hquiet).
  apply Hquiet.
Defined.

(** X22 at the loaded plugin with a change of a note pending and the
    animation running. *)
Lemma onunload_clears_timers_witness :
  tidy (actAll [DoTrigger modify; DoStartSyncAnimation] loadedPlugin) /\
  Plugin.timers
    (onunload (actAll [DoTrigger modify; DoStartSyncAnimation]
                 loadedPlugin)) = ∅.
Proof.
  assert (tidy (actAll [DoTrigger modify; DoStartSyncAnimation]
                  loadedPlugin)) as Htidy
    by (apply tidy_actAll, tidy_onload).
  split; [exact Htidy|]. apply onunload_clears_timers, Htidy.
Defined.

(** X24 at a first setup in a window whose next timer identifier is 1. *)
Lemma first_setup_leaves_autosync_off_witness :
  truthy "client" = true /\ truthy "secret" = true /\
  truthy "ROOT" = true /\ truthy "refresh" = true /\
  Plugin.timers
    (authenticate (Some (ReplyToken (Some "refresh"))) true
       (onChange (ChangeFolderId "ROOT") true
          (onChange (ChangeClientSecret "secret") true
             (onChange (ChangeClientId "client") true
                (onload None 1))))) = ∅.
Proof.
  do 4 (split; [reflexivity|]).
  exact (proj1 (proj2 (proj2
           (first_setup_leaves_autosync_off 1 "client" "secret" "ROOT"
              "refresh" eq_refl eq_refl eq_refl eq_refl)))).
Defined.

(** X27 at a run of the loaded plugin that fails after three ticks of
    the animation: the auto-sync interval is the only timer left. *)
Lemma run_leaves_no_animation_witness :
  tidy loadedPlugin /\ SyncFailed "Download failed" <> NotConfigured /\
  Plugin.timers
    (performSyncStatus (SyncFailed "Download failed") 3 loadedPlugin) =
  Plugin.timers loadedPlugin.
Proof.
  assert (SyncFailed "Download failed" <> NotConfigured) as Hne
    by discriminate.
  split_and!; [apply tidy_onload | exact Hne |].
  destruct (run_leaves_no_animation (SyncFailed "Download failed") 3
              loadedPlugin (tidy_onload _ _) Hne) as [Htimers _].
  rewrite Htimers. reflexivity.
Defined.

(** X29 at two ways of writing the counters of a run with two uploads and
    one conflict. *)
Lemma statusMessage_inj_witness :
  statusMessage (incConflicts (incUploaded (incUploaded zeroCounters))) =
    statusMessage (incUploaded (incConflicts (incUploaded zeroCounters))) /\
  incConflicts (incUploaded (incUploaded zeroCounters)) =
    incUploaded (incConflicts (incUploaded zeroCounters)).
Proof.
  split; [reflexivity|]. apply statusMessage_inj. reflexivity.
Defined.

(** The message of the run that fails on the listing of [sub]: the text
    of [getDriveItemsRecursive], with the id of the folder, the status
    and its text. *)
Example failed_listing_message :
  fst (performSync plainDigest failedListingEnv true true
         (scenarioWorld 1000 overwrite)) =
  Ok (SyncFailed
        "Failed to list items in folder id-sub: 500 Internal Server Error").
Proof. vm_compute. reflexivity. Qed.
